(** * Employee1: the autonomous CTO agent's tools and workflow

    A shallow embedding of the tool bodies of
    [src/mastra/tools/githubTools.ts], [notionTools.ts],
    [developmentTools.ts] and of the task-discovery step of
    [src/mastra/workflows/ctoAutomationWorkflow.ts], with the remote
    services (connector endpoint, clock, GitHub, Notion, the agent) kept as
    an oracle whose every call is recorded in a trace.

    Conventions of the model:
    - [logger?.info], [logger?.warn] and [logger?.error] have no part in
      any result and are left out;
    - an [async] body is the sequence of its awaited calls; the callbacks
      of [xs.map(async ...)] issue their first call in the order of [xs];
    - a string is a sequence of code units below 256;
    - numbers are integers ([Z]), which is exact for the sizes, counts and
      scores the tools handle. *)

From Stdlib Require Import ZArith List Ascii String Bool Lia.
From stdpp Require Import base option list strings gmap pretty.

Import ListNotations.
Local Open Scope Z_scope.
Local Open Scope string_scope.

(* ===================================================================== *)
(** * JavaScript values used by the tools *)
(* ===================================================================== *)

Module Js.

(** A thrown value: an [Error] object with its message, or any other
    value, kept as what [String(value)] gives. *)
Inductive JsError : Type :=
| ErrorObj (message : string)
| NonError (stringified : string).

(** [error instanceof Error ? error.message : String(error)] *)
Definition errorMessage (e : JsError) : string :=
  match e with
  | ErrorObj m => m
  | NonError s => s
  end.

(** The completion of an [async] function body: a value or a throw. *)
Inductive Outcome (A : Type) : Type :=
| Returned (a : A)
| Thrown (e : JsError).
Arguments Returned {A} a.
Arguments Thrown {A} e.

Definition isReturned {A} (o : Outcome A) : bool :=
  match o with Returned _ => true | Thrown _ => false end.

(** [try { body } catch (error) { handler }] around a body without
    remote calls. *)
Definition tryCatch {A} (body : Outcome A) (handler : JsError → Outcome A) : Outcome A :=
  match body with
  | Returned a => Returned a
  | Thrown e => handler e
  end.

(** Truthiness of an optional string ([undefined] and [EmptyString] are falsy). *)
Definition truthy (v : option string) : bool :=
  match v with
  | Some s => negb (String.eqb s EmptyString)
  | None => false
  end.

(** [a || b] on optional strings. *)
Definition or_else (a b : option string) : option string :=
  if truthy a then a else b.

(** Strings are sequences of code units below 256; the functions below
    follow ECMAScript on that range. *)
Definition code (c : ascii) : N := N_of_ascii c.

Definition isDigit (c : ascii) : bool :=
  ((48 <=? code c) && (code c <=? 57))%N.

(** The class [\s], also what [trim] strips: TAB, LF, VT, FF, CR, SP, NBSP. *)
Definition isSpace (c : ascii) : bool :=
  (((9 <=? code c) && (code c <=? 13)) || (code c =? 32) || (code c =? 160))%N.

Definition lowerChar (c : ascii) : ascii :=
  if (((65 <=? code c) && (code c <=? 90))
      || ((192 <=? code c) && (code c <=? 222) && negb (code c =? 215)))%N
  then ascii_of_N (code c + 32)
  else c.

(** [String.prototype.toLowerCase] *)
Fixpoint toLowerCase (s : string) : string :=
  match s with
  | EmptyString => EmptyString
  | String c r => String (lowerChar c) (toLowerCase r)
  end.

(** [s.startsWith(p)] *)
Fixpoint startsWith (s p : string) : bool :=
  match p, s with
  | EmptyString, _ => true
  | String _ _, EmptyString => false
  | String a p', String b s' => Ascii.eqb a b && startsWith s' p'
  end.

(** [s.includes(needle)] *)
Fixpoint includes (s needle : string) : bool :=
  startsWith s needle ||
  match s with
  | EmptyString => false
  | String _ r => includes r needle
  end.

(** [s.endsWith(suffix)] *)
Definition endsWith (s suffix : string) : bool :=
  let n := String.length s in
  let k := String.length suffix in
  (k <=? n)%nat && String.eqb (String.substring (n - k) k s) suffix.

Fixpoint dropSpaces (s : string) : string :=
  match s with
  | EmptyString => EmptyString
  | String c r => if isSpace c then dropSpaces r else s
  end.

Fixpoint dropTrailingSpaces (s : string) : string :=
  match s with
  | EmptyString => EmptyString
  | String c r =>
      match dropTrailingSpaces r with
      | EmptyString => if isSpace c then EmptyString else String c EmptyString
      | r' => String c r'
      end
  end.

(** [s.trim()] *)
Definition trim (s : string) : string := dropTrailingSpaces (dropSpaces s).

(** [xs.join(sep)] *)
Fixpoint join (sep : string) (xs : list string) : string :=
  match xs with
  | [] => EmptyString
  | [x] => x
  | x :: r => x ++ sep ++ join sep r
  end.

(** The double-quote character of a message. *)
Definition dquote : string := String (ascii_of_N 34) EmptyString.

(** A number interpolated into a template literal. *)
Definition showZ (n : Z) : string := pretty n.

End Js.
Import Js.

(* ===================================================================== *)
(** * The remote services as an oracle, and the effect monad *)
(* ===================================================================== *)

Module Remote.

(** ** Connector endpoint *)

(** [settings.expires_at] after [new Date(..).getTime()]. *)
Inductive ExpiresAt : Type :=
| NoExpiry                 (* absent or falsy *)
| InvalidDate              (* truthy, but [getTime()] is NaN *)
| ExpiresAtMs (t : Z).     (* truthy and parsed, in ms since the epoch *)

Record Settings : Type := {
  expires_at : ExpiresAt;
  access_token : option string;
  oauth_access_token : option string   (* settings.oauth?.credentials?.access_token *)
}.

(** A key of the connector's answer that is meant to hold an object:
    missing (read as [undefined]), [null], or the object. *)
Inductive JsonField (A : Type) : Type :=
| Missing
| Null
| Present (a : A).
Arguments Missing {A}.
Arguments Null {A}.
Arguments Present {A} a.

Record ConnectionSettings : Type := {
  settings : JsonField Settings
}.

(** ** GitHub objects *)

Inductive Encoding : Type := Utf8 | Base64.

Record CommitFile : Type := {
  file_path : string;
  file_content : string;
  file_encoding : Encoding
}.

(** An entry of the tree passed to [createTree]; mode ["100644"] and
    type ["blob"] are constants of the source. *)
Record TreeEntry : Type := {
  entry_path : string;
  entry_sha : string;
  entry_mode : string;
  entry_type : string
}.

Record GitRef : Type := { object_sha : string }.
Record GitCommit : Type := { commit_tree_sha : string }.
Record PullRequest : Type := { pr_number : Z; pr_html_url : string }.

Inductive ItemType : Type := TFile | TDir | TOther (name : string).

(** An entry as [repos.getContent] lists it; [content] is the base64
    text when the response carries the key. *)
Record ContentEntry : Type := {
  ce_name : string;
  ce_path : string;
  ce_type : ItemType;
  ce_size : option Z;
  ce_sha : string;
  ce_content : option string
}.

Inductive ContentData : Type :=
| ContentArray (entries : list ContentEntry)
| ContentSingle (entry : ContentEntry).

Record Branch : Type := {
  branch_name : string;
  branch_commit_sha : string;
  branch_protected : bool
}.

(** ** Notion objects *)

Record RichText : Type := { plain_text : string }.
Record SelectOption : Type := { select_name : string }.
Record Person : Type := { person_name : string }.

(** A property value of a page: the field named after its type. *)
Inductive Property : Type :=
| PTitle (title : list RichText)
| PSelect (select : option SelectOption)
| PRichText (rich_text : list RichText)
| PPeople (people : list Person)
| POther.

Record Page : Type := {
  page_id : string;
  page_database : string;          (* parent.database_id; never read by the tools *)
  page_created_time : string;
  page_last_edited_time : string;
  page_url : string;
  page_properties : gmap string Property
}.

Record Block : Type := {
  block_type : string;
  block_rich_text : option (list RichText)   (* block[block.type]?.rich_text *)
}.

(** ** Calls *)

Inductive Call : Type :=
| Now
| FetchConnection (url xReplitToken : string)
| GitGetRef (owner repo ref : string)
| GitGetCommit (owner repo commit_sha : string)
| GitCreateRef (owner repo ref sha : string)
| GitCreateBlob (owner repo content : string) (encoding : Encoding)
| GitCreateTree (owner repo base_tree : string) (tree : list TreeEntry)
| GitCreateCommit (owner repo message tree : string) (parents : list string)
| GitUpdateRef (owner repo ref sha : string)
| PullsCreate (owner repo title head base body : string) (draft : bool)
| PullsRequestReviewers (owner repo : string) (pull_number : Z)
                        (reviewers : list string)
| ReposGetContent (owner repo path : string) (ref : option string)
| ReposListBranches (owner repo : string)
| NotionSearch (filter_value filter_property : string) (page_size : Z)
| NotionPagesUpdate (page_id status_name : string)
| NotionCommentsCreate (page_id content : string)
| NotionPagesRetrieve (page_id : string)
| NotionBlocksChildrenList (block_id : string).

Definition Reply (c : Call) : Type :=
  match c with
  | Now => Z
  | FetchConnection _ _ => option ConnectionSettings
  | GitGetRef _ _ _ => GitRef
  | GitGetCommit _ _ _ => GitCommit
  | GitCreateRef _ _ _ _ => GitRef
  | GitCreateBlob _ _ _ _ => string
  | GitCreateTree _ _ _ _ => string
  | GitCreateCommit _ _ _ _ _ => string
  | GitUpdateRef _ _ _ _ => unit
  | PullsCreate _ _ _ _ _ _ _ => PullRequest
  | PullsRequestReviewers _ _ _ _ => unit
  | ReposGetContent _ _ _ _ => ContentData
  | ReposListBranches _ _ => list Branch
  | NotionSearch _ _ _ => list Page
  | NotionPagesUpdate _ _ => unit
  | NotionCommentsCreate _ _ => unit
  | NotionPagesRetrieve _ => Page
  | NotionBlocksChildrenList _ => list Block
  end.

(** The services: what a call answers after the calls made so far. *)
Definition World : Type := list Call → ∀ c : Call, Outcome (Reply c).

(** ** Module state and the monad of tool bodies *)

Record State : Type := {
  connectionSettings : option ConnectionSettings;   (* [let connectionSettings] *)
  trace : list Call
}.

Definition M (A : Type) : Type := World → State → Outcome A * State.

Definition ret {A} (a : A) : M A := λ _ st, (Returned a, st).
Definition throw {A} (e : JsError) : M A := λ _ st, (Thrown e, st).

Definition bind {A B} (m : M A) (k : A → M B) : M B :=
  λ w st,
    match m w st with
    | (Returned a, st') => k a w st'
    | (Thrown e, st') => (Thrown e, st')
    end.

(** [try { body } catch (error) { handler }] *)
Definition try_catch {A} (body : M A) (handler : JsError → M A) : M A :=
  λ w st,
    match body w st with
    | (Returned a, st') => (Returned a, st')
    | (Thrown e, st') => handler e w st'
    end.

(** An awaited call to a service. *)
Definition call (c : Call) : M (Reply c) :=
  λ w st,
    (w (trace st) c,
     {| connectionSettings := connectionSettings st; trace := trace st ++ [c] |}).

(** A call that has been issued, with its settled promise kept for later. *)
Definition issue (c : Call) : M (Outcome (Reply c)) :=
  λ w st,
    (Returned (w (trace st) c),
     {| connectionSettings := connectionSettings st; trace := trace st ++ [c] |}).

Definition await {A} (o : Outcome A) : M A :=
  match o with
  | Returned a => ret a
  | Thrown e => throw e
  end.

Definition getCache : M (option ConnectionSettings) :=
  λ _ st, (Returned (connectionSettings st), st).

Definition setCache (cs : option ConnectionSettings) : M unit :=
  λ _ st, (Returned tt, {| connectionSettings := cs; trace := trace st |}).

(** [xs.map(f)] where [f] runs up to its first settled result, in order. *)
Fixpoint mapM {A B} (f : A → M B) (xs : list A) : M (list B) :=
  match xs with
  | [] => ret []
  | x :: r => bind (f x) (λ y, bind (mapM f r) (λ ys, ret (y :: ys)))
  end.

(** [Promise.all] over settled promises: all values, or the rejection
    of the first rejected one in list order. *)
Fixpoint all {A} (ps : list (Outcome A)) : M (list A) :=
  match ps with
  | [] => ret []
  | p :: r => bind (await p) (λ a, bind (all r) (λ l, ret (a :: l)))
  end.

End Remote.
Import Remote.

Global Instance M_ret : MRet M := @Remote.ret.
Global Instance M_bind : MBind M := λ A B k m, Remote.bind m k.

(* ===================================================================== *)
(** * Credential provider: [getAccessToken] *)
(* ===================================================================== *)

Module Credentials.

(** The part of [process.env] the function reads. *)
Record ProcessEnv : Type := {
  REPLIT_CONNECTORS_HOSTNAME : option string;
  REPL_IDENTITY : option string;
  WEB_REPL_RENEWAL : option string
}.

(** What distinguishes the GitHub and the Notion copy of the function. *)
Record Connector : Type := {
  connector_name : string;
  not_connected : string
}.

Definition github : Connector :=
  {| connector_name := "github"; not_connected := "GitHub not connected" |}.
Definition notion : Connector :=
  {| connector_name := "notion"; not_connected := "Notion not connected" |}.

(** [REPL_IDENTITY ? 'repl ' + .. : WEB_REPL_RENEWAL ? 'depl ' + .. : null] *)
Definition xReplitToken (env : ProcessEnv) : option string :=
  if truthy (REPL_IDENTITY env) then Some ("repl " ++ default EmptyString (REPL_IDENTITY env))
  else if truthy (WEB_REPL_RENEWAL env) then Some ("depl " ++ default EmptyString (WEB_REPL_RENEWAL env))
  else None.

Definition connectionUrl (env : ProcessEnv) (k : Connector) : string :=
  "https://" ++ default "undefined" (REPLIT_CONNECTORS_HOSTNAME env)
    ++ "/api/v2/connection?include_secrets=true&connector_names=" ++ connector_name k.

Definition typeErrorSettings : JsError :=
  ErrorObj "Cannot read properties of undefined (reading 'settings')".
Definition typeErrorExpiresAt : JsError :=
  ErrorObj "Cannot read properties of undefined (reading 'expires_at')".
Definition typeErrorExpiresAtNull : JsError :=
  ErrorObj "Cannot read properties of null (reading 'expires_at')".

(** The guard of the first [if]: the cache is set, declares an expiry,
    and that expiry is later than [Date.now()]. *)
Definition cacheIsFresh (cs : option ConnectionSettings) : M bool :=
  match cs with
  | None => mret false
  | Some c =>
      match settings c with
      | Missing => throw typeErrorExpiresAt
      | Null => throw typeErrorExpiresAtNull
      | Present s =>
          match expires_at s with
          | NoExpiry => mret false
          | InvalidDate => _ ← call Now; mret false
          | ExpiresAtMs t => now ← call Now; mret (bool_decide (t > now))
          end
      end
  end.

(** [connectionSettings.settings.access_token], read on a fresh cache. *)
Definition cachedToken (cs : option ConnectionSettings) : option string :=
  match cs with
  | Some c =>
      match settings c with
      | Present s => access_token s
      | _ => None
      end
  | None => None
  end.

(** [connectionSettings?.settings?.access_token ||
     connectionSettings.settings?.oauth?.credentials?.access_token] *)
Definition fetchedToken (cs : option ConnectionSettings) : M (option string) :=
  match cs with
  | None => throw typeErrorSettings
  | Some c =>
      match settings c with
      | Present s => mret (or_else (access_token s) (oauth_access_token s))
      | _ => mret None
      end
  end.

Definition getAccessToken (env : ProcessEnv) (k : Connector) : M (option string) :=
  cs ← getCache;
  fresh ← cacheIsFresh cs;
  if fresh : bool then mret (cachedToken cs)
  else
    match xReplitToken env with
    | None => throw (ErrorObj "X_REPLIT_TOKEN not found for repl/depl")
    | Some tok =>
        fetched ← call (FetchConnection (connectionUrl env k) tok);
        setCache fetched;;
        accessToken ← fetchedToken fetched;
        if truthy accessToken then mret accessToken
        else throw (ErrorObj (not_connected k))
    end.

End Credentials.

(* ===================================================================== *)
(** * Repository accessor: the GitHub tools *)
(* ===================================================================== *)

Module GitHub.
Import Credentials.

Section Tools.
Variable env : ProcessEnv.

(** [getUncachableGitHubClient]: the client is the token it carries. *)
Definition getUncachableGitHubClient : M (option string) :=
  getAccessToken env github.

(** ** createBranch *)

Record CreateBranchInput : Type := {
  cb_owner : string; cb_repo : string;
  cb_branchName : string; cb_baseBranch : string
}.

Record CreateBranchResult : Type := {
  cb_success : bool; cb_name : string; cb_sha : string; cb_message : string
}.

Definition createBranchTry (i : CreateBranchInput) : M CreateBranchResult :=
  _ ← getUncachableGitHubClient;
  baseRef ← call (GitGetRef (cb_owner i) (cb_repo i) ("heads/" ++ cb_baseBranch i));
  newBranch ← call (GitCreateRef (cb_owner i) (cb_repo i)
                      ("refs/heads/" ++ cb_branchName i) (object_sha baseRef));
  mret {| cb_success := true;
          cb_name := cb_branchName i;
          cb_sha := object_sha newBranch;
          cb_message := "Branch " ++ dquote ++ cb_branchName i ++ dquote
                          ++ " created successfully from "
                          ++ dquote ++ cb_baseBranch i ++ dquote |}.

Definition createBranchCatch (i : CreateBranchInput) (error : JsError) : M CreateBranchResult :=
  mret {| cb_success := false;
          cb_name := cb_branchName i;
          cb_sha := EmptyString;
          cb_message := "Failed to create branch: " ++ errorMessage error |}.

Definition createBranch (i : CreateBranchInput) : M CreateBranchResult :=
  try_catch (createBranchTry i) (createBranchCatch i).

(** ** commitCode *)

Record CommitCodeInput : Type := {
  cc_owner : string; cc_repo : string; cc_branch : string;
  cc_message : string; cc_files : list CommitFile
}.

Record CommitCodeResult : Type := {
  cc_success : bool; cc_commitSha : option string; cc_result_message : string
}.

Definition createBlobCall (i : CommitCodeInput) (file : CommitFile) : Call :=
  GitCreateBlob (cc_owner i) (cc_repo i) (file_content file) (file_encoding file).

Definition treeEntry (file : CommitFile) (sha : string) : TreeEntry :=
  {| entry_path := file_path file; entry_sha := sha;
     entry_mode := "100644"; entry_type := "blob" |}.

(** The callback of [files.map]: the blob call is issued at once, the
    tree entry is built when the blob settles. *)
Definition blobPromise (i : CommitCodeInput) (file : CommitFile)
  : M (Outcome TreeEntry) :=
  blob ← issue (createBlobCall i file);
  mret match blob with
       | Returned sha => Returned (treeEntry file sha)
       | Thrown e => Thrown e
       end.

Definition commitCodeTry (i : CommitCodeInput) : M CommitCodeResult :=
  _ ← getUncachableGitHubClient;
  ref ← call (GitGetRef (cc_owner i) (cc_repo i) ("heads/" ++ cc_branch i));
  commit ← call (GitGetCommit (cc_owner i) (cc_repo i) (object_sha ref));
  promises ← mapM (blobPromise i) (cc_files i);
  blobs ← all promises;
  tree ← call (GitCreateTree (cc_owner i) (cc_repo i) (commit_tree_sha commit) blobs);
  newCommit ← call (GitCreateCommit (cc_owner i) (cc_repo i) (cc_message i)
                      tree [object_sha ref]);
  call (GitUpdateRef (cc_owner i) (cc_repo i) ("heads/" ++ cc_branch i) newCommit);;
  mret {| cc_success := true;
          cc_commitSha := Some newCommit;
          cc_result_message :=
            "Successfully committed " ++ showZ (Z.of_nat (length (cc_files i)))
              ++ " files to branch " ++ dquote ++ cc_branch i ++ dquote |}.

Definition commitCodeCatch (i : CommitCodeInput) (error : JsError) : M CommitCodeResult :=
  mret {| cc_success := false;
          cc_commitSha := None;
          cc_result_message := "Failed to commit code: " ++ errorMessage error |}.

Definition commitCode (i : CommitCodeInput) : M CommitCodeResult :=
  try_catch (commitCodeTry i) (commitCodeCatch i).

(** ** createPullRequest *)

Record PullRequestInput : Type := {
  pr_owner : string; pr_repo : string; pr_title : string;
  pr_head : string; pr_base : string; pr_body : string;
  pr_notionTaskUrl : option string;
  pr_reviewers : option (list string);
  pr_draft : bool
}.

Record PullRequestResult : Type := {
  pr_success : bool;
  pr_pullRequestUrl : option string;
  pr_pullRequestNumber : option Z;
  pr_message : string
}.

Definition newline : string := String (ascii_of_N 10) EmptyString.

Definition reviewChecklist : string :=
  newline ++ newline ++ "## Review Checklist"
    ++ newline ++ "- [ ] Code follows ZenQuill coding standards"
    ++ newline ++ "- [ ] Tests have been added/updated"
    ++ newline ++ "- [ ] Documentation has been updated"
    ++ newline ++ "- [ ] No breaking changes introduced"
    ++ newline ++ "- [ ] Security considerations addressed".

Definition prBody (i : PullRequestInput) : string :=
  (if truthy (pr_notionTaskUrl i)
   then pr_body i ++ newline ++ newline ++ "## Related Task" ++ newline
          ++ "- Original Notion Task: " ++ default EmptyString (pr_notionTaskUrl i)
   else pr_body i)
  ++ reviewChecklist.

(** [reviewers && reviewers.length > 0] *)
Definition hasReviewers (i : PullRequestInput) : bool :=
  match pr_reviewers i with
  | Some (_ :: _) => true
  | _ => false
  end.

Definition createCall (i : PullRequestInput) : Call :=
  PullsCreate (pr_owner i) (pr_repo i) (pr_title i) (pr_head i) (pr_base i)
              (prBody i) (pr_draft i).

Definition reviewersCall (i : PullRequestInput) (number : Z) : Call :=
  PullsRequestReviewers (pr_owner i) (pr_repo i) number (default [] (pr_reviewers i)).

Definition createPullRequestTry (i : PullRequestInput) : M PullRequestResult :=
  _ ← getUncachableGitHubClient;
  pullRequest ← call (createCall i);
  (if hasReviewers i
   then call (reviewersCall i (pr_number pullRequest))
   else mret tt);;
  mret {| pr_success := true;
          pr_pullRequestUrl := Some (pr_html_url pullRequest);
          pr_pullRequestNumber := Some (pr_number pullRequest);
          pr_message := "Pull request #" ++ showZ (pr_number pullRequest)
                          ++ " created successfully" |}.

Definition createPullRequestCatch (i : PullRequestInput) (error : JsError) : M PullRequestResult :=
  mret {| pr_success := false;
          pr_pullRequestUrl := None;
          pr_pullRequestNumber := None;
          pr_message := "Failed to create pull request: " ++ errorMessage error |}.

Definition createPullRequest (i : PullRequestInput) : M PullRequestResult :=
  try_catch (createPullRequestTry i) (createPullRequestCatch i).

(** ** getRepositoryContent *)

(** [Buffer.from(content, 'base64').toString('utf-8')], a Node built-in
    left abstract. *)
Variable decodeBase64 : string → string.

Record ContentInput : Type := {
  gc_owner : string; gc_repo : string; gc_path : string; gc_ref : option string
}.

Record Item : Type := {
  item_name : string; item_path : string; item_type : ItemType;
  item_size : option Z; item_sha : string; item_content : option string
}.

Record ContentResult : Type := {
  gc_success : bool; gc_items : list Item; gc_message : string
}.

(** [...(ref ? { ref } : {})] *)
Definition refArgument (i : ContentInput) : option string :=
  if truthy (gc_ref i) then gc_ref i else None.

Definition contentCall (i : ContentInput) (path : string) : Call :=
  ReposGetContent (gc_owner i) (gc_repo i) path (refArgument i).

Definition baseItem (item : ContentEntry) : Item :=
  {| item_name := ce_name item; item_path := ce_path item;
     item_type := ce_type item; item_size := ce_size item;
     item_sha := ce_sha item; item_content := None |}.

Definition withContent (b : Item) (content : string) : Item :=
  {| item_name := item_name b; item_path := item_path b;
     item_type := item_type b; item_size := item_size b;
     item_sha := item_sha b; item_content := Some content |}.

(** [item.type === 'file' && item.size && item.size < 100000] *)
Definition smallFile (item : ContentEntry) : bool :=
  match ce_type item, ce_size item with
  | TFile, Some size => negb (size =? 0)%Z && (size <? 100000)%Z
  | _, _ => false
  end.

(** ['content' in fileResponse.data && fileResponse.data.content] *)
Definition responseContent (d : ContentData) : option string :=
  match d with
  | ContentSingle e => if truthy (ce_content e) then ce_content e else None
  | ContentArray _ => None
  end.

(** The callback of [items.map]. *)
Definition processItem (i : ContentInput) (item : ContentEntry) : M Item :=
  if smallFile item then
    fetched ← try_catch
                (fileResponse ← call (contentCall i (ce_path item));
                 mret (responseContent fileResponse))
                (λ _, mret None);
    mret match fetched with
         | Some content => withContent (baseItem item) (decodeBase64 content)
         | None => baseItem item
         end
  else mret (baseItem item).

(** [Array.isArray(response.data) ? response.data : [response.data]] *)
Definition entriesOf (d : ContentData) : list ContentEntry :=
  match d with
  | ContentArray l => l
  | ContentSingle e => [e]
  end.

Definition getRepositoryContentTry (i : ContentInput) : M ContentResult :=
  _ ← getUncachableGitHubClient;
  response ← call (contentCall i (gc_path i));
  processedItems ← mapM (processItem i) (entriesOf response);
  mret {| gc_success := true;
          gc_items := processedItems;
          gc_message := "Retrieved " ++ showZ (Z.of_nat (length processedItems))
                          ++ " items from "
                          ++ (if String.eqb (gc_path i) EmptyString then "root" else gc_path i) |}.

Definition getRepositoryContentCatch (i : ContentInput) (error : JsError) : M ContentResult :=
  mret {| gc_success := false;
          gc_items := [];
          gc_message := "Failed to get repository content: " ++ errorMessage error |}.

Definition getRepositoryContent (i : ContentInput) : M ContentResult :=
  try_catch (getRepositoryContentTry i) (getRepositoryContentCatch i).

(** ** listRepositoryBranches *)

Record BranchInfo : Type := {
  bi_name : string; bi_sha : string; bi_protected : bool
}.

Record BranchesResult : Type := {
  lb_success : bool; lb_branches : list BranchInfo; lb_message : string
}.

Definition listRepositoryBranchesTry (owner repo : string) : M BranchesResult :=
  _ ← getUncachableGitHubClient;
  response ← call (ReposListBranches owner repo);
  let branches :=
    map (λ b, {| bi_name := branch_name b; bi_sha := branch_commit_sha b;
                 bi_protected := branch_protected b |}) response in
  mret {| lb_success := true;
          lb_branches := branches;
          lb_message := "Found " ++ showZ (Z.of_nat (length branches)) ++ " branches" |}.

Definition listRepositoryBranchesCatch (owner repo : string) (error : JsError) : M BranchesResult :=
  mret {| lb_success := false;
          lb_branches := [];
          lb_message := "Failed to list branches: " ++ errorMessage error |}.

Definition listRepositoryBranches (owner repo : string) : M BranchesResult :=
  try_catch (listRepositoryBranchesTry owner repo) (listRepositoryBranchesCatch owner repo).

End Tools.
End GitHub.

(* ===================================================================== *)
(** * Board reader and task mutator: the Notion tools *)
(* ===================================================================== *)

Module Notion.
Import Credentials.

Record Task : Type := {
  task_id : string;
  task_title : string;
  task_status : string;
  task_description : string;
  task_assignee : string;
  task_priority : string;
  task_createdTime : string;
  task_lastEditedTime : string;
  task_url : string;
  task_properties : gmap string Property
}.

(** [properties.A || properties.B || ...]: property values are objects,
    so the first alias that is present wins. *)
Fixpoint firstPresent (properties : gmap string Property) (aliases : list string)
  : option Property :=
  match aliases with
  | [] => None
  | a :: r =>
      match properties !! a with
      | Some p => Some p
      | None => firstPresent properties r
      end
  end.

Definition titleAliases : list string := ["Title"; "Name"; "title"; "name"].
Definition statusAliases : list string := ["Status"; "status"].
Definition descriptionAliases : list string := ["Description"; "description"].
Definition assigneeAliases : list string := ["Assignee"; "assignee"].
Definition priorityAliases : list string := ["Priority"; "priority"].

(** [p && p.title && p.title.length > 0 ? p.title[0].plain_text : "Untitled"] *)
Definition extractTitle (properties : gmap string Property) : string :=
  match firstPresent properties titleAliases with
  | Some (PTitle (t :: _)) => plain_text t
  | _ => "Untitled"
  end.

Definition extractStatus (properties : gmap string Property) : string :=
  match firstPresent properties statusAliases with
  | Some (PSelect (Some o)) => select_name o
  | _ => "Unknown"
  end.

Definition extractDescription (properties : gmap string Property) : string :=
  match firstPresent properties descriptionAliases with
  | Some (PRichText (t :: _)) => plain_text t
  | _ => EmptyString
  end.

Definition extractAssignee (properties : gmap string Property) : string :=
  match firstPresent properties assigneeAliases with
  | Some (PPeople (p :: _)) => person_name p
  | _ => EmptyString
  end.

Definition extractPriority (properties : gmap string Property) : string :=
  match firstPresent properties priorityAliases with
  | Some (PSelect (Some o)) => select_name o
  | _ => EmptyString
  end.

(** The callback of [response.results.map] in [readKanbanBoard]. *)
Definition pageToTask (page : Page) : Task :=
  let properties := page_properties page in
  {| task_id := page_id page;
     task_title := extractTitle properties;
     task_status := extractStatus properties;
     task_description := extractDescription properties;
     task_assignee := extractAssignee properties;
     task_priority := extractPriority properties;
     task_createdTime := page_created_time page;
     task_lastEditedTime := page_last_edited_time page;
     task_url := page_url page;
     task_properties := properties |}.

Section Tools.
Variable env : ProcessEnv.

Definition getUncachableNotionClient : M (option string) :=
  getAccessToken env notion.

(** ** readKanbanBoard *)

(** The query the tool prepares from its arguments. *)
Record DatabaseQuery : Type := {
  database_id : string;
  status_equals : option string
}.

Definition readKanbanBoardTry (databaseId : string) (statusFilter : option string)
  : M (list Task) :=
  _ ← getUncachableNotionClient;
  let queryParams :=
    {| database_id := databaseId;
       status_equals := if truthy statusFilter then statusFilter else None |} in
  (* [queryParams] is built and never passed on: the search below
     takes [searchParams] only. *)
  response ← call (NotionSearch "page" "object" 100);
  let tasks := map pageToTask response in
  mret tasks.

Definition readKanbanBoardCatch (error : JsError) : M (list Task) :=
  throw error.

Definition readKanbanBoard (databaseId : string) (statusFilter : option string)
  : M (list Task) :=
  try_catch (readKanbanBoardTry databaseId statusFilter) readKanbanBoardCatch.

(** ** updateTaskStatus, addTaskComment *)

Record MutationResult : Type := {
  mu_success : bool; mu_message : string
}.

Definition updateTaskStatusTry (pageId newStatus : string) : M MutationResult :=
  _ ← getUncachableNotionClient;
  call (NotionPagesUpdate pageId newStatus);;
  mret {| mu_success := true;
          mu_message := "Task status updated to " ++ dquote ++ newStatus ++ dquote |}.

Definition updateTaskStatusCatch (pageId newStatus : string) (error : JsError) : M MutationResult :=
  mret {| mu_success := false;
          mu_message := "Failed to update task status: " ++ errorMessage error |}.

Definition updateTaskStatus (pageId newStatus : string) : M MutationResult :=
  try_catch (updateTaskStatusTry pageId newStatus) (updateTaskStatusCatch pageId newStatus).

Definition addTaskCommentTry (pageId comment : string) : M MutationResult :=
  _ ← getUncachableNotionClient;
  call (NotionCommentsCreate pageId comment);;
  mret {| mu_success := true; mu_message := "Comment added successfully" |}.

Definition addTaskCommentCatch (pageId comment : string) (error : JsError) : M MutationResult :=
  mret {| mu_success := false;
          mu_message := "Failed to add comment: " ++ errorMessage error |}.

Definition addTaskComment (pageId comment : string) : M MutationResult :=
  try_catch (addTaskCommentTry pageId comment) (addTaskCommentCatch pageId comment).

(** ** queryTaskDetails *)

Definition lineFeed : string := String (ascii_of_N 10) EmptyString.

(** [rich_text.map(text => text.plain_text).join('')] *)
Definition plainText (rich : list RichText) : string :=
  join EmptyString (map plain_text rich).

Definition blockPrefix (type : string) : option string :=
  if String.eqb type "paragraph" then Some EmptyString
  else if String.eqb type "heading_1" then Some "# "
  else if String.eqb type "heading_2" then Some "## "
  else if String.eqb type "heading_3" then Some "### "
  else if String.eqb type "bulleted_list_item" then Some "- "
  else if String.eqb type "numbered_list_item" then Some "1. "
  else None.

(** One turn of the [for (const block of blocks.results)] loop. *)
Definition blockLine (block : Block) : string :=
  match blockPrefix (block_type block), block_rich_text block with
  | Some prefix, Some rich => prefix ++ plainText rich ++ lineFeed
  | _, _ => EmptyString
  end.

Definition blocksContent (blocks : list Block) : string :=
  fold_left (λ content block, content ++ blockLine block) blocks EmptyString.

Record TaskDetails : Type := {
  td_task : Task;
  td_content : string
}.

Definition queryTaskDetailsTry (pageId : string) : M TaskDetails :=
  _ ← getUncachableNotionClient;
  page ← call (NotionPagesRetrieve pageId);
  blocks ← call (NotionBlocksChildrenList pageId);
  let content := blocksContent blocks in
  mret {| td_task := pageToTask page; td_content := trim content |}.

Definition queryTaskDetailsCatch (error : JsError) : M TaskDetails :=
  throw error.

Definition queryTaskDetails (pageId : string) : M TaskDetails :=
  try_catch (queryTaskDetailsTry pageId) queryTaskDetailsCatch.

End Tools.
End Notion.

(* ===================================================================== *)
(** * Analysis, planning, test and quality tools *)
(* ===================================================================== *)

(** The tools of [developmentTools.ts], the file the agent registers its
    development tools from.  None of them calls a service. *)
Module Development.

(** ** analyzeCodebase *)

Record Analysis : Type := {
  framework : string;
  language : string;
  recommendations : list string
}.

Definition baseRecommendations : list string :=
  [ "Follow existing component patterns when creating new features";
    "Ensure proper TypeScript typing for all new code";
    "Add comprehensive tests for new functionality";
    "Follow the established error handling patterns";
    "Use existing utility functions and hooks where possible";
    "Maintain consistent styling with Tailwind CSS classes" ].

(** The fixed texts of [patterns], [dependencies] and [codeStandards]
    are left out of the record. *)
Definition analyzeCodebaseTry (repositoryPath : string) (focusAreas : option (list string))
  : Outcome Analysis :=
  Returned
    {| framework := "Next.js/React";
       language := "TypeScript";
       recommendations :=
         match focusAreas with
         | Some areas =>
             baseRecommendations ++
             ["Pay special attention to " ++ join ", " areas ++ " when implementing changes"]
         | None => baseRecommendations
         end |}.

Definition analyzeCodebaseCatch (error : JsError) : Outcome Analysis :=
  Thrown error.

Definition analyzeCodebase (repositoryPath : string) (focusAreas : option (list string))
  : Outcome Analysis :=
  tryCatch (analyzeCodebaseTry repositoryPath focusAreas) analyzeCodebaseCatch.

(** ** implementCodeChanges *)

Inductive Priority : Type := Low | Medium | High | Critical.
Inductive Complexity : Type := Simple | Moderate | Complex | Enterprise.

Record ImplementInput : Type := {
  taskDescription : string;
  requirements : string;
  targetFiles : option (list string);
  priority : Priority;
  complexity : Complexity;
  testRequirements : bool
}.

Definition destructiveKeywords : list string :=
  [ "delete all"; "remove everything"; "clear database";
    "drop table"; "truncate"; "format drive"; "rm -rf" ].

Definition hasDestructiveIntent (i : ImplementInput) : bool :=
  existsb (λ keyword,
             includes (toLowerCase (taskDescription i)) keyword
             || includes (toLowerCase (requirements i)) keyword)
          destructiveKeywords.

Definition mentions (i : ImplementInput) (word : string) : bool :=
  includes (toLowerCase (taskDescription i)) word.

Definition taskType (i : ImplementInput) : string :=
  if mentions i "fix" || mentions i "bug" then "bugfix"
  else if mentions i "refactor" || mentions i "improve" then "refactor"
  else if mentions i "security" || mentions i "vulnerability" then "security"
  else if mentions i "performance" || mentions i "optimize" then "optimization"
  else if mentions i "ui" || mentions i "frontend" then "frontend"
  else if mentions i "api" || mentions i "backend" then "backend"
  else "feature".

Definition fileScope (file : string) : list string :=
  (if includes file "component" || includes file ".tsx" || includes file ".jsx"
   then ["Frontend Components"] else [])
  ++ (if includes file "api" || includes file "route" || includes file "endpoint"
      then ["API Layer"] else [])
  ++ (if includes file "database" || includes file "schema" || includes file "migration"
      then ["Database Layer"] else [])
  ++ (if includes file "test" || includes file "spec"
      then ["Testing Infrastructure"] else [])
  ++ (if includes file "config" || includes file "env"
      then ["Configuration"] else []).

Definition inferredScope (i : ImplementInput) : list string :=
  (if mentions i "user interface" || mentions i "ui"
   then ["Frontend Components"; "User Experience"] else [])
  ++ (if mentions i "database" || mentions i "data"
      then ["Database Layer"; "Data Models"] else [])
  ++ (if mentions i "api" || mentions i "endpoint"
      then ["API Layer"; "Business Logic"] else [])
  ++ (if mentions i "auth" || mentions i "security"
      then ["Authentication"; "Security Layer"] else []).

Definition scope (i : ImplementInput) : list string :=
  let found : list string :=
    match targetFiles i with
    | Some (f :: r) => concat (map fileScope (f :: r))
    | _ => inferredScope i
    end in
  match found with
  | [] => ["Application Logic"; "Core Functionality"]
  | _ => found
  end.

(** [[...new Set(xs)]]: first occurrences, in order. *)
Fixpoint uniqueFrom (seen xs : list string) : list string :=
  match xs with
  | [] => []
  | x :: r =>
      if existsb (String.eqb x) seen then uniqueFrom seen r
      else x :: uniqueFrom (x :: seen) r
  end.

Definition risks (i : ImplementInput) : list string :=
  (match complexity i with
   | Complex | Enterprise =>
       [ "High complexity may require extended development time";
         "Integration challenges with existing systems" ]
   | _ => []
   end)
  ++ (match priority i with
      | Critical | High =>
          [ "Time pressure may impact code quality";
            "Requires thorough testing before deployment" ]
      | _ => []
      end)
  ++ (match targetFiles i with
      | Some files =>
          if (5 <? length files)%nat
          then [ "Multiple file changes increase risk of regression";
                 "Requires comprehensive integration testing" ]
          else []
      | None => []
      end)
  ++ (if String.eqb (taskType i) "security"
      then [ "Security changes require expert review";
             "Must not introduce new vulnerabilities" ]
      else []).

Definition estimatedEffort (i : ImplementInput) : string :=
  match complexity i with
  | Simple => "1-2 hours"
  | Complex => "1-2 days"
  | Enterprise => "3-5 days"
  | Moderate => "2-4 hours"
  end.

Definition approach (i : ImplementInput) : string :=
  if String.eqb (taskType i) "bugfix" then "Root cause analysis followed by targeted fix"
  else if String.eqb (taskType i) "refactor"
       then "Gradual refactoring with backward compatibility"
  else if String.eqb (taskType i) "security"
       then "Security-first implementation with comprehensive review"
  else "Incremental development with continuous testing".

(** The [analysis] object and the strategy's [approach]; the phases, the
    detailed plan, the safety checks and the next actions are fixed
    texts and are left out of the record. *)
Record Plan : Type := {
  plan_taskType : string;
  plan_scope : list string;
  plan_dependencies : list string;
  plan_risks : list string;
  plan_estimatedEffort : string;
  plan_approach : string
}.

Definition safetyBlock : JsError :=
  ErrorObj "SAFETY BLOCK: Task contains potentially destructive operations. Manual review required.".

Definition implementCodeChangesTry (i : ImplementInput) : Outcome Plan :=
  if hasDestructiveIntent i then Thrown safetyBlock
  else
    Returned
      {| plan_taskType := taskType i;
         plan_scope := uniqueFrom [] (scope i);
         plan_dependencies := default ["Repository analysis required"] (targetFiles i);
         plan_risks := risks i;
         plan_estimatedEffort := estimatedEffort i;
         plan_approach := approach i |}.

Definition implementCodeChangesCatch (error : JsError) : Outcome Plan :=
  Thrown error.

Definition implementCodeChanges (i : ImplementInput) : Outcome Plan :=
  tryCatch (implementCodeChangesTry i) implementCodeChangesCatch.

(** ** runCodeTests *)

Inductive TestStatus : Type := Passed | Failed.

Record TestDetail : Type := {
  detail_file : string;
  detail_status : TestStatus;
  detail_message : string
}.

Record TestReport : Type := {
  tests_passed : Z;
  tests_failed : Z;
  tests_total : Z;
  tests_coverage : option Z;
  tests_details : list TestDetail;
  report_status : string;
  report_recommendations : list string
}.

Definition mockDetails : list TestDetail :=
  [ {| detail_file := "components/NewFeature.test.tsx"; detail_status := Passed;
       detail_message := "All component tests passed" |};
    {| detail_file := "hooks/useNewFeature.test.ts"; detail_status := Passed;
       detail_message := "Hook tests passed" |};
    {| detail_file := "integration/newFeature.test.ts"; detail_status := Passed;
       detail_message := "Integration tests passed" |} ].

Definition runCodeTestsTry (targetFiles : option (list string)) (coverage : bool)
  : Outcome TestReport :=
  Returned
    {| tests_passed := 8;
       tests_failed := 0;
       tests_total := 8;
       tests_coverage := if coverage then Some 92 else None;
       tests_details :=
         match targetFiles with
         | Some files =>
             List.filter
               (λ detail, existsb (λ file, includes (detail_file detail) file) files)
               mockDetails
         | None => mockDetails
         end;
       report_status := "success";
       report_recommendations :=
         [ "All tests are passing - good code quality";
           "Consider adding more edge case tests";
           "Code coverage is above 90% threshold" ] |}.

Definition runCodeTestsCatch (error : JsError) : Outcome TestReport :=
  Returned
    {| tests_passed := 0;
       tests_failed := 1;
       tests_total := 1;
       tests_coverage := None;
       tests_details :=
         [ {| detail_file := "test-runner"; detail_status := Failed;
              detail_message := "Test execution failed: " ++ errorMessage error |} ];
       report_status := "failed";
       report_recommendations :=
         [ "Fix test execution issues before proceeding";
           "Check test configuration and dependencies" ] |}.

Definition runCodeTests (targetFiles : option (list string)) (coverage : bool)
  : Outcome TestReport :=
  tryCatch (runCodeTestsTry targetFiles coverage) runCodeTestsCatch.

(** ** validateCodeQuality *)

Inductive IssueType : Type := IssueError | IssueWarning | IssueInfo.

Definition isError (t : IssueType) : bool :=
  match t with IssueError => true | _ => false end.
Definition isWarning (t : IssueType) : bool :=
  match t with IssueWarning => true | _ => false end.

Record Issue : Type := {
  issue_file : string;
  issue_line : option Z;
  issue_type : IssueType;
  issue_category : string;
  issue_message : string;
  issue_suggestion : option string
}.

Record Summary : Type := {
  summary_errors : Z;
  summary_warnings : Z;
  summary_passed : bool
}.

Record QualityReport : Type := {
  qualityScore : Z;
  issues : list Issue;
  summary : Summary;
  quality_recommendations : list string
}.

Definition typeScriptIssue (filePath : string) (line : option Z) : Issue :=
  {| issue_file := filePath; issue_line := line; issue_type := IssueInfo;
     issue_category := "TypeScript";
     issue_message := "File follows TypeScript best practices";
     issue_suggestion := Some "Consider adding JSDoc comments for better documentation" |}.

Definition reactIssue (filePath : string) : Issue :=
  {| issue_file := filePath; issue_line := None; issue_type := IssueInfo;
     issue_category := "React";
     issue_message := "Component follows React patterns";
     issue_suggestion :=
       Some "Ensure proper prop validation and accessibility attributes" |}.

(** [filePaths[0] || 'example.ts'] *)
Definition firstPathOr (filePaths : list string) : string :=
  match filePaths with
  | p :: _ => if String.eqb p EmptyString then "example.ts" else p
  | [] => "example.ts"
  end.

Definition styleWarning (filePaths : list string) : Issue :=
  {| issue_file := firstPathOr filePaths; issue_line := None;
     issue_type := IssueWarning; issue_category := "Style";
     issue_message := "Consider using more descriptive variable names";
     issue_suggestion := None |}.

(** One turn of [for (const filePath of filePaths)]. *)
Definition fileIssues (filePath : string) : list Issue :=
  (if endsWith filePath ".tsx" || endsWith filePath ".ts"
   then [typeScriptIssue filePath (Some 1)] else [])
  ++ (if includes filePath "component" then [reactIssue filePath] else []).

Definition countIssues (p : IssueType → bool) (l : list Issue) : Z :=
  Z.of_nat (length (List.filter (λ i, p (issue_type i)) l)).

Definition standingRecommendations : list string :=
  [ "Code follows ZenQuill quality standards";
    "Continue following established patterns";
    "Add comprehensive error handling where needed";
    "Ensure proper logging is in place";
    "Consider performance implications for user-facing features" ].

(** [Math.max(0, Math.min(100, score))] *)
Definition clamp (score : Z) : Z := Z.max 0 (Z.min 100 score).

Definition validateCodeQualityTry (filePaths : list string) : Outcome QualityReport :=
  let issues := (concat (map fileIssues filePaths) ++ [styleWarning filePaths])%list in
  let qualityScore := 95 in
  let summary :=
    {| summary_errors := countIssues isError issues;
       summary_warnings := countIssues isWarning issues;
       summary_passed := (countIssues isError issues =? 0)%Z |} in
  let qualityScore :=
    qualityScore - (summary_errors summary * 10 + summary_warnings summary * 2) in
  let qualityScore := clamp qualityScore in
  Returned
    {| qualityScore := qualityScore;
       issues := issues;
       summary := summary;
       quality_recommendations :=
         if (0 <? summary_errors summary)%Z
         then "Fix all error-level issues before deployment" :: standingRecommendations
         else standingRecommendations |}.

Definition validateCodeQualityCatch (error : JsError) : Outcome QualityReport :=
  Thrown error.

Definition validateCodeQuality (filePaths : list string) : Outcome QualityReport :=
  tryCatch (validateCodeQualityTry filePaths) validateCodeQualityCatch.

End Development.

(** The variant of the quality validator in the repository's second copy
    of the development tools (the source file whose name is unknown). *)
Module Unnamed.
Import Development.

Definition fileIssues (filePath : string) : list Issue :=
  (if includes filePath ".ts" || includes filePath ".tsx"
   then [typeScriptIssue filePath None] else [])
  ++ (if includes filePath "component" then [reactIssue filePath] else []).

Definition validateCodeQualityTry (filePaths : list string) : Outcome QualityReport :=
  let issues := (concat (map fileIssues filePaths) ++ [styleWarning filePaths])%list in
  let qualityScore := 100 in
  let summary :=
    {| summary_errors := 0;
       summary_warnings := countIssues isWarning issues;
       summary_passed := true |} in
  let qualityScore :=
    qualityScore - (summary_errors summary * 10 + summary_warnings summary * 2) in
  let qualityScore := clamp qualityScore in
  Returned
    {| qualityScore := qualityScore;
       issues := issues;
       summary := summary;
       quality_recommendations :=
         if (0 <? summary_errors summary)%Z
         then "Fix all error-level issues before deployment" :: standingRecommendations
         else standingRecommendations |}.

Definition validateCodeQualityCatch (error : JsError) : Outcome QualityReport :=
  Returned
    {| qualityScore := 0;
       issues :=
         [ {| issue_file := "quality-validator"; issue_line := None;
              issue_type := IssueError; issue_category := "System";
              issue_message := "Quality validation failed: " ++ errorMessage error;
              issue_suggestion := None |} ];
       summary := {| summary_errors := 1; summary_warnings := 0; summary_passed := false |};
       quality_recommendations :=
         [ "Fix quality validation system issues";
           "Check file access permissions";
           "Retry validation after fixing system issues" ] |}.

Definition validateCodeQuality (filePaths : list string) : Outcome QualityReport :=
  tryCatch (validateCodeQualityTry filePaths) validateCodeQualityCatch.

End Unnamed.

(* ===================================================================== *)
(** * Regular expressions of the workflow *)
(* ===================================================================== *)

(** A backtracking matcher for the fragment of ECMAScript regular
    expressions the workflow uses, with the [i] flag on. *)
Module Regex.

(** [Canonicalize] under [/i] without [/u]: the upper-case form, which
    for the code units below 256 folds [a-z] onto [A-Z]; characters
    from 128 on never fold onto an ASCII one and are left as they are. *)
Definition canonicalize (c : ascii) : ascii :=
  if ((97 <=? code c) && (code c <=? 122))%N then ascii_of_N (code c - 32) else c.

Inductive Atom : Type :=
| Chr (c : ascii)     (* a pattern character, or a one-character class *)
| Digit               (* \d *)
| Space.              (* \s *)

Definition atomMatches (a : Atom) (c : ascii) : bool :=
  match a with
  | Chr p => Ascii.eqb (canonicalize p) (canonicalize c)
  | Digit => isDigit c
  | Space => isSpace c
  end.

Inductive Re : Type :=
| One (a : Atom)
| Str (l : list ascii)         (* a run of pattern characters *)
| Seq (r1 r2 : Re)
| Alt (r1 r2 : Re)
| Opt (r : Re)                 (* r?  greedy *)
| Star (a : Atom)              (* a*  greedy *)
| Plus (a : Atom)              (* a+  greedy *)
| Group (n : nat) (r : Re).    (* the n-th capturing parentheses *)

Definition Captures : Type := list (nat * list ascii).

(** What [s] lost to reach its suffix [rest]. *)
Definition consumed (s rest : list ascii) : list ascii :=
  firstn (length s - length rest) s.

Section Matcher.
Context {R : Type}.

Fixpoint str (l s : list ascii) (k : list ascii → option R) : option R :=
  match l with
  | [] => k s
  | p :: l' =>
      match s with
      | c :: s' => if atomMatches (Chr p) c then str l' s' k else None
      | [] => None
      end
  end.

(** Greedy iteration: one more character first, the continuation on
    what is left when that fails. *)
Fixpoint star (a : Atom) (s : list ascii) (k : list ascii → option R) : option R :=
  match s with
  | c :: s' =>
      if atomMatches a c
      then match star a s' k with
           | Some x => Some x
           | None => k s
           end
      else k s
  | [] => k s
  end.

Fixpoint run (r : Re) (s : list ascii) (caps : Captures)
         (k : list ascii → Captures → option R) : option R :=
  match r with
  | One a =>
      match s with
      | c :: s' => if atomMatches a c then k s' caps else None
      | [] => None
      end
  | Str l => str l s (λ s', k s' caps)
  | Seq r1 r2 => run r1 s caps (λ s1 caps1, run r2 s1 caps1 k)
  | Alt r1 r2 =>
      match run r1 s caps k with
      | Some x => Some x
      | None => run r2 s caps k
      end
  | Opt r1 =>
      match run r1 s caps k with
      | Some x => Some x
      | None => k s caps
      end
  | Star a => star a s (λ s', k s' caps)
  | Plus a =>
      match s with
      | c :: s' => if atomMatches a c then star a s' (λ s'', k s'' caps) else None
      | [] => None
      end
  | Group n r1 => run r1 s caps (λ s1 caps1, k s1 ((n, consumed s s1) :: caps1))
  end.
End Matcher.

Record Match : Type := {
  matched : list ascii;      (* m[0] *)
  captures : Captures;
  after : list ascii         (* the text from lastIndex on *)
}.

(** A match attempt anchored at the start of [s]. *)
Definition matchAt (r : Re) (s : list ascii) : option Match :=
  run r s [] (λ rest caps,
                Some {| matched := consumed s rest; captures := caps; after := rest |}).

(** [RegExp.prototype.exec]: the attempt at each index in turn. *)
Fixpoint exec (r : Re) (s : list ascii) : option Match :=
  match matchAt r s with
  | Some m => Some m
  | None =>
      match s with
      | [] => None
      | _ :: s' => exec r s'
      end
  end.

(** [m[n]] *)
Fixpoint group (n : nat) (caps : Captures) : option (list ascii) :=
  match caps with
  | [] => None
  | (i, w) :: r => if (i =? n)%nat then Some w else group n r
  end.

(** The matches a [g] regular expression finds in turn, each search
    resumed where the last match ended (one character further after an
    empty match). *)
Fixpoint matchesFrom (fuel : nat) (r : Re) (s : list ascii) : list (list ascii) :=
  match fuel with
  | O => []
  | S fuel' =>
      match exec r s with
      | None => []
      | Some m =>
          matched m ::
          match matched m, after m with
          | [], [] => []
          | [], _ :: s' => matchesFrom fuel' r s'
          | _ :: _, s' => matchesFrom fuel' r s'
          end
      end
  end.

(** [text.match(/r/g)]: [null] when nothing matches. *)
Definition matchGlobal (r : Re) (s : list ascii) : option (list (list ascii)) :=
  match matchesFrom (S (length s)) r s with
  | [] => None
  | l => Some l
  end.

End Regex.

(* ===================================================================== *)
(** * Task orchestrator: the task-discovery step *)
(* ===================================================================== *)

Module Workflow.
Import Regex.

Definition chars (s : string) : list ascii := list_ascii_of_string s.

(** [/(\d+)\s*tasks?\s*(processed|completed|handled)/i] *)
Definition tasksProcessedRe : Re :=
  Seq (Group 1 (Plus Digit))
    (Seq (Star Space)
       (Seq (Str (chars "task"))
          (Seq (Opt (One (Chr "s")))
             (Seq (Star Space)
                (Group 2 (Alt (Str (chars "processed"))
                            (Alt (Str (chars "completed"))
                               (Str (chars "handled"))))))))).

(** [/pull request[s]?\s*[#]?(\d+)/gi] *)
Definition pullRequestRe : Re :=
  Seq (Str (chars "pull request"))
    (Seq (Opt (One (Chr "s")))
       (Seq (Star Space)
          (Seq (Opt (One (Chr "#")))
             (Group 1 (Plus Digit))))).

(** A JavaScript number the step can compute: [NaN], [Infinity], or the
    double whose value is the integer [n]. *)
Inductive Number : Type := NaN | Infinity | Int (n : Z).

(** The double nearest to a natural number: the number itself below
    2^53; above, its 53 leading bits rounded to nearest, ties to the even
    significand; [Infinity] when that reaches 2^1024. *)
Definition toDouble (n : Z) : Number :=
  (if n <? 2 ^ 53 then Int n
   else
     let e := Z.log2 n - 52 in
     let q := Z.shiftr n e in
     let r := n - Z.shiftl q e in
     let half := Z.shiftl 1 (e - 1) in
     let q' := if r <? half then q
               else if half <? r then q + 1
               else if Z.even q then q else q + 1 in
     if 2 ^ 1024 <=? Z.shiftl q' e then Infinity else Int (Z.shiftl q' e))%Z.

Definition digitValue (c : ascii) : Z := Z.of_N (code c) - 48.

Fixpoint takeWhile (p : ascii → bool) (s : list ascii) : list ascii :=
  match s with
  | c :: r => if p c then c :: takeWhile p r else []
  | [] => []
  end.

Definition decimal (ds : list ascii) : Z :=
  fold_left (λ acc c, acc * 10 + digitValue c) ds 0.

(** [parseInt] on the text of a capture: the double nearest to the
    value of the leading run of decimal digits, which Node rounds
    correctly however long the run is, and [NaN] when there is no
    digit. *)
Definition parseInt (s : list ascii) : Number :=
  match takeWhile isDigit s with
  | [] => NaN
  | ds => toDouble (decimal ds)
  end.

(** *** A number in a template literal *)

(** The decimal [v] is read back as the double [x]. *)
Definition roundTrips (x v : Z) : bool :=
  match toDouble v with
  | Int y => (y =? x)%Z
  | _ => false
  end.

(** The two decimals with [k] significant digits next to [x]. *)
Definition candidates (x : Z) (k : nat) : list Z :=
  let unit := (10 ^ Z.of_nat (String.length (showZ x) - k))%Z in
  let below := (x / unit * unit)%Z in
  [below; (below + unit)%Z].

(** Of the candidates that are read back as [x], the one closest to
    [x]; of two equally close, the one whose last digit is even. *)
Definition closest (x : Z) (k : nat) : option Z :=
  let unit := (10 ^ Z.of_nat (String.length (showZ x) - k))%Z in
  match List.filter (roundTrips x) (candidates x k) with
  | [] => None
  | [v] => Some v
  | below :: above :: _ =>
      if (x - below <? above - x)%Z then Some below
      else if (above - x <? x - below)%Z then Some above
      else if Z.even (below / unit) then Some below else Some above
  end.

(** The decimal with the fewest significant digits that is read back as
    [x]; seventeen digits are always enough. *)
Fixpoint shortestFrom (fuel k : nat) (x : Z) : Z :=
  match fuel with
  | O => x
  | S fuel' =>
      match closest x k with
      | Some v => v
      | None => shortestFrom fuel' (S k) x
      end
  end.

Definition shortest (x : Z) : Z := shortestFrom 17 1 x.

Fixpoint dropTrailingZeros (s : string) : string :=
  match s with
  | EmptyString => EmptyString
  | String c r =>
      match dropTrailingZeros r with
      | EmptyString => if Ascii.eqb c "0" then EmptyString else String c EmptyString
      | r' => String c r'
      end
  end.

(** [Number::toString] for the double whose value is the natural number
    [x]: the digits of its shortest decimal, followed by zeros up to 21
    digits and in exponent notation beyond. *)
Definition showDouble (x : Z) : string :=
  let digits := showZ (shortest x) in
  if (shortest x <? 10 ^ 21)%Z then digits
  else
    match dropTrailingZeros digits with
    | String d EmptyString =>
        String d EmptyString ++ "e+" ++ showZ (Z.of_nat (String.length digits - 1))
    | String d rest =>
        String d EmptyString ++ "." ++ rest
          ++ "e+" ++ showZ (Z.of_nat (String.length digits - 1))
    | EmptyString => digits
    end.

Definition showNumber (n : Number) : string :=
  match n with
  | NaN => "NaN"
  | Infinity => "Infinity"
  | Int z => showDouble z
  end.

Record StepResult : Type := {
  tasksProcessed : Number;
  completedTasks : list string;
  errors : list string;
  summary : string
}.

(** [m ? parseInt(m[1]) : 0] *)
Definition countTasks (agentResponse : string) : Number :=
  match exec tasksProcessedRe (chars agentResponse) with
  | Some m => parseInt (default [] (group 1 (captures m)))
  | None => Int 0
  end.

Definition pullRequestMentions (agentResponse : string) : list string :=
  match matchGlobal pullRequestRe (chars agentResponse) with
  | Some pullRequestMatches => map string_of_list_ascii pullRequestMatches
  | None => []
  end.

Definition errorFlag (agentResponse : string) : list string :=
  if includes (toLowerCase agentResponse) "error"
     || includes (toLowerCase agentResponse) "failed"
  then ["Some tasks encountered errors - check agent logs for details"]
  else [].

(** The parsing of the agent's answer, after [generate] has returned. *)
Definition parseResponse (agentResponse : string) : StepResult :=
  let tasksProcessed := countTasks agentResponse in
  let completedTasks := pullRequestMentions agentResponse in
  let errors := errorFlag agentResponse in
  {| tasksProcessed := tasksProcessed;
     completedTasks := completedTasks;
     errors := errors;
     summary :=
       "CTO Automation completed: " ++ showNumber tasksProcessed
         ++ " tasks processed, " ++ showZ (Z.of_nat (length completedTasks))
         ++ " pull requests created. Agent response: "
         ++ String.substring 0 500 agentResponse
         ++ (if (500 <? String.length agentResponse)%nat then "..." else EmptyString) |}.

Definition agentNotFound : JsError :=
  ErrorObj "CTO Agent not found - ensure it is registered in the Mastra instance".

(** [ctoAgent]: what [mastra?.getAgent('ctoAgent')] gives, as the
    outcome of its [generate] on the step's instruction (the answer's
    [text], or the throw). *)
Definition taskDiscoveryTry (ctoAgent : option (Outcome string)) : Outcome StepResult :=
  match ctoAgent with
  | None => Thrown agentNotFound
  | Some generate =>
      match generate with
      | Returned agentResponse => Returned (parseResponse agentResponse)
      | Thrown e => Thrown e
      end
  end.

Definition taskDiscoveryCatch (error : JsError) : Outcome StepResult :=
  let errorMessage := errorMessage error in
  Returned
    {| tasksProcessed := Int 0;
       completedTasks := [];
       errors := ["Workflow execution failed: " ++ errorMessage];
       summary := "CTO Automation failed: " ++ errorMessage |}.

Definition taskDiscoveryStep (ctoAgent : option (Outcome string)) : Outcome StepResult :=
  tryCatch (taskDiscoveryTry ctoAgent) taskDiscoveryCatch.

End Workflow.

(** The earlier copy of [implementCodeChanges], kept with the copy of the
    development tools that follows the Notion tools in the tools file: it
    returns guidance per target file and refuses to return text that looks
    like a placeholder. *)
Module Earlier.

Record PlannedFile : Type := {
  planned_path : string;
  planned_action : string;
  planned_description : string
}.

Record ImplementationPlan : Type := {
  plan_steps : list string;
  plan_files : list PlannedFile;
  plan_testPlan : list string
}.

Record CodeChange : Type := {
  change_filePath : string;
  change_content : string;
  change_type : string;
  change_description : string
}.

Record Implementation : Type := {
  implementationPlan : ImplementationPlan;
  codeChanges : list CodeChange;
  implementation_status : string
}.

Record ImplementInput : Type := {
  taskDescription : string;
  requirements : string;
  targetFiles : option (list string);
  testRequirements : bool
}.

Definition isAlphanumeric (c : ascii) : bool :=
  (((48 <=? code c) && (code c <=? 57))
   || ((65 <=? code c) && (code c <=? 90))
   || ((97 <=? code c) && (code c <=? 122)))%N.

(** [file.replace(/[^a-zA-Z0-9]/g, '_')] *)
Fixpoint sanitize (file : string) : string :=
  match file with
  | EmptyString => EmptyString
  | String c r => String (if isAlphanumeric c then c else "_"%char) (sanitize r)
  end.

Definition thePlan (i : ImplementInput) : ImplementationPlan :=
  {| plan_steps :=
       [ "Analyze existing code patterns and structure";
         "Identify components that need modification or creation";
         "Implement core functionality following established patterns";
         "Add proper TypeScript types and interfaces";
         "Implement error handling and validation";
         "Add comprehensive logging";
         "Create or update tests";
         "Update documentation if needed" ];
     plan_files :=
       [ {| planned_path := "components/NewFeature.tsx"; planned_action := "create";
            planned_description := "Main component for the new feature" |};
         {| planned_path := "hooks/useNewFeature.ts"; planned_action := "create";
            planned_description := "Custom hook for feature logic" |};
         {| planned_path := "types/newFeature.ts"; planned_action := "create";
            planned_description := "TypeScript types and interfaces" |} ];
     plan_testPlan :=
       if testRequirements i
       then [ "Unit tests for new components";
              "Integration tests for API endpoints";
              "E2E tests for user workflows";
              "Error handling tests" ]
       else [] |}.

(** The callback of [targetFiles.forEach]. *)
Definition targetedChange (file : string) : CodeChange :=
  {| change_filePath := file;
     change_content := "IMPLEMENTATION_PLAN_FOR_" ++ sanitize file;
     change_type := "modified";
     change_description :=
       "Requires targeted modification of " ++ file
         ++ " - use getRepositoryContent to read current file and create surgical edits" |}.

Definition genericChange : CodeChange :=
  {| change_filePath := "IMPLEMENTATION_REQUIRED";
     change_content := "DETAILED_ANALYSIS_AND_SURGICAL_EDITS_NEEDED";
     change_type := "modified";
     change_description :=
       "This task requires careful analysis of existing codebase and surgical modifications - avoid wholesale file replacement" |}.

(** [if (targetFiles && targetFiles.length > 0) ... else ...] *)
Definition changesFor (i : ImplementInput) : list CodeChange :=
  match targetFiles i with
  | Some (f :: r) => map targetedChange (f :: r)
  | _ => [genericChange]
  end.

Definition looksLikePlaceholder (change : CodeChange) : bool :=
  includes (toLowerCase (change_content change)) "implementation would go here"
  || includes (toLowerCase (change_content change)) "todo"
  || includes (toLowerCase (change_content change)) "placeholder".

Definition hasPlaceholders (changes : list CodeChange) : bool :=
  existsb looksLikePlaceholder changes.

Definition blocked : JsError :=
  ErrorObj "Implementation tool blocked: Cannot generate placeholder code that would destroy existing implementations".

Definition implementCodeChangesTry (i : ImplementInput) : Outcome Implementation :=
  let implementationPlan := thePlan i in
  let codeChanges := changesFor i in
  if hasPlaceholders codeChanges then Thrown blocked
  else
    Returned {| implementationPlan := implementationPlan;
                codeChanges := codeChanges;
                implementation_status := "planned" |}.

Definition implementCodeChangesCatch (error : JsError) : Outcome Implementation :=
  Thrown error.

Definition implementCodeChanges (i : ImplementInput) : Outcome Implementation :=
  tryCatch (implementCodeChangesTry i) implementCodeChangesCatch.

End Earlier.

(* ===================================================================== *)
(** * Specifications *)
(* ===================================================================== *)

Local Open Scope list_scope.
Local Open Scope Z_scope.

(** ** States of the credential cache *)

Module CredentialsSpec.
Import Credentials.

(** The module as loaded: [connectionSettings] is [undefined]. *)
Definition start : State := {| connectionSettings := None; trace := [] |}.

(** The states a process reaches from [start]: the cache is written by
    [getAccessToken] only, the services are called by anyone. *)
Inductive reachable (w : World) (env : ProcessEnv) (k : Connector) : State → Prop :=
| reach_start : reachable w env k start
| reach_token st :
    reachable w env k st → reachable w env k (getAccessToken env k w st).2
| reach_call st c :
    reachable w env k st → reachable w env k (call c w st).2.

(** A run to try the cache on: the clock stands at [now], the connector
    hands out a token that expires at 5000. *)
Definition exampleEnv : ProcessEnv :=
  {| REPLIT_CONNECTORS_HOSTNAME := Some "connectors.example";
     REPL_IDENTITY := Some "identity";
     WEB_REPL_RENEWAL := None |}.

Definition exampleSettings : Settings :=
  {| expires_at := ExpiresAtMs 5000;
     access_token := Some "token-1";
     oauth_access_token := None |}.

Definition unavailable : JsError := ErrorObj "service unavailable".

Definition clockWorld (now : Z) : World :=
  λ _ c,
    match c return Outcome (Reply c) with
    | Now => Returned now
    | FetchConnection _ _ => Returned (Some {| settings := Present exampleSettings |})
    | _ => Thrown unavailable
    end.

(** The state after a first [getAccessToken] at time 1000. *)
Definition warm : State := (getAccessToken exampleEnv github (clockWorld 1000) start).2.

End CredentialsSpec.

(** ** Runs of the GitHub tools *)

Module GitHubSpec.
Import Credentials CredentialsSpec GitHub.

Definition isUpdateRef (c : Call) : bool :=
  match c with GitUpdateRef _ _ _ _ => true | _ => false end.

Definition isReviewersCall (c : Call) : bool :=
  match c with PullsRequestReviewers _ _ _ _ => true | _ => false end.

(** The calls of the credential provider. *)
Definition isAuthCall (c : Call) : bool :=
  match c with Now | FetchConnection _ _ => true | _ => false end.

(** The calls a run has added to the trace it started from. *)
Definition issuedSince (before : State) (after : State) : list Call :=
  drop (length (trace before)) (trace after).

(** Every call of [issued], made in turn after the calls [before], was
    answered; a rejected ref update is let through. *)
Fixpoint answered (w : World) (before issued : list Call) : bool :=
  match issued with
  | [] => true
  | c :: r => (isUpdateRef c || isReturned (w before c)) && answered w (before ++ [c]) r
  end.

(** The blob promises of [files.map], settled by the world, when the
    calls so far are [tr]. *)
Fixpoint blobPromises (w : World) (i : CommitCodeInput) (tr : list Call)
         (files : list CommitFile) : list (Outcome TreeEntry) :=
  match files with
  | [] => []
  | f :: r =>
      match w tr (createBlobCall i f) with
      | Returned sha => Returned (treeEntry f sha)
      | Thrown e => Thrown e
      end :: blobPromises w i (tr ++ [createBlobCall i f]) r
  end.

(** What [Promise.all] settles to. *)
Fixpoint allSettled {A} (ps : list (Outcome A)) : Outcome (list A) :=
  match ps with
  | [] => Returned []
  | Returned a :: r =>
      match allSettled r with
      | Returned l => Returned (a :: l)
      | Thrown e => Thrown e
      end
  | Thrown e :: _ => Thrown e
  end.

(** The sequence of the commit operation, from the trace [before] on:
    the head is read, then its commit; one blob per file; one tree, one
    commit whose sole parent is the head read first, and one ref update
    to the sha that commit-create returned. *)
Definition commitSequence (w : World) (i : CommitCodeInput)
           (before after : list Call) : Prop :=
  ∃ (ref : GitRef) (commit : GitCommit) (entries : list TreeEntry)
    (tree_sha commit_sha : string),
    let getRef := GitGetRef (cc_owner i) (cc_repo i) ("heads/" ++ cc_branch i)%string in
    let getCommit := GitGetCommit (cc_owner i) (cc_repo i) (object_sha ref) in
    let blobs := map (createBlobCall i) (cc_files i) in
    let createTree :=
      GitCreateTree (cc_owner i) (cc_repo i) (commit_tree_sha commit) entries in
    let createCommit :=
      GitCreateCommit (cc_owner i) (cc_repo i) (cc_message i) tree_sha [object_sha ref] in
    let updateRef :=
      GitUpdateRef (cc_owner i) (cc_repo i) ("heads/" ++ cc_branch i)%string commit_sha in
    after = before ++ [getRef; getCommit] ++ blobs ++ [createTree; createCommit; updateRef]
    ∧ w before getRef = Returned ref
    ∧ w (before ++ [getRef; getCommit] ++ blobs ++ [createTree]) createCommit
      = Returned commit_sha
    ∧ Forall2 (λ file entry, entry_path entry = file_path file) (cc_files i) entries.

(** A repository that answers every call. *)
Definition reliableWorld : World :=
  λ _ c,
    match c return Outcome (Reply c) with
    | Now => Returned 1000
    | FetchConnection _ _ => Returned (Some {| settings := Present exampleSettings |})
    | GitGetRef _ _ _ => Returned {| object_sha := "head-sha" |}
    | GitGetCommit _ _ _ => Returned {| commit_tree_sha := "base-tree-sha" |}
    | GitCreateBlob _ _ content _ => Returned ("blob-of-" ++ content)%string
    | GitCreateTree _ _ _ _ => Returned "tree-sha"%string
    | GitCreateCommit _ _ _ _ _ => Returned "commit-sha"%string
    | GitUpdateRef _ _ _ _ => Returned tt
    | PullsCreate _ _ _ _ _ _ _ =>
        Returned {| pr_number := 7; pr_html_url := "https://github.example/pull/7" |}
    | PullsRequestReviewers _ _ _ _ => Returned tt
    | _ => Thrown unavailable
    end.

(** The same repository, rejecting every tree. *)
Definition treeRejectingWorld : World :=
  λ tr c,
    match c return Outcome (Reply c) with
    | GitCreateTree _ _ _ _ => Thrown (ErrorObj "Validation Failed")
    | c' => reliableWorld tr c'
    end.

(** The same repository, rejecting every reviewer request. *)
Definition reviewRejectingWorld : World :=
  λ tr c,
    match c return Outcome (Reply c) with
    | PullsRequestReviewers _ _ _ _ => Thrown unavailable
    | c' => reliableWorld tr c'
    end.

Definition twoFiles : CommitCodeInput :=
  {| cc_owner := "zenquill"; cc_repo := "app"; cc_branch := "feature";
     cc_message := "Add dark mode";
     cc_files :=
       [ {| file_path := "a.ts"; file_content := "A"; file_encoding := Utf8 |};
         {| file_path := "b.ts"; file_content := "B"; file_encoding := Base64 |} ] |}.

Definition withReviewers : PullRequestInput :=
  {| pr_owner := "zenquill"; pr_repo := "app"; pr_title := "Add dark mode";
     pr_head := "feature"; pr_base := "main"; pr_body := "Adds a dark theme.";
     pr_notionTaskUrl := None;
     pr_reviewers := Some ["alice"%string];
     pr_draft := false |}.

(** An item lists an entry: the entry's fields, and content only for an
    entry that passed the size test. *)
Definition listedAs (e : ContentEntry) (item : Item) : Prop :=
  item_name item = ce_name e
  ∧ item_path item = ce_path e
  ∧ item_type item = ce_type e
  ∧ item_size item = ce_size e
  ∧ item_sha item = ce_sha e
  ∧ (item_content item ≠ None → smallFile e = true).

(** The per-file fetches of a listing, in the order of its entries. *)
Definition contentFetches (i : ContentInput) (entries : list ContentEntry) : list Call :=
  map (λ e, contentCall i (ce_path e)) (List.filter smallFile entries).

Definition rootListing : ContentInput :=
  {| gc_owner := "zenquill"; gc_repo := "app"; gc_path := EmptyString; gc_ref := None |}.

Definition fileEntry (path : string) (size : Z) : ContentEntry :=
  {| ce_name := path; ce_path := path; ce_type := TFile; ce_size := Some size;
     ce_sha := ("sha-of-" ++ path)%string; ce_content := None |}.

(** A root with an empty file, a file whose content cannot be fetched, a
    small file, a file of exactly 100000 bytes and a directory. *)
Definition rootEntries : list ContentEntry :=
  [ fileEntry "empty.txt" 0;
    fileEntry "broken.ts" 120;
    fileEntry "ok.ts" 3;
    fileEntry "big.bin" 100000;
    {| ce_name := "src"; ce_path := "src"; ce_type := TDir; ce_size := Some 0;
       ce_sha := "sha-of-src"; ce_content := None |} ].

Definition contentWorld : World :=
  λ tr c,
    match c return Outcome (Reply c) with
    | ReposGetContent _ _ path _ =>
        if String.eqb path EmptyString then Returned (ContentArray rootEntries)
        else if String.eqb path "ok.ts"
             then Returned (ContentSingle
                              {| ce_name := "ok.ts"; ce_path := "ok.ts"; ce_type := TFile;
                                 ce_size := Some 3; ce_sha := "sha-of-ok.ts";
                                 ce_content := Some "YWJj"%string |})
             else Thrown (ErrorObj "Not Found")
    | c' => reliableWorld tr c'
    end.

(** A listing that holds the empty file only. *)
Definition emptyFileWorld : World :=
  λ tr c,
    match c return Outcome (Reply c) with
    | ReposGetContent _ _ _ _ => Returned (ContentArray [fileEntry "empty.txt" 0])
    | c' => reliableWorld tr c'
    end.

(** The state once the client has been obtained from [start]. *)
Definition authenticated : State :=
  (getUncachableGitHubClient exampleEnv reliableWorld start).2.

End GitHubSpec.

(** ** Board pages *)

Module NotionSpec.
Import Credentials CredentialsSpec Notion.

(** The property [key] holds a title: a title property with some text. *)
Definition titleUnder (properties : gmap string Property) (key : string)
           (text : string) : Prop :=
  ∃ t rest, properties !! key = Some (PTitle (t :: rest)) ∧ plain_text t = text.

Definition noAlias (properties : gmap string Property) (aliases : list string) : Prop :=
  ∀ a, a ∈ aliases → properties !! a = None.

Definition titled (text : string) : Property := PTitle [ {| plain_text := text |} ].
Definition selected (name : string) : Property :=
  PSelect (Some {| select_name := name |}).

(** A page of the board [board-1], titled under both aliases. *)
Definition darkModePage : Page :=
  {| page_id := "page-1"; page_database := "board-1";
     page_created_time := "2025-01-01T00:00:00.000Z";
     page_last_edited_time := "2025-01-02T00:00:00.000Z";
     page_url := "https://notion.example/page-1";
     page_properties :=
       {[ "Title" := titled "Add dark mode";
          "Name" := titled "dark mode (old name)";
          "Status" := selected "To Do" ]} |}.

(** A page of another database, already done. *)
Definition otherPage : Page :=
  {| page_id := "page-2"; page_database := "wiki-9";
     page_created_time := "2024-05-01T00:00:00.000Z";
     page_last_edited_time := "2024-05-02T00:00:00.000Z";
     page_url := "https://notion.example/page-2";
     page_properties :=
       {[ "Name" := titled "Release notes";
          "Status" := selected "Done" ]} |}.

(** A workspace whose search finds both pages. *)
Definition workspace : World :=
  λ _ c,
    match c return Outcome (Reply c) with
    | Now => Returned 1000
    | FetchConnection _ _ => Returned (Some {| settings := Present exampleSettings |})
    | NotionSearch _ _ _ => Returned [darkModePage; otherPage]
    | NotionPagesRetrieve _ => Returned darkModePage
    | NotionBlocksChildrenList _ => Returned []
    | _ => Thrown unavailable
    end.

End NotionSpec.

(** ** The tool registry of the agent *)

Module RegistrySpec.
Import Credentials CredentialsSpec.

(** The tools [ctoAgent.ts] registers. *)
Inductive Tool : Type :=
| ReadKanbanBoard | UpdateTaskStatus | AddTaskComment | QueryTaskDetails
| CreateBranch | CommitCode | CreatePullRequest | GetRepositoryContent
| ListRepositoryBranches
| AnalyzeCodebase | ImplementCodeChanges | RunCodeTests | ValidateCodeQuality.

Definition throwsM {A} (run : Outcome A * State) : Prop := isReturned run.1 = false.
Definition throwsO {A} (run : Outcome A) : Prop := isReturned run = false.

(** Some execution of the tool ends in a throw. *)
Definition canThrow (t : Tool) : Prop :=
  match t with
  | ReadKanbanBoard =>
      ∃ env databaseId statusFilter w st,
        throwsM (Notion.readKanbanBoard env databaseId statusFilter w st)
  | UpdateTaskStatus =>
      ∃ env pageId newStatus w st, throwsM (Notion.updateTaskStatus env pageId newStatus w st)
  | AddTaskComment =>
      ∃ env pageId comment w st, throwsM (Notion.addTaskComment env pageId comment w st)
  | QueryTaskDetails =>
      ∃ env pageId w st, throwsM (Notion.queryTaskDetails env pageId w st)
  | CreateBranch => ∃ env i w st, throwsM (GitHub.createBranch env i w st)
  | CommitCode => ∃ env i w st, throwsM (GitHub.commitCode env i w st)
  | CreatePullRequest => ∃ env i w st, throwsM (GitHub.createPullRequest env i w st)
  | GetRepositoryContent =>
      ∃ env decode i w st, throwsM (GitHub.getRepositoryContent env decode i w st)
  | ListRepositoryBranches =>
      ∃ env owner repo w st, throwsM (GitHub.listRepositoryBranches env owner repo w st)
  | AnalyzeCodebase =>
      ∃ path areas, throwsO (Development.analyzeCodebase path areas)
  | ImplementCodeChanges => ∃ i, throwsO (Development.implementCodeChanges i)
  | RunCodeTests => ∃ files coverage, throwsO (Development.runCodeTests files coverage)
  | ValidateCodeQuality => ∃ paths, throwsO (Development.validateCodeQuality paths)
  end.

(** The tool never throws, and reports [success = false] whenever its
    [try] block threw. *)
Definition recovers {A} (success : A → bool) (tool body : M A) : Prop :=
  ∀ w st,
    ∃ result st',
      tool w st = (Returned result, st')
      ∧ (throwsM (body w st) → success result = false).

(** The tool throws what its [try] block threw. *)
Definition rethrows {A} (tool body : M A) : Prop :=
  ∀ w st e st', body w st = (Thrown e, st') → tool w st = (Thrown e, st').

(** A task the planning tool blocks. *)
Definition cleanup : Development.ImplementInput :=
  {| Development.taskDescription := "Clean the build: rm -rf dist";
     Development.requirements := "The dist folder is rebuilt from scratch";
     Development.targetFiles := None;
     Development.priority := Development.Medium;
     Development.complexity := Development.Moderate;
     Development.testRequirements := true |}.

(** A process without identity, where no client can be obtained. *)
Definition noIdentity : ProcessEnv :=
  {| REPLIT_CONNECTORS_HOSTNAME := None; REPL_IDENTITY := None; WEB_REPL_RENEWAL := None |}.

Definition deadWorld : World :=
  λ _ c,
    match c return Outcome (Reply c) with
    | _ => Thrown unavailable
    end.

End RegistrySpec.

(** ** What the regular expressions match *)

Module RegexSpec.
Import Regex.

(** [s] without its leading characters that satisfy [p]. *)
Fixpoint dropWhile (p : ascii → bool) (s : list ascii) : list ascii :=
  match s with
  | c :: r => if p c then dropWhile p r else s
  | [] => []
  end.

(** [Matches r w caps caps']: the word [w] belongs to [r], and matching
    it turns the captures [caps] into [caps']. *)
Inductive Matches : Re → list ascii → Captures → Captures → Prop :=
| M_one a c caps :
    atomMatches a c = true → Matches (One a) [c] caps caps
| M_str l w caps :
    Forall2 (λ p c, atomMatches (Chr p) c = true) l w → Matches (Str l) w caps caps
| M_seq r1 r2 w1 w2 caps0 caps1 caps2 :
    Matches r1 w1 caps0 caps1 → Matches r2 w2 caps1 caps2 →
    Matches (Seq r1 r2) (w1 ++ w2) caps0 caps2
| M_alt_l r1 r2 w caps0 caps1 :
    Matches r1 w caps0 caps1 → Matches (Alt r1 r2) w caps0 caps1
| M_alt_r r1 r2 w caps0 caps1 :
    Matches r2 w caps0 caps1 → Matches (Alt r1 r2) w caps0 caps1
| M_opt_skip r caps :
    Matches (Opt r) [] caps caps
| M_opt_take r w caps0 caps1 :
    Matches r w caps0 caps1 → Matches (Opt r) w caps0 caps1
| M_star a w caps :
    Forall (λ c, atomMatches a c = true) w → Matches (Star a) w caps caps
| M_plus a w caps :
    w ≠ [] → Forall (λ c, atomMatches a c = true) w → Matches (Plus a) w caps caps
| M_group n r w caps0 caps1 :
    Matches r w caps0 caps1 → Matches (Group n r) w caps0 ((n, w) :: caps1).

End RegexSpec.

(** ** What the task-discovery step reads in the agent's answer *)

Module WorkflowSpec.
Import Regex Workflow.

(** Equal but for the case of [a-z]. *)
Definition sameLetter (p c : ascii) : Prop := canonicalize p = canonicalize c.

Definition spells (word : string) (w : list ascii) : Prop :=
  Forall2 sameLetter (chars word) w.

Definition digits (ds : list ascii) : Prop :=
  ds ≠ [] ∧ Forall (λ c, isDigit c = true) ds.

Definition spaces (ws : list ascii) : Prop :=
  Forall (λ c, isSpace c = true) ws.

(** A number, optional white space, "task" or "tasks", optional white
    space, and one of "processed", "completed", "handled". *)
Definition taskPhrase (ds w : list ascii) : Prop :=
  ∃ ws1 t s ws2 v,
    w = ds ++ ws1 ++ t ++ s ++ ws2 ++ v
    ∧ digits ds ∧ spaces ws1 ∧ spells "task" t
    ∧ (s = [] ∨ spells "s" s) ∧ spaces ws2
    ∧ (spells "processed" v ∨ spells "completed" v ∨ spells "handled" v).

(** The first such phrase of the text carries the number [ds]. *)
Definition firstTaskPhrase (text ds : list ascii) : Prop :=
  ∃ pre w post,
    text = pre ++ w ++ post ∧ taskPhrase ds w
    ∧ ∀ pre' ds' w' post',
        text = pre' ++ w' ++ post' → taskPhrase ds' w' → (length pre ≤ length pre')%nat.

Definition noTaskPhrase (text : list ascii) : Prop :=
  ∀ pre ds w post, text = pre ++ w ++ post → ¬ taskPhrase ds w.

(** "pull request" or "pull requests", optional white space, an optional
    "#", and a number. *)
Definition pullRequestPhrase (w : list ascii) : Prop :=
  ∃ p s ws h ds,
    w = p ++ s ++ ws ++ h ++ ds
    ∧ spells "pull request" p
    ∧ (s = [] ∨ spells "s" s) ∧ spaces ws
    ∧ (h = [] ∨ h = chars "#") ∧ digits ds.

(** What follows "pull request" in such a phrase. *)
Definition phraseTail (w : list ascii) : Prop :=
  ∃ s ws h ds,
    w = s ++ ws ++ h ++ ds
    ∧ (s = [] ∨ spells "s" s) ∧ spaces ws ∧ (h = [] ∨ h = chars "#") ∧ digits ds.

(** The phrase [w] begins the text [s], with its number whole. *)
Definition mentionAt (s w : list ascii) : Prop :=
  pullRequestPhrase w
  ∧ ∃ rest, s = w ++ rest ∧ ∀ c rest', rest = c :: rest' → isDigit c = false.

Definition noMentionAt (s : list ascii) : Prop :=
  ∀ w rest, s = w ++ rest → ¬ pullRequestPhrase w.

(** [mentions s l]: [l] lists, in order, one phrase for each position of
    [s] at which a pull-request phrase begins. *)
Inductive mentions : list ascii → list (list ascii) → Prop :=
| mentions_end : mentions [] []
| mentions_skip c s l :
    noMentionAt (c :: s) → mentions s l → mentions (c :: s) l
| mentions_hit c s w l :
    mentionAt (c :: s) w → mentions s l → mentions (c :: s) (w :: l).

(** Not a "p", in either case. *)
Definition notP (c : ascii) : Prop := ¬ sameLetter "p" c.

(** The wording "pull request #<N>" taken to the letter. *)
Definition hashPhrase (w : list ascii) : Prop :=
  ∃ p ds, w = p ++ ds ∧ spells "pull request #" p ∧ digits ds.

Definition noHashPhrase (text : list ascii) : Prop :=
  ∀ pre w post, text = pre ++ w ++ post → ¬ hashPhrase w.

(** The text holds [word], whatever the case of its letters. *)
Definition holds (text word : string) : Prop :=
  ∃ pre w post, text = (pre ++ w ++ post)%string ∧ toLowerCase w = word.

End WorkflowSpec.

(** ** Connectors for the edges of the credential provider *)

Module CredentialsCases.
Import Credentials CredentialsSpec.

Definition isFetch (c : Call) : bool :=
  match c with FetchConnection _ _ => true | _ => false end.

Definition notFound : JsError := ErrorObj "X_REPLIT_TOKEN not found for repl/depl".

(** A process that has neither identity. *)
Definition anonymous : ProcessEnv :=
  {| REPLIT_CONNECTORS_HOSTNAME := Some "connectors.example";
     REPL_IDENTITY := None;
     WEB_REPL_RENEWAL := Some EmptyString |}.

(** A connection whose token sits under the OAuth credentials only. *)
Definition oauthSettings : Settings :=
  {| expires_at := ExpiresAtMs 5000;
     access_token := None;
     oauth_access_token := Some "oauth-token" |}.

Definition oauthWorld : World :=
  λ _ c,
    match c return Outcome (Reply c) with
    | Now => Returned 1000
    | FetchConnection _ _ => Returned (Some {| settings := Present oauthSettings |})
    | _ => Thrown unavailable
    end.

(** A connector that lists a connection whose settings are [null]. *)
Definition nullConnector : World :=
  λ _ c,
    match c return Outcome (Reply c) with
    | Now => Returned 1000
    | FetchConnection _ _ => Returned (Some {| settings := Null |})
    | _ => Thrown unavailable
    end.

(** A connection that declares no expiry. *)
Definition lastingSettings : Settings :=
  {| expires_at := NoExpiry;
     access_token := Some "token-2";
     oauth_access_token := None |}.

Definition lastingConnector : World :=
  λ _ c,
    match c return Outcome (Reply c) with
    | Now => Returned 1000
    | FetchConnection _ _ => Returned (Some {| settings := Present lastingSettings |})
    | _ => Thrown unavailable
    end.

(** A connector that lists no connection. *)
Definition emptyConnector : World :=
  λ _ c,
    match c return Outcome (Reply c) with
    | Now => Returned 1000
    | FetchConnection _ _ => Returned None
    | _ => Thrown unavailable
    end.

End CredentialsCases.

(** ** Calls and inputs for further runs of the GitHub tools *)

Module GitHubCases.
Import Credentials CredentialsSpec GitHub GitHubSpec CredentialsCases.

Definition isCreateRef (c : Call) : bool :=
  match c with GitCreateRef _ _ _ _ => true | _ => false end.

(** The two calls of [createBranch]. *)
Definition baseRefCall (i : CreateBranchInput) : Call :=
  GitGetRef (cb_owner i) (cb_repo i) ("heads/" ++ cb_baseBranch i)%string.

Definition createRefCall (i : CreateBranchInput) (sha : string) : Call :=
  GitCreateRef (cb_owner i) (cb_repo i) ("refs/heads/" ++ cb_branchName i)%string sha.

(** The last two calls of [commitCode]. *)
Definition newCommitCall (i : CommitCodeInput) (ref : GitRef) (tree : string) : Call :=
  GitCreateCommit (cc_owner i) (cc_repo i) (cc_message i) tree [object_sha ref].

Definition updateCall (i : CommitCodeInput) (sha : string) : Call :=
  GitUpdateRef (cc_owner i) (cc_repo i) ("heads/" ++ cc_branch i)%string sha.

(** What each tool returns from its [catch]. *)
Definition branchFailure (i : CreateBranchInput) (e : JsError) : CreateBranchResult :=
  {| cb_success := false; cb_name := cb_branchName i; cb_sha := EmptyString;
     cb_message := ("Failed to create branch: " ++ errorMessage e)%string |}.

Definition commitFailure (e : JsError) : CommitCodeResult :=
  {| cc_success := false; cc_commitSha := None;
     cc_result_message := ("Failed to commit code: " ++ errorMessage e)%string |}.

Definition pullRequestFailure (e : JsError) : PullRequestResult :=
  {| pr_success := false; pr_pullRequestUrl := None; pr_pullRequestNumber := None;
     pr_message := ("Failed to create pull request: " ++ errorMessage e)%string |}.

Definition contentFailure (e : JsError) : ContentResult :=
  {| gc_success := false; gc_items := [];
     gc_message := ("Failed to get repository content: " ++ errorMessage e)%string |}.

Definition branchesFailure (e : JsError) : BranchesResult :=
  {| lb_success := false; lb_branches := [];
     lb_message := ("Failed to list branches: " ++ errorMessage e)%string |}.

Definition pullRequestCreated (pr : PullRequest) : PullRequestResult :=
  {| pr_success := true;
     pr_pullRequestUrl := Some (pr_html_url pr);
     pr_pullRequestNumber := Some (pr_number pr);
     pr_message := ("Pull request #" ++ showZ (pr_number pr) ++ " created successfully")%string |}.

(** The content of an item is the decoded text that a fetch of the
    item's path, issued after the calls [tr], was answered with. *)
Definition fetchedFrom (decodeBase64 : string → string) (w : World) (i : ContentInput)
           (tr : list Call) (item : Item) (content : string) : Prop :=
  ∃ entry raw,
    w tr (contentCall i (item_path item)) = Returned (ContentSingle entry)
    ∧ ce_content entry = Some raw
    ∧ raw ≠ EmptyString
    ∧ content = decodeBase64 raw.

(** The item of the small file of [contentWorld], as listed with its content. *)
Definition okItem : Item := withContent (baseItem (fileEntry "ok.ts" 3)) "YWJj".

(** The listing of the small file itself. *)
Definition okListing : ContentInput :=
  {| gc_owner := "zenquill"; gc_repo := "app"; gc_path := "ok.ts"; gc_ref := None |}.

Definition okEntry : ContentEntry :=
  {| ce_name := "ok.ts"; ce_path := "ok.ts"; ce_type := TFile;
     ce_size := Some 3; ce_sha := "sha-of-ok.ts";
     ce_content := Some "YWJj"%string |}.

(** A pull request whose list of reviewers is empty. *)
Definition withoutReviewers : PullRequestInput :=
  {| pr_owner := "zenquill"; pr_repo := "app"; pr_title := "Add dark mode";
     pr_head := "feature"; pr_base := "main"; pr_body := "Adds a dark theme.";
     pr_notionTaskUrl := Some "https://notion.example/page-1"%string;
     pr_reviewers := Some [];
     pr_draft := true |}.

End GitHubCases.

(** ** Pages and blocks for further runs of the Notion tools *)

Module NotionCases.
Import Credentials CredentialsSpec Notion NotionSpec.

(** A property in which the extraction finds nothing to read. *)
Definition untitled (p : Property) : Prop := ∀ t rest, p ≠ PTitle (t :: rest).
Definition unselected (p : Property) : Prop := ∀ o, p ≠ PSelect (Some o).
Definition wordless (p : Property) : Prop := ∀ t rest, p ≠ PRichText (t :: rest).
Definition unassigned (p : Property) : Prop := ∀ x rest, p ≠ PPeople (x :: rest).

(** A page whose [Title] is empty and whose [Status] is cleared, with
    the lower aliases filled in. *)
Definition shadowedPage : Page :=
  {| page_id := "page-3"; page_database := "board-1";
     page_created_time := "2025-02-01T00:00:00.000Z";
     page_last_edited_time := "2025-02-02T00:00:00.000Z";
     page_url := "https://notion.example/page-3";
     page_properties :=
       {[ "Title" := PTitle [];
          "Name" := titled "Release notes";
          "Status" := PSelect None;
          "status" := selected "Done" ]} |}.

(** A block the content loop renders: one of the six types, with its
    rich text. *)
Definition rendered (b : Block) : bool :=
  match blockPrefix (block_type b), block_rich_text b with
  | Some _, Some _ => true
  | _, _ => false
  end.

(** White space only. *)
Fixpoint blank (s : string) : bool :=
  match s with
  | EmptyString => true
  | String c r => isSpace c && blank r
  end.

(** Neither the first nor the last character is white space. *)
Definition edgeFree (s : string) : Prop :=
  (∀ c r, s = String c r → isSpace c = false)
  ∧ (∀ r c, s = (r ++ String c EmptyString)%string → isSpace c = false).

Definition text (s : string) : option (list RichText) := Some [ {| plain_text := s |} ].

(** A page body: a heading, a paragraph, a to-do item and an empty
    paragraph. *)
Definition body : list Block :=
  [ {| block_type := "heading_1"; block_rich_text := text "Goal" |};
    {| block_type := "paragraph"; block_rich_text := text "Add a dark theme." |};
    {| block_type := "to_do"; block_rich_text := text "Pick the colours" |};
    {| block_type := "paragraph"; block_rich_text := Some [] |} ].

Definition notebook : World :=
  λ tr c,
    match c return Outcome (Reply c) with
    | NotionBlocksChildrenList _ => Returned body
    | c' => workspace tr c'
    end.

(** The details [queryTaskDetails] returns for the page in [notebook]. *)
Definition darkModeDetails : TaskDetails :=
  {| td_task := pageToTask darkModePage;
     td_content := "# Goal" ++ lineFeed ++ "Add a dark theme." |}.

End NotionCases.

(** ** Tasks for the planning, test and quality tools *)

Module DevelopmentCases.
Import Development WorkflowSpec.

(** The text holds one of the destructive keywords, in any case. *)
Definition destructive (text : string) : Prop :=
  ∃ keyword, keyword ∈ destructiveKeywords ∧ holds text keyword.

(** A task whose requirements speak of truncated text. *)
Definition ellipsis : ImplementInput :=
  {| taskDescription := "Show long titles on one line";
     requirements := "Titles are Truncated with an ellipsis";
     targetFiles := None;
     priority := Low;
     complexity := Simple;
     testRequirements := true |}.

(** A security task worded as a fix. *)
Definition tokenLeak : ImplementInput :=
  {| taskDescription := "Fix the security vulnerability in token storage";
     requirements := "Tokens are no longer written to the log";
     targetFiles := None;
     priority := Critical;
     complexity := Moderate;
     testRequirements := true |}.

(** Two components and their test. *)
Definition twoComponents : ImplementInput :=
  {| taskDescription := "Add a dark theme";
     requirements := "Both components follow the theme";
     targetFiles := Some [ "src/components/Button.tsx"; "src/components/Card.tsx";
                           "src/components/Card.test.tsx" ]%string;
     priority := Medium;
     complexity := Moderate;
     testRequirements := true |}.

Definition twoComponentsPlan : Plan :=
  {| plan_taskType := "feature";
     plan_scope := ["Frontend Components"; "Testing Infrastructure"]%string;
     plan_dependencies := [ "src/components/Button.tsx"; "src/components/Card.tsx";
                            "src/components/Card.test.tsx" ]%string;
     plan_risks := [];
     plan_estimatedEffort := "2-4 hours";
     plan_approach := "Incremental development with continuous testing" |}.

End DevelopmentCases.

(** ** Target files for the earlier planner *)

Module EarlierCases.
Import Earlier WorkflowSpec.

Definition isLowerLetter (c : ascii) : bool :=
  ((97 <=? code c) && (code c <=? 122))%N.

(** A word of the letters [a-z]. *)
Fixpoint lowerWord (s : string) : bool :=
  match s with
  | EmptyString => true
  | String c r => isLowerLetter c && lowerWord r
  end.

(** The file name holds "todo" or "placeholder", in any case. *)
Definition namedLikePlaceholder (file : string) : Prop :=
  holds file "todo" ∨ holds file "placeholder".

(** A task on the component of a to-do list. *)
Definition dueDates : ImplementInput :=
  {| taskDescription := "Show the due date of each item";
     requirements := "The date is shown next to the title";
     targetFiles := Some [ "src/components/Header.tsx"; "src/components/TodoList.tsx" ]%string;
     testRequirements := false |}.

End EarlierCases.

(** ** Results of the task-discovery step *)

Module WorkflowCases.
Import Workflow.

(** What the step returns when no agent is registered. *)
Definition missingAgent : StepResult :=
  {| tasksProcessed := Int 0;
     completedTasks := [];
     errors := [ "Workflow execution failed: CTO Agent not found - ensure it is registered in the Mastra instance"%string ];
     summary := "CTO Automation failed: CTO Agent not found - ensure it is registered in the Mastra instance" |}.

(** What the summary says before it quotes the answer. *)
Definition summaryHead (result : StepResult) : string :=
  ("CTO Automation completed: " ++ showNumber (tasksProcessed result)
     ++ " tasks processed, " ++ showZ (Z.of_nat (length (completedTasks result)))
     ++ " pull requests created. Agent response: ")%string.

End WorkflowCases.

(* ===================================================================== *)
(** * Properties *)
(* ===================================================================== *)

Ltac unfold_monad :=
  unfold mbind, mret, M_bind, M_ret, Remote.bind, Remote.ret, Remote.throw,
    Remote.try_catch, Remote.call, Remote.issue, Remote.await,
    Remote.getCache, Remote.setCache in *.

(** ** The credential cache *)

Module CredentialsProofs.
Import Credentials CredentialsSpec.

Section Cache.
Variables (w : World) (env : ProcessEnv) (k : Connector).

(** [getAccessToken] leaves the cache as it was, or has found an
    identity token and fetched. *)
Lemma getAccessToken_cache st :
  connectionSettings (getAccessToken env k w st).2 = connectionSettings st
  ∨ xReplitToken env ≠ None.
Proof.
  unfold getAccessToken, cacheIsFresh. unfold_monad. simpl.
  destruct (xReplitToken env) eqn:Hx; [right; congruence|]. left.
  destruct (connectionSettings st) as [[[ | |s]]|] eqn:Hc; simpl; try done.
  destruct (expires_at s); simpl; try done.
  - destruct (w (trace st) Now); done.
  - destruct (w (trace st) Now) as [now|]; simpl; [|done].
    destruct (bool_decide (t > now)); done.
Qed.

(** A filled cache was fetched with an identity token. *)
Lemma reachable_identity st :
  reachable w env k st → connectionSettings st ≠ None → xReplitToken env ≠ None.
Proof.
  induction 1 as [|st Hr IH|st c Hr IH]; intros Hc.
  - contradiction.
  - destruct (getAccessToken_cache st) as [Heq|Hx]; [|exact Hx].
    apply IH. rewrite <- Heq. exact Hc.
  - apply IH. exact Hc.
Qed.
End Cache.

(** C5 fails in the code.  The connector hands out a connection that
    expires at 5000 and carries its token under the OAuth credentials
    only.  A first call, at 1000, fetches it and returns that token.  A
    second call, still before the expiry, reads the clock and does not
    fetch, as the claim says, but it returns no token: the cache hit
    reads [settings.access_token] alone, without the fallback to the
    OAuth credentials that the fetch path has. *)
Theorem getAccessToken_cache_hit_loses_oauth_token :
  (getAccessToken exampleEnv github CredentialsCases.oauthWorld start).1
  = Returned (Some "oauth-token"%string)
  ∧ connectionSettings
      (getAccessToken exampleEnv github CredentialsCases.oauthWorld start).2
    = Some {| settings := Present CredentialsCases.oauthSettings |}
  ∧ expires_at CredentialsCases.oauthSettings = ExpiresAtMs 5000
  ∧ CredentialsCases.oauthWorld
      (trace (getAccessToken exampleEnv github CredentialsCases.oauthWorld start).2) Now
    = Returned 1000
  ∧ getAccessToken exampleEnv github CredentialsCases.oauthWorld
      (getAccessToken exampleEnv github CredentialsCases.oauthWorld start).2
    = (Returned None,
       {| connectionSettings := Some {| settings := Present CredentialsCases.oauthSettings |};
          trace := [ FetchConnection (connectionUrl exampleEnv github) "repl identity";
                     Now ] |}).
Proof. repeat split; vm_compute; reflexivity. Qed.

End CredentialsProofs.

(** ** The GitHub tools *)

Module GitHubProofs.
Import Credentials CredentialsSpec GitHub GitHubSpec.

Lemma issuedSince_app (st : State) (cs : option ConnectionSettings) (l : list Call) :
  issuedSince st {| connectionSettings := cs; trace := trace st ++ l |} = l.
Proof. unfold issuedSince. simpl. apply drop_app_length. Qed.

Lemma issuedSince_trace (st st' : State) (l : list Call) :
  trace st' = trace st ++ l → issuedSince st st' = l.
Proof. intros H. unfold issuedSince. rewrite H. apply drop_app_length. Qed.

Lemma answered_app (w : World) (tr l1 l2 : list Call) :
  answered w tr (l1 ++ l2) = answered w tr l1 && answered w (tr ++ l1) l2.
Proof.
  revert tr. induction l1 as [|c l1 IH]; intros tr; simpl.
  - by rewrite app_nil_r.
  - rewrite IH, <- app_assoc. simpl. by rewrite andb_assoc.
Qed.

(** The credential provider calls the clock and the connector only. *)
Lemma getAccessToken_calls (env : ProcessEnv) (k : Connector) (w : World) (st : State) :
  ∃ auth,
    trace (getAccessToken env k w st).2 = trace st ++ auth
    ∧ Forall (λ c, isAuthCall c = true) auth.
Proof.
  assert (Hfetch : ∀ st',
    (∃ auth, trace st' = trace st ++ auth ∧ Forall (λ c, isAuthCall c = true) auth) →
    ∃ auth,
      trace (match xReplitToken env with
             | None => throw (ErrorObj "X_REPLIT_TOKEN not found for repl/depl")
             | Some tok =>
                 fetched ← call (FetchConnection (connectionUrl env k) tok);
                 setCache fetched;;
                 accessToken ← fetchedToken fetched;
                 if truthy accessToken then mret accessToken
                 else throw (ErrorObj (not_connected k))
             end w st').2 = trace st ++ auth
      ∧ Forall (λ c, isAuthCall c = true) auth).
  { intros st' (auth & Htr & Hauth). destruct (xReplitToken env) as [tok|].
    - exists (auth ++ [FetchConnection (connectionUrl env k) tok]). split.
      + unfold fetchedToken. unfold_monad. simpl.
        destruct (w _ _) as [[[[ | |s]]|]|]; simpl;
          try (destruct (truthy _); simpl); by rewrite Htr, <- app_assoc.
      + apply Forall_app. split; [done|]. by constructor.
    - exists auth. done. }
  unfold getAccessToken, cacheIsFresh. unfold_monad. simpl.
  destruct (connectionSettings st) as [[[ | |s]]|] eqn:Hc; simpl.
  - exists []. by rewrite app_nil_r.
  - exists []. by rewrite app_nil_r.
  - destruct (expires_at s); simpl.
    + apply Hfetch. exists []. by rewrite app_nil_r.
    + destruct (w (trace st) Now); simpl.
      * apply Hfetch. exists [Now]. split; [done|]. by constructor.
      * exists [Now]. split; [done|]. by constructor.
    + destruct (w (trace st) Now) as [now|]; simpl.
      * destruct (bool_decide (t > now)); simpl.
        -- exists [Now]. split; [done|]. by constructor.
        -- apply Hfetch. exists [Now]. split; [done|]. by constructor.
      * exists [Now]. split; [done|]. by constructor.
  - apply Hfetch. exists []. by rewrite app_nil_r.
Qed.

(** Where a call that is not the provider's sits after the provider's. *)
Lemma after_auth_calls (auth l pre post : list Call) (c : Call) :
  Forall (λ c, isAuthCall c = true) auth →
  isAuthCall c = false →
  auth ++ l = pre ++ c :: post →
  ∃ pre', pre = auth ++ pre' ∧ l = pre' ++ c :: post.
Proof.
  intros Hauth Hc. revert pre. induction Hauth as [|a auth Ha _ IH]; intros pre Heq.
  - exists pre. done.
  - destruct pre as [|b pre]; simpl in Heq; injection Heq as -> Heq.
    + congruence.
    + destruct (IH _ Heq) as (pre' & -> & ->). by exists pre'.
Qed.

(** [Promise.all] reads the settled promises and calls nothing. *)
Lemma all_settled {A} (ps : list (Outcome A)) (w : World) (st : State) :
  all ps w st = (allSettled ps, st).
Proof.
  induction ps as [|[a|e] ps IH]; simpl; try reflexivity.
  unfold_monad. simpl. rewrite IH. by destruct (allSettled ps).
Qed.

Section Commit.
Variables (env : ProcessEnv) (w : World) (i : CommitCodeInput).

(** [files.map] issues one blob call per file, in the order of the
    files, whatever the answers. *)
Lemma mapM_blobPromise (files : list CommitFile) (st : State) :
  mapM (blobPromise i) files w st
  = (Returned (blobPromises w i (trace st) files),
     {| connectionSettings := connectionSettings st;
        trace := trace st ++ map (createBlobCall i) files |}).
Proof.
  revert st. induction files as [|f files IH]; intros st; simpl.
  - unfold_monad. rewrite app_nil_r. by destruct st.
  - unfold blobPromise at 1. unfold_monad. simpl. rewrite IH. simpl.
    rewrite <- app_assoc. reflexivity.
Qed.

Lemma blobPromises_answered (files : list CommitFile) (tr : list Call) :
  answered w tr (map (createBlobCall i) files) = true →
  ∃ entries,
    allSettled (blobPromises w i tr files) = Returned entries
    ∧ Forall2 (λ file entry, entry_path entry = file_path file) files entries.
Proof.
  revert tr. induction files as [|f files IH]; intros tr; simpl.
  - intros _. exists []. split; [reflexivity|constructor].
  - intros H. apply andb_prop in H as [Hf Hr].
    destruct (IH _ Hr) as (entries & Hall & Hpaths).
    destruct (w tr (createBlobCall i f)) as [sha|e]; [|discriminate].
    exists (treeEntry f sha :: entries). rewrite Hall. split; [reflexivity|].
    constructor; [reflexivity|exact Hpaths].
Qed.
End Commit.

(** C1, as amended.  When the client is obtained and every call the run
    issues before the ref update is answered, [commitCode] on N files
    reads the head and its commit, issues exactly N blob-create calls,
    then one tree-create, one commit-create and one ref-update, in that
    order; the ref update carries the sha commit-create returned, and the
    commit's sole parent is the head sha read first. *)
Theorem commitCode_call_sequence
    (env : ProcessEnv) (w : World) (i : CommitCodeInput)
    (st st1 : State) (token : option string) :
  getUncachableGitHubClient env w st = (Returned token, st1) →
  answered w (trace st1) (issuedSince st1 (commitCode env i w st).2) = true →
  commitSequence w i (trace st1) (trace (commitCode env i w st).2).
Proof.
  intros Hauth.
  unfold commitCode, commitCodeTry, commitCodeCatch. unfold_monad.
  rewrite Hauth. simpl.
  destruct (w (trace st1) _) as [ref|e] eqn:Href; simpl.
  2:{ rewrite issuedSince_app. simpl. rewrite Href. discriminate. }
  destruct (w (trace st1 ++ _) (GitGetCommit _ _ _)) as [commit|e] eqn:Hcommit; simpl.
  2:{ rewrite <- app_assoc, issuedSince_app. simpl.
      rewrite Href, Hcommit. discriminate. }
  rewrite mapM_blobPromise. simpl. rewrite all_settled. simpl.
  rewrite <- !app_assoc. simpl.
  set (getRef := GitGetRef _ _ _) in *.
  set (getCommit := GitGetCommit _ _ _) in *.
  set (blobs := map (createBlobCall i) (cc_files i)).
  destruct (allSettled _) as [entries|e] eqn:Hall; simpl.
  2:{ rewrite issuedSince_app. simpl. rewrite Href, Hcommit. simpl.
      rewrite <- app_assoc. simpl. intros Hblobs.
      destruct (blobPromises_answered w i _ _ Hblobs) as (entries & Hall' & _).
      congruence. }
  destruct (w _ (GitCreateTree _ _ _ _)) as [tree|e] eqn:Htree; simpl.
  2:{ rewrite <- !app_assoc. simpl.
      rewrite issuedSince_app. simpl. rewrite answered_app. simpl.
      rewrite <- !app_assoc. simpl. rewrite Htree.
      rewrite !andb_false_r. discriminate. }
  destruct (w _ (GitCreateCommit _ _ _ _ _)) as [newCommit|e] eqn:Hnew; simpl.
  2:{ rewrite <- !app_assoc. simpl.
      rewrite issuedSince_app. simpl. rewrite answered_app. simpl.
      rewrite <- !app_assoc in Hnew. simpl in Hnew.
      rewrite <- !app_assoc. simpl. rewrite Hnew.
      rewrite !andb_false_r. discriminate. }
  intros Hanswered.
  assert (Hblobs : answered w (trace st1 ++ [getRef; getCommit]) blobs = true).
  { revert Hanswered.
    destruct (w _ (GitUpdateRef _ _ _ _)); simpl;
      rewrite <- !app_assoc; simpl;
      rewrite issuedSince_app; simpl; rewrite Href, Hcommit; simpl;
      rewrite answered_app, <- !app_assoc; simpl; intros H;
      apply andb_prop in H as [H _]; exact H. }
  destruct (blobPromises_answered w i _ _ Hblobs) as (entries' & Hall' & Hpaths).
  assert (entries' = entries) by congruence. subst entries'.
  exists ref, commit, entries, tree, newCommit. simpl.
  fold getRef. fold getCommit. fold blobs.
  rewrite <- !app_assoc in Hnew. simpl in Hnew.
  repeat split; try assumption.
  destruct (w _ (GitUpdateRef _ _ _ _)); simpl; rewrite <- !app_assoc; reflexivity.
Qed.

(** On two files against a repository that answers every call: two
    blob calls, then tree, commit and ref update. *)
Lemma commitCode_call_sequence_witness :
  getUncachableGitHubClient exampleEnv reliableWorld start
  = (Returned (Some "token-1"%string), authenticated)
  ∧ answered reliableWorld (trace authenticated)
      (issuedSince authenticated (commitCode exampleEnv twoFiles reliableWorld start).2)
    = true
  ∧ commitSequence reliableWorld twoFiles (trace authenticated)
      (trace (commitCode exampleEnv twoFiles reliableWorld start).2).
Proof.
  split; [reflexivity|]. split; [reflexivity|].
  apply (commitCode_call_sequence exampleEnv reliableWorld twoFiles start authenticated
           (Some "token-1"%string)); reflexivity.
Defined.

(** C1 as stated fails: on an existing branch, when the repository
    rejects the tree, the two blob calls and the tree-create are issued
    and neither commit-create nor ref-update follows. *)
Lemma commitCode_rejected_tree_counterexample :
  treeRejectingWorld (trace authenticated)
    (GitGetRef "zenquill" "app" "heads/feature")
  = Returned {| object_sha := "head-sha" |}
  ∧ trace (commitCode exampleEnv twoFiles treeRejectingWorld start).2
    = trace authenticated ++
      [ GitGetRef "zenquill" "app" "heads/feature";
        GitGetCommit "zenquill" "app" "head-sha";
        GitCreateBlob "zenquill" "app" "A" Utf8;
        GitCreateBlob "zenquill" "app" "B" Base64;
        GitCreateTree "zenquill" "app" "base-tree-sha"
          [ treeEntry {| file_path := "a.ts"; file_content := "A"; file_encoding := Utf8 |}
              "blob-of-A";
            treeEntry {| file_path := "b.ts"; file_content := "B"; file_encoding := Base64 |}
              "blob-of-B" ] ]
  ∧ ¬ commitSequence treeRejectingWorld twoFiles (trace authenticated)
        (trace (commitCode exampleEnv twoFiles treeRejectingWorld start).2).
Proof.
  split; [reflexivity|]. split; [reflexivity|].
  intros (ref & commit & entries & tree_sha & commit_sha & Htrace & _).
  apply (f_equal length) in Htrace. revert Htrace.
  rewrite !length_app, length_map. vm_compute. discriminate.
Qed.

(** The three ways a run of [createPullRequest] with reviewers goes. *)
Lemma createPullRequest_run
    (env : ProcessEnv) (w : World) (i : PullRequestInput) (st : State) :
  hasReviewers i = true →
  ∃ auth result,
    Forall (λ c, isAuthCall c = true) auth
    ∧ (createPullRequest env i w st).1 = Returned result
    ∧ ((issuedSince st (createPullRequest env i w st).2 = auth
        ∧ pr_success result = false)
       ∨ (∃ e, w (trace st ++ auth) (createCall i) = Thrown e
               ∧ issuedSince st (createPullRequest env i w st).2 = auth ++ [createCall i]
               ∧ pr_success result = false)
       ∨ (∃ pr, w (trace st ++ auth) (createCall i) = Returned pr
                ∧ issuedSince st (createPullRequest env i w st).2
                  = auth ++ [createCall i; reviewersCall i (pr_number pr)]
                ∧ (isReturned (w (trace st ++ auth ++ [createCall i])
                                 (reviewersCall i (pr_number pr))) = false
                   → pr_success result = false))).
Proof.
  intros Hrev.
  destruct (getAccessToken_calls env github w st) as (auth & Htr & Hauth).
  exists auth.
  unfold createPullRequest, createPullRequestTry, createPullRequestCatch,
    getUncachableGitHubClient.
  unfold_monad.
  destruct (getAccessToken env github w st) as [[token|e] st1]; simpl in *.
  - destruct (w (trace st1) (createCall i)) as [pr|e] eqn:Hcreate; simpl.
    + rewrite Hrev. simpl.
      destruct (w (trace st1 ++ [createCall i]) (reviewersCall i (pr_number pr)))
        as [[]|e] eqn:Hreq; simpl; eexists; (split; [exact Hauth|]);
        (split; [reflexivity|]); right; right; exists pr;
        rewrite <- Htr, Hcreate; (split; [reflexivity|]);
        rewrite Htr, <- !app_assoc, issuedSince_app; (split; [reflexivity|]);
        simpl; rewrite app_assoc, <- Htr, Hreq; simpl; done.
    + eexists. split; [exact Hauth|]. split; [reflexivity|]. right; left. exists e.
      rewrite <- Htr, Hcreate. split; [reflexivity|].
      rewrite Htr, <- !app_assoc, issuedSince_app. done.
  - eexists. split; [exact Hauth|]. split; [reflexivity|]. left.
    by rewrite (issuedSince_trace _ _ _ Htr).
Qed.

(** C2. In a call of [createPullRequest] with a non-empty list of
    reviewers, a reviewer request is issued only right after a
    pull-request creation that succeeded, for the number that creation
    returned; after a failed creation no reviewer request is issued; and
    when the request fails after a successful creation, the result has
    [success = false] although the pull request exists. *)
Theorem createPullRequest_reviewers_after_creation
    (env : ProcessEnv) (w : World) (i : PullRequestInput) (st : State) :
  hasReviewers i = true →
  (∀ pre c post,
     issuedSince st (createPullRequest env i w st).2 = pre ++ c :: post →
     isReviewersCall c = true →
     ∃ pre0 pr,
       pre = pre0 ++ [createCall i]
       ∧ w (trace st ++ pre0) (createCall i) = Returned pr
       ∧ c = reviewersCall i (pr_number pr))
  ∧ (∀ pre post e,
       issuedSince st (createPullRequest env i w st).2 = pre ++ createCall i :: post →
       w (trace st ++ pre) (createCall i) = Thrown e →
       Forall (λ c, isReviewersCall c = false)
         (issuedSince st (createPullRequest env i w st).2))
  ∧ (∀ pre post pr e,
       issuedSince st (createPullRequest env i w st).2 = pre ++ createCall i :: post →
       w (trace st ++ pre) (createCall i) = Returned pr →
       w (trace st ++ pre ++ [createCall i]) (reviewersCall i (pr_number pr)) = Thrown e →
       ∃ result,
         (createPullRequest env i w st).1 = Returned result
         ∧ pr_success result = false).
Proof.
  intros Hrev.
  destruct (createPullRequest_run env w i st Hrev)
    as (auth & result & Hauth & Hres & Hcases).
  assert (Hnot : Forall (λ c, isReviewersCall c = false) auth).
  { eapply Forall_impl; [exact Hauth|]. intros [] H; simpl in *; congruence. }
  split; [|split].
  - intros pre c post Hissued Hc.
    assert (Hc' : isAuthCall c = false) by (destruct c; simpl in *; congruence).
    destruct Hcases as [[Hi _]|[(e & _ & Hi & _)|(pr & Hcreate & Hi & _)]];
      rewrite Hi in Hissued.
    + rewrite <- (app_nil_r auth) in Hissued.
      destruct (after_auth_calls _ _ _ _ _ Hauth Hc' Hissued) as (pre' & _ & Hnil).
      by destruct pre'.
    + destruct (after_auth_calls _ _ _ _ _ Hauth Hc' Hissued) as (pre' & _ & Hl).
      destruct pre' as [|? [|? [|? ?]]]; simplify_eq/=.
    + destruct (after_auth_calls _ _ _ _ _ Hauth Hc' Hissued) as (pre' & -> & Hl).
      destruct pre' as [|? [|? [|? ?]]]; simplify_eq/=.
      exists auth, pr. done.
  - intros pre post e Hissued Hthrown.
    assert (Hc' : isAuthCall (createCall i) = false) by reflexivity.
    destruct Hcases as [[Hi _]|[(e' & _ & Hi & _)|(pr & Hcreate & Hi & _)]];
      rewrite Hi in Hissued |- *.
    + exact Hnot.
    + apply Forall_app. split; [exact Hnot|]. by constructor.
    + destruct (after_auth_calls _ _ _ _ _ Hauth Hc' Hissued) as (pre' & -> & Hl).
      destruct pre' as [|? [|? [|? ?]]]; simplify_eq/=.
      rewrite app_nil_r in Hthrown. congruence.
  - intros pre post pr e Hissued Hcreated Hthrown.
    exists result. split; [exact Hres|].
    assert (Hc' : isAuthCall (createCall i) = false) by reflexivity.
    destruct Hcases as [[Hi Hf]|[(e' & _ & Hi & Hf)|(pr' & Hcreate & Hi & Hf)]];
      try exact Hf.
    rewrite Hi in Hissued.
    destruct (after_auth_calls _ _ _ _ _ Hauth Hc' Hissued) as (pre' & -> & Hl).
    destruct pre' as [|? [|? [|? ?]]]; simplify_eq/=.
    rewrite app_nil_r in Hcreated, Hthrown.
    assert (pr' = pr) by congruence. subst pr'.
    apply Hf. by rewrite Hthrown.
Qed.

(** The reviewer request is rejected after pull request 7 was created:
    the operation reports a failure. *)
Lemma createPullRequest_reviewers_after_creation_witness :
  hasReviewers withReviewers = true
  ∧ reviewRejectingWorld (trace authenticated) (createCall withReviewers)
    = Returned {| pr_number := 7; pr_html_url := "https://github.example/pull/7" |}
  ∧ ∃ result,
      (createPullRequest exampleEnv withReviewers reviewRejectingWorld start).1
      = Returned result
      ∧ pr_success result = false.
Proof.
  split; [reflexivity|]. split; [reflexivity|].
  destruct (createPullRequest_reviewers_after_creation exampleEnv reviewRejectingWorld
              withReviewers start eq_refl) as (_ & _ & Hfailed).
  apply (Hfailed (trace authenticated)
           [reviewersCall withReviewers 7]
           {| pr_number := 7; pr_html_url := "https://github.example/pull/7" |}
           unavailable); reflexivity.
Defined.

Section Content.
Variables (env : ProcessEnv) (decodeBase64 : string → string)
          (w : World) (i : ContentInput).

Lemma baseItem_listedAs (e : ContentEntry) : listedAs e (baseItem e).
Proof. unfold listedAs. simpl. by repeat split. Qed.

Lemma withContent_listedAs (e : ContentEntry) (content : string) :
  smallFile e = true → listedAs e (withContent (baseItem e) content).
Proof. unfold listedAs. simpl. by repeat split. Qed.

(** The callback of [items.map] never throws; it calls the repository
    once for an entry that passes the size test and not at all for
    another, and lists the bare entry when that call fails. *)
Lemma processItem_run (e : ContentEntry) (st : State) :
  ∃ item,
    processItem decodeBase64 i e w st
    = (Returned item,
       {| connectionSettings := connectionSettings st;
          trace := trace st ++ contentFetches i [e] |})
    ∧ listedAs e item
    ∧ (∀ err, smallFile e = true →
              w (trace st) (contentCall i (ce_path e)) = Thrown err →
              item = baseItem e).
Proof.
  unfold processItem, contentFetches. simpl.
  destruct (smallFile e) eqn:Hsmall; simpl.
  - unfold_monad. simpl.
    destruct (w (trace st) (contentCall i (ce_path e))) as [d|err] eqn:Hfetch; simpl.
    + destruct (responseContent d) as [content|]; eexists;
        (split; [reflexivity|]); split;
        auto using baseItem_listedAs, withContent_listedAs; intros; congruence.
    + eexists. split; [reflexivity|]. split; [apply baseItem_listedAs|]. done.
  - exists (baseItem e). unfold_monad. rewrite app_nil_r. destruct st.
    split; [reflexivity|]. split; [apply baseItem_listedAs|]. intros; congruence.
Qed.

Lemma contentFetches_cons (e : ContentEntry) (entries : list ContentEntry) :
  contentFetches i (e :: entries) = contentFetches i [e] ++ contentFetches i entries.
Proof. unfold contentFetches. simpl. by destruct (smallFile e). Qed.

Lemma mapM_processItem (entries : list ContentEntry) (st : State) :
  ∃ items,
    mapM (processItem decodeBase64 i) entries w st
    = (Returned items,
       {| connectionSettings := connectionSettings st;
          trace := trace st ++ contentFetches i entries |})
    ∧ Forall2 listedAs entries items
    ∧ (∀ pre e post err,
         entries = pre ++ e :: post →
         smallFile e = true →
         w (trace st ++ contentFetches i pre) (contentCall i (ce_path e)) = Thrown err →
         items !! length pre = Some (baseItem e)).
Proof.
  revert st. induction entries as [|e0 entries IH]; intros st.
  - exists []. simpl. unfold_monad. rewrite app_nil_r. destruct st.
    split; [reflexivity|]. split; [constructor|].
    intros [|] ? ? ? ?; discriminate.
  - destruct (processItem_run e0 st) as (item & Hrun & Hlisted & Hfailed).
    destruct (IH {| connectionSettings := connectionSettings st;
                    trace := trace st ++ contentFetches i [e0] |})
      as (items & Hrest & Hall & Hfail).
    simpl in Hrest, Hfail.
    exists (item :: items). simpl. unfold_monad. rewrite Hrun, Hrest. simpl.
    rewrite (contentFetches_cons e0 entries), app_assoc.
    split; [reflexivity|]. split; [by constructor|].
    intros pre e post err Heq Hsmall Hthrown.
    destruct pre as [|p pre]; simpl in *; injection Heq as -> ->.
    + rewrite app_nil_r in Hthrown. f_equal. eauto.
    + rewrite (contentFetches_cons p pre), app_assoc in Hthrown. eauto.
Qed.
End Content.

(** C4, as amended.  No item [getRepositoryContent] returns with a size
    of 100000 or more carries content.  Once the client is obtained and
    the listing is answered, the tool succeeds with one item per listed
    entry; it fetches the content of each entry of type file whose size
    is above 0 and below 100000, in the order listed; and an entry whose
    content fetch fails is still returned, without content. *)
Theorem getRepositoryContent_contents
    (env : ProcessEnv) (decodeBase64 : string → string)
    (w : World) (i : ContentInput) (st : State) :
  (∀ result item size,
     (getRepositoryContent env decodeBase64 i w st).1 = Returned result →
     item ∈ gc_items result →
     item_size item = Some size → 100000 ≤ size →
     item_content item = None)
  ∧ (∀ st1 token response,
       getUncachableGitHubClient env w st = (Returned token, st1) →
       w (trace st1) (contentCall i (gc_path i)) = Returned response →
       ∃ result,
         (getRepositoryContent env decodeBase64 i w st).1 = Returned result
         ∧ gc_success result = true
         ∧ Forall2 listedAs (entriesOf response) (gc_items result)
         ∧ trace (getRepositoryContent env decodeBase64 i w st).2
           = trace st1 ++ contentCall i (gc_path i)
               :: contentFetches i (entriesOf response)
         ∧ (∀ item size,
              item ∈ gc_items result →
              item_type item = TFile → item_size item = Some size →
              0 < size < 100000 →
              contentCall i (item_path item) ∈ contentFetches i (entriesOf response))
         ∧ (∀ pre e post err,
              entriesOf response = pre ++ e :: post →
              smallFile e = true →
              w (trace st1 ++ contentCall i (gc_path i) :: contentFetches i pre)
                (contentCall i (ce_path e)) = Thrown err →
              gc_items result !! length pre = Some (baseItem e))).
Proof.
  assert (Hbig : ∀ e item size,
            listedAs e item → item_size item = Some size → 100000 ≤ size →
            item_content item = None).
  { intros e item size (_ & _ & _ & Hsize & _ & Hcontent) Hs Hle.
    destruct (item_content item) eqn:Hc; [|reflexivity]. exfalso.
    assert (Hsmall : smallFile e = true) by (apply Hcontent; discriminate).
    unfold smallFile in Hsmall. rewrite <- Hsize, Hs in Hsmall.
    destruct (ce_type e); try discriminate.
    apply andb_prop in Hsmall as [_ Hlt]. apply Z.ltb_lt in Hlt. lia. }
  unfold getRepositoryContent, getRepositoryContentTry, getRepositoryContentCatch.
  unfold_monad.
  destruct (getUncachableGitHubClient env w st) as [[token|e] st1] eqn:Hauth; simpl.
  2:{ split; [|intros; discriminate].
      intros result item size [= <-]. simpl. by intros ?%elem_of_nil. }
  destruct (w (trace st1) (contentCall i (gc_path i))) as [response|e] eqn:Hlist; simpl.
  2:{ split; [|intros ? ? ? [= <- <-]; congruence].
      intros result item size [= <-]. simpl. by intros ?%elem_of_nil. }
  destruct (mapM_processItem decodeBase64 w i (entriesOf response)
              {| connectionSettings := connectionSettings st1;
                 trace := trace st1 ++ [contentCall i (gc_path i)] |})
    as (items & Hrun & Hall & Hfail).
  rewrite Hrun. simpl. split.
  - intros result item size [= <-]. simpl. intros Hin.
    destruct (proj1 (list_elem_of_lookup _ _) Hin) as (n & Hn).
    destruct (Forall2_lookup_r _ _ _ _ _ Hall Hn) as (e & _ & Hlisted). eauto.
  - intros ? ? response' [= <- <-] Hresponse.
    rewrite Hlist in Hresponse. injection Hresponse as <-.
    eexists. split; [reflexivity|]. simpl.
    split; [reflexivity|]. split; [exact Hall|].
    split; [by rewrite <- app_assoc|]. split.
    + intros item size Hin Htype Hsize Hrange.
      destruct (proj1 (list_elem_of_lookup _ _) Hin) as (n & Hn).
      destruct (Forall2_lookup_r _ _ _ _ _ Hall Hn)
        as (e & He & (_ & Hpath & Htype' & Hsize' & _)).
      rewrite Hpath. rewrite Htype' in Htype. rewrite Hsize' in Hsize.
      unfold contentFetches.
      apply (list_elem_of_fmap_2 (λ e, contentCall i (ce_path e))).
      apply list_elem_of_In, filter_In.
      split; [eapply list_elem_of_In, list_elem_of_lookup_2, He|].
      unfold smallFile. rewrite Htype, Hsize.
      apply andb_true_iff. split.
      * apply negb_true_iff, Z.eqb_neq. lia.
      * apply Z.ltb_lt. lia.
    + intros pre e post err Heq Hsmall Hthrown.
      apply (Hfail pre e post err Heq Hsmall). simpl.
      by rewrite <- app_assoc.
Qed.

(** On the example root: five items, fetches for [broken.ts] and
    [ok.ts] only, and [broken.ts], whose fetch fails, listed bare. *)
Lemma getRepositoryContent_contents_witness :
  ∃ result,
    (getRepositoryContent exampleEnv (λ s, s) rootListing contentWorld start).1
    = Returned result
    ∧ gc_success result = true
    ∧ trace (getRepositoryContent exampleEnv (λ s, s) rootListing contentWorld start).2
      = trace authenticated ++
        [ contentCall rootListing EmptyString;
          contentCall rootListing "broken.ts";
          contentCall rootListing "ok.ts" ]
    ∧ gc_items result !! 1%nat = Some (baseItem (fileEntry "broken.ts" 120)).
Proof.
  destruct (getRepositoryContent_contents exampleEnv (λ s, s) contentWorld rootListing start)
    as (_ & Hrun).
  destruct (Hrun authenticated (Some "token-1"%string) (ContentArray rootEntries)
              eq_refl eq_refl)
    as (result & Hres & Hok & _ & Htrace & _ & Hfailed).
  exists result. split; [exact Hres|]. split; [exact Hok|]. split; [exact Htrace|].
  apply (Hfailed [fileEntry "empty.txt" 0] (fileEntry "broken.ts" 120)
           [fileEntry "ok.ts" 3; fileEntry "big.bin" 100000;
            {| ce_name := "src"; ce_path := "src"; ce_type := TDir; ce_size := Some 0;
               ce_sha := "sha-of-src"; ce_content := None |}]
           (ErrorObj "Not Found")); reflexivity.
Defined.

(** C4 as stated fails on an empty file: the item returned is of type
    file with size 0, below 100000, and the listing is the only call to
    the repository: no content fetch is attempted for it. *)
Lemma getRepositoryContent_empty_file_counterexample :
  ∃ result item,
    (getRepositoryContent exampleEnv (λ s, s) rootListing emptyFileWorld start).1
    = Returned result
    ∧ gc_items result = [item]
    ∧ item_type item = TFile
    ∧ item_size item = Some 0
    ∧ 0 < 100000
    ∧ issuedSince authenticated
        (getRepositoryContent exampleEnv (λ s, s) rootListing emptyFileWorld start).2
      = [contentCall rootListing EmptyString]
    ∧ contentCall rootListing (item_path item)
      ∉ issuedSince authenticated
          (getRepositoryContent exampleEnv (λ s, s) rootListing emptyFileWorld start).2.
Proof.
  eexists. eexists. split; [reflexivity|]. split; [reflexivity|].
  split; [reflexivity|]. split; [reflexivity|]. split; [lia|].
  split; [reflexivity|].
  intros Hin. apply list_elem_of_In in Hin. vm_compute in Hin.
  destruct Hin as [Heq|[]]. discriminate.
Qed.

End GitHubProofs.

(** ** The Notion tools *)

Module NotionProofs.
Import Credentials CredentialsSpec Notion NotionSpec.

Lemma firstPresent_head (properties : gmap string Property) (a : string)
      (r : list string) (p : Property) :
  properties !! a = Some p → firstPresent properties (a :: r) = Some p.
Proof. intros H. simpl. by rewrite H. Qed.

Lemma firstPresent_none (properties : gmap string Property) (aliases : list string) :
  noAlias properties aliases → firstPresent properties aliases = None.
Proof.
  induction aliases as [|a r IH]; intros H; simpl; [reflexivity|].
  rewrite (H a) by apply list_elem_of_here.
  apply IH. intros b Hb. apply H. by apply list_elem_of_further.
Qed.

(** C6. A page that holds a title under both "Title" and "Name" gets
    the title held under "Title"; a page with none of the title aliases
    is titled "Untitled", and a page with none of the status aliases has
    the status "Unknown". *)
Theorem pageToTask_alias_priority (page : Page) :
  (∀ fromTitle fromName,
     titleUnder (page_properties page) "Title" fromTitle →
     titleUnder (page_properties page) "Name" fromName →
     task_title (pageToTask page) = fromTitle)
  ∧ (noAlias (page_properties page) ["Title"; "Name"; "title"; "name"] →
     task_title (pageToTask page) = "Untitled"%string)
  ∧ (noAlias (page_properties page) ["Status"; "status"] →
     task_status (pageToTask page) = "Unknown"%string).
Proof.
  split; [|split].
  - intros fromTitle fromName (t & rest & Hlookup & Htext) _.
    simpl. unfold extractTitle, titleAliases.
    by rewrite (firstPresent_head _ _ _ _ Hlookup).
  - intros Hnone. simpl. unfold extractTitle, titleAliases.
    by rewrite firstPresent_none.
  - intros Hnone. simpl. unfold extractStatus, statusAliases.
    by rewrite firstPresent_none.
Qed.

(** The example page is titled under both aliases and gets the text
    under "Title". *)
Lemma pageToTask_alias_priority_witness :
  titleUnder (page_properties darkModePage) "Title" "Add dark mode"
  ∧ titleUnder (page_properties darkModePage) "Name" "dark mode (old name)"
  ∧ task_title (pageToTask darkModePage) = "Add dark mode"%string.
Proof.
  assert (H1 : titleUnder (page_properties darkModePage) "Title" "Add dark mode").
  { exists {| plain_text := "Add dark mode" |}, []. split; reflexivity. }
  assert (H2 : titleUnder (page_properties darkModePage) "Name" "dark mode (old name)").
  { exists {| plain_text := "dark mode (old name)" |}, []. split; reflexivity. }
  split; [exact H1|]. split; [exact H2|].
  exact (proj1 (pageToTask_alias_priority darkModePage) _ _ H1 H2).
Defined.

(** The board and the status asked for have no part in what
    [readKanbanBoard] does. *)
Lemma readKanbanBoard_ignores_arguments
    (env : ProcessEnv) (w : World) (st : State)
    (databaseId databaseId' : string) (statusFilter statusFilter' : option string) :
  readKanbanBoard env databaseId statusFilter w st
  = readKanbanBoard env databaseId' statusFilter' w st.
Proof. reflexivity. Qed.

(** C3 fails in the code.  Asked for the "To Do" tasks of [board-1],
    the tool returns every page the workspace search finds: here also a
    page of another database whose status is "Done". *)
Theorem readKanbanBoard_returns_unfiltered_pages :
  (readKanbanBoard exampleEnv "board-1" (Some "To Do"%string) workspace start).1
  = Returned [pageToTask darkModePage; pageToTask otherPage]
  ∧ task_status (pageToTask otherPage) = "Done"%string
  ∧ page_database otherPage = "wiki-9"%string.
Proof. split; [|split]; vm_compute; reflexivity. Qed.

End NotionProofs.

(** ** Strings *)

Module StringProofs.

Lemma startsWith_refl (s : string) : startsWith s s = true.
Proof. induction s as [|c s IH]; simpl; [reflexivity|]. by rewrite Ascii.eqb_refl. Qed.

(** A string includes what it ends with. *)
Lemma includes_suffix (p s : string) : includes (p ++ s)%string s = true.
Proof.
  induction p as [|c p IH]; simpl.
  - destruct s; simpl; [reflexivity|]. by rewrite Ascii.eqb_refl, startsWith_refl.
  - rewrite IH. apply orb_true_r.
Qed.

Lemma startsWith_prefix (s p : string) :
  startsWith s p = true ↔ ∃ post, s = (p ++ post)%string.
Proof.
  revert s. induction p as [|a p IH]; intros s.
  - split; [intros _; by exists s|intros _; by destruct s].
  - destruct s as [|b s]; simpl.
    + split; [discriminate|intros [post H]; discriminate].
    + rewrite andb_true_iff, Ascii.eqb_eq, IH. split.
      * intros [-> [post ->]]. by exists post.
      * intros [post [= -> ->]]. split; [reflexivity|by exists post].
Qed.

Lemma includes_nil (needle : string) :
  includes EmptyString needle = startsWith EmptyString needle.
Proof. simpl. apply orb_false_r. Qed.

Lemma includes_cons (c : ascii) (s needle : string) :
  includes (String c s) needle = startsWith (String c s) needle || includes s needle.
Proof. reflexivity. Qed.

Lemma includes_infix (s needle : string) :
  includes s needle = true ↔ ∃ pre post, s = (pre ++ needle ++ post)%string.
Proof.
  induction s as [|c s IH]; [rewrite includes_nil|rewrite includes_cons].
  - rewrite startsWith_prefix. split.
    + intros [post H]. by exists EmptyString, post.
    + intros (pre & post & H). destruct pre; [by exists post|discriminate].
  - rewrite orb_true_iff, startsWith_prefix, IH. split.
    + intros [[post H]|(pre & post & ->)].
      * by exists EmptyString, post.
      * by exists (String c pre), post.
    + intros (pre & post & H). destruct pre as [|c' pre]; simpl in H.
      * left. by exists post.
      * injection H as -> ->. right. by exists pre, post.
Qed.

Lemma toLowerCase_app (a b : string) :
  toLowerCase (a ++ b) = (toLowerCase a ++ toLowerCase b)%string.
Proof. induction a as [|c a IH]; simpl; [reflexivity|]. by rewrite IH. Qed.

Lemma toLowerCase_split (s a b : string) :
  toLowerCase s = (a ++ b)%string →
  ∃ x y, s = (x ++ y)%string ∧ toLowerCase x = a ∧ toLowerCase y = b.
Proof.
  revert s. induction a as [|c a IH]; intros s H; simpl in H.
  - by exists EmptyString, s.
  - destruct s as [|d s]; simpl in H; [discriminate|]. injection H as Hc H.
    destruct (IH _ H) as (x & y & -> & Hx & Hy).
    exists (String d x), y. simpl. by rewrite Hc, Hx.
Qed.

End StringProofs.

(** ** The task-discovery step *)

Module WorkflowProofs.
Import Regex Workflow StringProofs.

(** C7. When the agent invocation throws, the task-discovery step does
    not throw: it returns [tasksProcessed = 0], no completed task, and
    exactly one error string, which contains the message of what was
    thrown. *)
Theorem taskDiscoveryStep_catches_agent_failure (thrown : JsError) :
  ∃ result error,
    taskDiscoveryStep (Some (Thrown thrown)) = Returned result
    ∧ tasksProcessed result = Int 0
    ∧ completedTasks result = []
    ∧ errors result = [error]
    ∧ includes error (errorMessage thrown) = true.
Proof.
  eexists. eexists. split; [reflexivity|]. simpl.
  repeat split. apply includes_suffix.
Qed.

End WorkflowProofs.

(** ** The development tools *)

Module DevelopmentProofs.
Import Development.

Lemma fileIssues_info (p : IssueType → bool) (path : string) :
  p IssueInfo = false → countIssues p (Development.fileIssues path) = 0.
Proof.
  intros Hp. unfold countIssues, Development.fileIssues.
  destruct (_ || _), (includes path "component"); simpl; by rewrite ?Hp.
Qed.

Lemma unnamed_fileIssues_info (p : IssueType → bool) (path : string) :
  p IssueInfo = false → countIssues p (Unnamed.fileIssues path) = 0.
Proof.
  intros Hp. unfold countIssues, Unnamed.fileIssues.
  destruct (_ || _), (includes path "component"); simpl; by rewrite ?Hp.
Qed.

Lemma countIssues_app (p : IssueType → bool) (l1 l2 : list Issue) :
  countIssues p (l1 ++ l2) = countIssues p l1 + countIssues p l2.
Proof. unfold countIssues. rewrite List.filter_app, length_app. lia. Qed.

Lemma countIssues_concat (p : IssueType → bool) (f : string → list Issue)
      (paths : list string) :
  (∀ path, countIssues p (f path) = 0) →
  countIssues p (concat (map f paths)) = 0.
Proof.
  intros Hf. induction paths as [|path paths IH]; simpl; [reflexivity|].
  rewrite countIssues_app, Hf, IH. reflexivity.
Qed.

Lemma clamp_range (score : Z) : 0 ≤ clamp score ≤ 100.
Proof. unfold clamp. lia. Qed.

(** C10, as amended.  Both variants of [validateCodeQuality] return, for
    every list of paths, a report whose score is the clamped value of
    the computed one, hence within [0, 100] (93 for the registered
    variant, 98 for the other).  On the error path the variant of the
    unnamed source file returns a score of 0, and the registered variant
    of [developmentTools.ts] rethrows the error. *)
Theorem validateCodeQuality_score_range (filePaths : list string) (error : JsError) :
  (∃ report,
     Development.validateCodeQuality filePaths = Returned report
     ∧ qualityScore report
       = clamp (95 - (summary_errors (summary report) * 10
                      + summary_warnings (summary report) * 2))
     ∧ 0 ≤ qualityScore report ≤ 100
     ∧ qualityScore report = 93)
  ∧ (∃ report,
       Unnamed.validateCodeQuality filePaths = Returned report
       ∧ qualityScore report
         = clamp (100 - (summary_errors (summary report) * 10
                         + summary_warnings (summary report) * 2))
       ∧ 0 ≤ qualityScore report ≤ 100
       ∧ qualityScore report = 98)
  ∧ (∃ report,
       tryCatch (Thrown error) Unnamed.validateCodeQualityCatch = Returned report
       ∧ qualityScore report = 0)
  ∧ tryCatch (Thrown error) Development.validateCodeQualityCatch = Thrown error.
Proof.
  split; [|split; [|split]].
  - eexists. split; [reflexivity|]. simpl. split; [reflexivity|].
    split; [apply clamp_range|].
    rewrite !countIssues_app, !countIssues_concat
      by (intros; by apply fileIssues_info).
    reflexivity.
  - eexists. split; [reflexivity|]. simpl. split; [reflexivity|].
    split; [apply clamp_range|].
    rewrite !countIssues_app, !countIssues_concat
      by (intros; by apply unnamed_fileIssues_info).
    reflexivity.
  - eexists. split; reflexivity.
  - reflexivity.
Qed.

(** C10 as stated fails for the registered variant: its error path
    returns no score, it rethrows. *)
Lemma validateCodeQuality_rethrows_counterexample :
  ¬ ∃ report,
      tryCatch (Thrown (ErrorObj "disk failure")) Development.validateCodeQualityCatch
      = Returned report
      ∧ qualityScore report = 0.
Proof. intros (report & H & _). discriminate. Qed.

End DevelopmentProofs.

(** ** Error handling across the registry *)

Module RegistryProofs.
Import Credentials CredentialsSpec RegistrySpec.

(** A handler that returns a failure makes the tool recover. *)
Lemma try_catch_recovers {A} (success : A → bool) (body : M A)
      (handler : JsError → M A) (failure : JsError → A) :
  (∀ e, handler e = mret (failure e)) →
  (∀ e, success (failure e) = false) →
  recovers success (try_catch body handler) body.
Proof.
  intros Hh Hf w st. unfold try_catch, throwsM.
  destruct (body w st) as [[result|e] st'] eqn:Hbody; simpl.
  - exists result, st'. split; [reflexivity|]. discriminate.
  - rewrite Hh. exists (failure e), st'. split; [reflexivity|]. intros _. apply Hf.
Qed.

Lemma recovers_never_throws {A} (success : A → bool) (tool body : M A) w st :
  recovers success tool body → ¬ throwsM (tool w st).
Proof.
  intros H. destruct (H w st) as (result & st' & Hrun & _).
  unfold throwsM. rewrite Hrun. discriminate.
Qed.

Lemma try_catch_rethrows {A} (body : M A) :
  rethrows (try_catch body throw) body.
Proof. intros w st e st' H. unfold try_catch. by rewrite H. Qed.

(** The seven tools whose catch block builds a failure result. *)
Lemma github_notion_mutations_recover (env : ProcessEnv) :
  (∀ i, recovers GitHub.cb_success (GitHub.createBranch env i) (GitHub.createBranchTry env i))
  ∧ (∀ i, recovers GitHub.cc_success (GitHub.commitCode env i) (GitHub.commitCodeTry env i))
  ∧ (∀ i, recovers GitHub.pr_success (GitHub.createPullRequest env i)
            (GitHub.createPullRequestTry env i))
  ∧ (∀ decode i, recovers GitHub.gc_success (GitHub.getRepositoryContent env decode i)
                   (GitHub.getRepositoryContentTry env decode i))
  ∧ (∀ owner repo, recovers GitHub.lb_success (GitHub.listRepositoryBranches env owner repo)
                     (GitHub.listRepositoryBranchesTry env owner repo))
  ∧ (∀ pageId newStatus,
       recovers Notion.mu_success (Notion.updateTaskStatus env pageId newStatus)
         (Notion.updateTaskStatusTry env pageId newStatus))
  ∧ (∀ pageId comment,
       recovers Notion.mu_success (Notion.addTaskComment env pageId comment)
         (Notion.addTaskCommentTry env pageId comment)).
Proof.
  repeat split; intros;
    (eapply try_catch_recovers; [intros e; reflexivity | reflexivity]).
Qed.

(** C8, as amended.  The tools that can end in a throw are
    [readKanbanBoard], [queryTaskDetails] and [implementCodeChanges].
    The five GitHub tools and the two Notion mutation tools never throw
    and return [success = false] whenever their [try] block threw;
    [readKanbanBoard] and [queryTaskDetails] rethrow what their [try]
    block threw; the catch blocks of [analyzeCodebase],
    [implementCodeChanges] and [validateCodeQuality] rethrow too, and
    that of [runCodeTests] returns a report with status "failed". *)
Theorem tools_error_handling :
  (∀ t, canThrow t ↔ t = ReadKanbanBoard ∨ t = QueryTaskDetails ∨ t = ImplementCodeChanges)
  ∧ (∀ env,
       (∀ i, recovers GitHub.cb_success (GitHub.createBranch env i)
               (GitHub.createBranchTry env i))
       ∧ (∀ i, recovers GitHub.cc_success (GitHub.commitCode env i)
                 (GitHub.commitCodeTry env i))
       ∧ (∀ i, recovers GitHub.pr_success (GitHub.createPullRequest env i)
                 (GitHub.createPullRequestTry env i))
       ∧ (∀ decode i, recovers GitHub.gc_success (GitHub.getRepositoryContent env decode i)
                        (GitHub.getRepositoryContentTry env decode i))
       ∧ (∀ owner repo,
            recovers GitHub.lb_success (GitHub.listRepositoryBranches env owner repo)
              (GitHub.listRepositoryBranchesTry env owner repo))
       ∧ (∀ pageId newStatus,
            recovers Notion.mu_success (Notion.updateTaskStatus env pageId newStatus)
              (Notion.updateTaskStatusTry env pageId newStatus))
       ∧ (∀ pageId comment,
            recovers Notion.mu_success (Notion.addTaskComment env pageId comment)
              (Notion.addTaskCommentTry env pageId comment)))
  ∧ (∀ env databaseId statusFilter,
       rethrows (Notion.readKanbanBoard env databaseId statusFilter)
         (Notion.readKanbanBoardTry env databaseId statusFilter))
  ∧ (∀ env pageId,
       rethrows (Notion.queryTaskDetails env pageId) (Notion.queryTaskDetailsTry env pageId))
  ∧ (∀ error,
       Development.analyzeCodebaseCatch error = Thrown error
       ∧ Development.implementCodeChangesCatch error = Thrown error
       ∧ Development.validateCodeQualityCatch error = Thrown error
       ∧ ∃ report,
           Development.runCodeTestsCatch error = Returned report
           ∧ Development.report_status report = "failed"%string).
Proof.
  split; [|split; [exact github_notion_mutations_recover|]].
  - intros t. split.
    + destruct t; simpl; auto.
      * intros (env & pageId & newStatus & w & st & H). exfalso. revert H.
        eapply recovers_never_throws, (github_notion_mutations_recover env).
      * intros (env & pageId & comment & w & st & H). exfalso. revert H.
        eapply recovers_never_throws, (github_notion_mutations_recover env).
      * intros (env & i & w & st & H). exfalso. revert H.
        eapply recovers_never_throws, (github_notion_mutations_recover env).
      * intros (env & i & w & st & H). exfalso. revert H.
        eapply recovers_never_throws, (github_notion_mutations_recover env).
      * intros (env & i & w & st & H). exfalso. revert H.
        eapply recovers_never_throws, (github_notion_mutations_recover env).
      * intros (env & decode & i & w & st & H). exfalso. revert H.
        eapply recovers_never_throws, (github_notion_mutations_recover env).
      * intros (env & owner & repo & w & st & H). exfalso. revert H.
        eapply recovers_never_throws, (github_notion_mutations_recover env).
      * intros (path & areas & H). discriminate H.
      * intros (files & coverage & H). discriminate H.
      * intros (paths & H). discriminate H.
    + intros [->|[->| ->]]; simpl.
      * exists noIdentity, EmptyString, None, deadWorld, start. reflexivity.
      * exists noIdentity, EmptyString, deadWorld, start. reflexivity.
      * exists cleanup. reflexivity.
  - split; [|split].
    + intros env databaseId statusFilter. apply try_catch_rethrows.
    + intros env pageId. apply try_catch_rethrows.
    + intros error. repeat split. eexists. split; reflexivity.
Qed.

(** C8 as stated fails: [implementCodeChanges], which is neither of the
    two named tools, throws on a task it blocks as destructive. *)
Lemma implementCodeChanges_throws_counterexample :
  Development.implementCodeChanges cleanup = Thrown Development.safetyBlock
  ∧ ¬ (∀ t, canThrow t → t = ReadKanbanBoard ∨ t = QueryTaskDetails).
Proof.
  split; [reflexivity|]. intros H.
  destruct (H ImplementCodeChanges (ex_intro _ cleanup eq_refl)); discriminate.
Qed.

End RegistryProofs.

(** ** The matcher against the language of a regular expression *)

Module RegexProofs.
Import Regex RegexSpec.

Lemma consumed_app (w rest : list ascii) : consumed (w ++ rest) rest = w.
Proof.
  unfold consumed. rewrite length_app.
  replace (length w + length rest - length rest)%nat with (length w) by lia.
  apply take_app_length.
Qed.

Section Continuations.
Context {R : Type}.
Implicit Types (k : list ascii → option R) (K : list ascii → Captures → option R).

Lemma str_sound l s k x :
  str l s k = Some x →
  ∃ w s', s = w ++ s'
          ∧ Forall2 (λ p c, atomMatches (Chr p) c = true) l w
          ∧ k s' = Some x.
Proof.
  revert s. induction l as [|p l IH]; intros s H; simpl in H.
  - exists [], s. repeat split; [constructor|exact H].
  - destruct s as [|c s]; [discriminate|].
    destruct (Ascii.eqb (canonicalize p) (canonicalize c)) eqn:Hc; [|discriminate].
    destruct (IH _ H) as (w & s' & -> & Hw & Hk).
    exists (c :: w), s'. repeat split; [by constructor|exact Hk].
Qed.

Lemma str_complete l w s' k :
  Forall2 (λ p c, atomMatches (Chr p) c = true) l w →
  str l (w ++ s') k = k s'.
Proof.
  induction 1 as [|p c l w Hc _ IH]; simpl; [reflexivity|].
  change (Ascii.eqb (canonicalize p) (canonicalize c))
    with (atomMatches (Chr p) c).
  by rewrite Hc.
Qed.

Lemma star_sound a s k x :
  star a s k = Some x →
  ∃ w s', s = w ++ s' ∧ Forall (λ c, atomMatches a c = true) w ∧ k s' = Some x.
Proof.
  induction s as [|c s IH]; simpl; intros H.
  - exists [], []. repeat split; [constructor|exact H].
  - destruct (atomMatches a c) eqn:Hc.
    + destruct (star a s k) as [y|] eqn:Hs.
      * injection H as ->. destruct (IH eq_refl) as (w & s' & -> & Hw & Hk).
        exists (c :: w), s'. repeat split; [by constructor|exact Hk].
      * exists [], (c :: s). repeat split; [constructor|exact H].
    + exists [], (c :: s). repeat split; [constructor|exact H].
Qed.

Lemma star_complete a w s' k :
  Forall (λ c, atomMatches a c = true) w →
  is_Some (k s') → is_Some (star a (w ++ s') k).
Proof.
  intros Hw Hk. induction Hw as [|c w Hc _ IH]; simpl.
  - destruct s' as [|c s']; simpl; [exact Hk|].
    destruct (atomMatches a c); [|exact Hk].
    destruct (star a s' k); [by eexists|exact Hk].
  - rewrite Hc. destruct IH as [y ->]. by eexists.
Qed.

(** Before a continuation that accepts anything, the iteration takes
    every character it can. *)
Lemma star_greedy a s k :
  (∀ s', is_Some (k s')) → star a s k = k (dropWhile (atomMatches a) s).
Proof.
  intros Hk. induction s as [|c s IH]; simpl; [reflexivity|].
  destruct (atomMatches a c); [|reflexivity].
  rewrite IH. by destruct (Hk (dropWhile (atomMatches a) s)) as [y ->].
Qed.

Lemma run_sound r s caps K x :
  run r s caps K = Some x →
  ∃ w s' caps', s = w ++ s' ∧ Matches r w caps caps' ∧ K s' caps' = Some x.
Proof.
  revert s caps K. induction r as [a|l|r1 IH1 r2 IH2|r1 IH1 r2 IH2|r IH|a|a|n r IH];
    intros s caps K H; simpl in H.
  - destruct s as [|c s]; [discriminate|].
    destruct (atomMatches a c) eqn:Hc; [|discriminate].
    exists [c], s, caps. repeat split; [by constructor|exact H].
  - destruct (str_sound _ _ _ _ H) as (w & s' & -> & Hw & Hk).
    exists w, s', caps. repeat split; [by constructor|exact Hk].
  - destruct (IH1 _ _ _ H) as (w1 & s1 & caps1 & -> & H1 & H').
    destruct (IH2 _ _ _ H') as (w2 & s2 & caps2 & -> & H2 & Hk).
    exists (w1 ++ w2), s2, caps2. rewrite <- app_assoc.
    repeat split; [by econstructor|exact Hk].
  - destruct (run r1 s caps K) as [y|] eqn:H1.
    + injection H as ->. destruct (IH1 _ _ _ H1) as (w & s' & caps' & -> & Hm & Hk).
      exists w, s', caps'. repeat split; [by apply M_alt_l|exact Hk].
    + destruct (IH2 _ _ _ H) as (w & s' & caps' & -> & Hm & Hk).
      exists w, s', caps'. repeat split; [by apply M_alt_r|exact Hk].
  - destruct (run r s caps K) as [y|] eqn:H1.
    + injection H as ->. destruct (IH _ _ _ H1) as (w & s' & caps' & -> & Hm & Hk).
      exists w, s', caps'. repeat split; [by apply M_opt_take|exact Hk].
    + exists [], s, caps. repeat split; [apply M_opt_skip|exact H].
  - destruct (star_sound _ _ _ _ H) as (w & s' & -> & Hw & Hk).
    exists w, s', caps. repeat split; [by constructor|exact Hk].
  - destruct s as [|c s]; [discriminate|].
    destruct (atomMatches a c) eqn:Hc; [|discriminate].
    destruct (star_sound _ _ _ _ H) as (w & s' & -> & Hw & Hk).
    exists (c :: w), s', caps. repeat split; [|exact Hk].
    apply M_plus; [discriminate|by constructor].
  - destruct (IH _ _ _ H) as (w & s' & caps' & -> & Hm & Hk).
    rewrite consumed_app in Hk.
    exists w, s', ((n, w) :: caps'). repeat split; [by constructor|exact Hk].
Qed.

Lemma run_complete r w caps0 caps1 :
  Matches r w caps0 caps1 →
  ∀ caps s' K, (∀ c, is_Some (K s' c)) → is_Some (run r (w ++ s') caps K).
Proof.
  induction 1 as [a c caps0 Hc|l w caps0 Hw|r1 r2 w1 w2 c0 c1 c2 _ IH1 _ IH2
                  |r1 r2 w c0 c1 _ IH|r1 r2 w c0 c1 _ IH|r caps0|r w c0 c1 _ IH
                  |a w caps0 Hw|a w caps0 Hne Hw|n r w c0 c1 _ IH];
    intros caps s' K HK; simpl.
  - rewrite Hc. apply HK.
  - rewrite str_complete by exact Hw. apply HK.
  - rewrite <- app_assoc. apply IH1. intros c. apply IH2, HK.
  - destruct (IH caps s' K HK) as [y ->]. by eexists.
  - destruct (run r1 (w ++ s') caps K); [by eexists|]. apply IH, HK.
  - destruct (run r s' caps K); [by eexists|]. apply HK.
  - destruct (IH caps s' K HK) as [y ->]. by eexists.
  - apply star_complete; [exact Hw|apply HK].
  - destruct Hw as [|c w Hc Hw]; [done|]. simpl. rewrite Hc.
    apply star_complete; [exact Hw|apply HK].
  - apply IH. intros c. apply HK.
Qed.
End Continuations.

(** The shape of a match, by the shape of the expression. *)
Lemma Matches_one a w c0 c1 :
  Matches (One a) w c0 c1 → ∃ c, w = [c] ∧ atomMatches a c = true ∧ c1 = c0.
Proof. inversion 1; subst. eauto. Qed.

Lemma Matches_str l w c0 c1 :
  Matches (Str l) w c0 c1 →
  Forall2 (λ p c, atomMatches (Chr p) c = true) l w ∧ c1 = c0.
Proof. inversion 1; subst. eauto. Qed.

Lemma Matches_seq r1 r2 w c0 c2 :
  Matches (Seq r1 r2) w c0 c2 →
  ∃ w1 w2 c1, w = w1 ++ w2 ∧ Matches r1 w1 c0 c1 ∧ Matches r2 w2 c1 c2.
Proof. inversion 1; subst. eauto 10. Qed.

Lemma Matches_alt r1 r2 w c0 c1 :
  Matches (Alt r1 r2) w c0 c1 → Matches r1 w c0 c1 ∨ Matches r2 w c0 c1.
Proof. inversion 1; subst; eauto. Qed.

Lemma Matches_opt r w c0 c1 :
  Matches (Opt r) w c0 c1 → (w = [] ∧ c1 = c0) ∨ Matches r w c0 c1.
Proof. inversion 1; subst; eauto. Qed.

Lemma Matches_star a w c0 c1 :
  Matches (Star a) w c0 c1 → Forall (λ c, atomMatches a c = true) w ∧ c1 = c0.
Proof. inversion 1; subst. eauto. Qed.

Lemma Matches_plus a w c0 c1 :
  Matches (Plus a) w c0 c1 →
  w ≠ [] ∧ Forall (λ c, atomMatches a c = true) w ∧ c1 = c0.
Proof. inversion 1; subst. eauto. Qed.

Lemma Matches_group n r w c0 c :
  Matches (Group n r) w c0 c → ∃ c1, c = (n, w) :: c1 ∧ Matches r w c0 c1.
Proof. inversion 1; subst. eauto. Qed.

(** An anchored match returns a word of the language and what follows it. *)
Lemma matchAt_sound r s m :
  matchAt r s = Some m →
  s = matched m ++ after m ∧ Matches r (matched m) [] (captures m).
Proof.
  unfold matchAt. intros H.
  destruct (run_sound _ _ _ _ _ H) as (w & s' & caps' & -> & Hm & Hk).
  rewrite consumed_app in Hk. injection Hk as <-. simpl. done.
Qed.

(** An anchored match succeeds wherever a word of the language begins. *)
Lemma matchAt_complete r w caps0 caps1 rest :
  Matches r w caps0 caps1 → is_Some (matchAt r (w ++ rest)).
Proof.
  intros H. unfold matchAt. eapply run_complete; [exact H|].
  intros c. by eexists.
Qed.

(** [exec] returns the anchored match at the first position that has one. *)
Lemma exec_Some r s m :
  exec r s = Some m →
  ∃ pre,
    s = pre ++ matched m ++ after m
    ∧ matchAt r (matched m ++ after m) = Some m
    ∧ ∀ pre1 s1, s = pre1 ++ s1 → (length pre1 < length pre)%nat → matchAt r s1 = None.
Proof.
  induction s as [|c s IH]; simpl; intros H.
  - destruct (matchAt r []) as [m'|] eqn:Hm; [|discriminate]. injection H as ->.
    destruct (matchAt_sound _ _ _ Hm) as [Hs _].
    exists []. simpl. rewrite <- Hs. repeat split; [exact Hm|].
    intros pre1 s1 _ Hlt. simpl in Hlt. lia.
  - destruct (matchAt r (c :: s)) as [m'|] eqn:Hm.
    + injection H as ->. destruct (matchAt_sound _ _ _ Hm) as [Hs _].
      exists []. simpl. rewrite <- Hs. repeat split; [exact Hm|].
      intros pre1 s1 _ Hlt. simpl in Hlt. lia.
    + destruct (IH H) as (pre & -> & Hat & Hbefore).
      exists (c :: pre). repeat split; [exact Hat|].
      intros [|c1 pre1] s1 Heq Hlt; simpl in *.
      * by subst s1.
      * injection Heq as -> Heq. apply (Hbefore pre1 s1 Heq). lia.
Qed.

Lemma exec_None r s :
  exec r s = None → ∀ pre s1, s = pre ++ s1 → matchAt r s1 = None.
Proof.
  induction s as [|c s IH]; simpl; intros H pre s1 Heq.
  - destruct pre; [|discriminate]. simpl in Heq. subst s1.
    by destruct (matchAt r []).
  - destruct (matchAt r (c :: s)) eqn:Hm; [discriminate|].
    destruct pre as [|c1 pre]; simpl in Heq.
    + by subst s1.
    + injection Heq as -> Heq. by apply (IH H pre).
Qed.

Lemma exec_first r pre s1 m :
  (∀ pre1 s2, pre ++ s1 = pre1 ++ s2 → (length pre1 < length pre)%nat →
              matchAt r s2 = None) →
  matchAt r s1 = Some m →
  exec r (pre ++ s1) = Some m.
Proof.
  induction pre as [|c pre IH]; simpl; intros Hbefore Hm.
  - destruct s1; simpl; by rewrite Hm.
  - rewrite (Hbefore [] (c :: pre ++ s1)) by (simpl; done || lia).
    apply IH; [|exact Hm].
    intros pre1 s2 Heq Hlt. apply (Hbefore (c :: pre1) s2); simpl; [by f_equal|lia].
Qed.

End RegexProofs.

(** ** The agent's answer, read by the task-discovery step *)

Module AnswerProofs.
Import Regex RegexSpec RegexProofs Workflow WorkflowSpec StringProofs.

Ltac invert H := inversion H; subst; clear H.

Ltac each_char c := destruct c as [[] [] [] [] [] [] [] []].

Lemma space_not_digit c : isSpace c = true → isDigit c = false.
Proof. each_char c; vm_compute; congruence. Qed.

Lemma t_not_digit c : sameLetter "t" c → isDigit c = false.
Proof. unfold sameLetter. each_char c; vm_compute; congruence. Qed.

Lemma sameLetter_matches p c : sameLetter p c ↔ atomMatches (Chr p) c = true.
Proof. unfold sameLetter. simpl. symmetry. apply Ascii.eqb_eq. Qed.

Lemma spells_matches word w :
  spells word w ↔ Forall2 (λ p c, atomMatches (Chr p) c = true) (chars word) w.
Proof.
  unfold spells.
  split; intros H; (eapply Forall2_impl; [exact H|]); intros p c; apply sameLetter_matches.
Qed.

Lemma takeWhile_all (p : ascii → bool) (ds tail : list ascii) :
  Forall (λ c, p c = true) ds →
  (∀ c r, tail = c :: r → p c = false) →
  takeWhile p (ds ++ tail) = ds.
Proof.
  intros Hds Htail. induction Hds as [|c ds Hc _ IH]; simpl.
  - destruct tail as [|c r]; [reflexivity|]. simpl. by rewrite (Htail c r).
  - by rewrite Hc, IH.
Qed.

(** Below 2^53 a natural number is its own double. *)
Lemma toDouble_exact (n : Z) : n < 2 ^ 53 → toDouble n = Int n.
Proof.
  intros Hn. unfold toDouble.
  destruct (Z.ltb_spec n (2 ^ 53)) as [_|Hge]; [reflexivity|].
  exfalso. apply (Z.lt_irrefl n). eapply Z.lt_le_trans; [exact Hn|exact Hge].
Qed.

Lemma parseInt_digits ds : digits ds → parseInt ds = toDouble (decimal ds).
Proof.
  intros [Hne Hds]. unfold parseInt.
  rewrite <- (app_nil_r ds) at 1. rewrite takeWhile_all; [|exact Hds|discriminate].
  by destruct ds.
Qed.

(** *** The task count *)

Lemma optional_s w c0 c1 :
  Matches (Opt (One (Chr "s"))) w c0 c1 → (w = [] ∨ spells "s" w) ∧ c1 = c0.
Proof.
  intros [[-> ->]|(c & -> & Hc & ->)%Matches_one]%Matches_opt; [by split; [left|]|].
  split; [right|reflexivity]. apply spells_matches. by repeat constructor.
Qed.

Lemma tasksProcessedRe_phrase w caps :
  Matches tasksProcessedRe w [] caps →
  ∃ ds, taskPhrase ds w ∧ group 1 caps = Some ds.
Proof.
  unfold tasksProcessedRe.
  intros (ds & w1 & c1 & -> & Hds & H)%Matches_seq.
  apply Matches_group in Hds as (c0 & -> & (Hne & Hds & ->)%Matches_plus).
  apply Matches_seq in H as (ws1 & w2 & c2 & -> & (Hws1 & ->)%Matches_star & H).
  apply Matches_seq in H as (t & w3 & c3 & -> & (Ht & ->)%Matches_str & H).
  apply Matches_seq in H as (s & w4 & c4 & -> & (Hs & ->)%optional_s & H).
  apply Matches_seq in H as (ws2 & v & c5 & -> & (Hws2 & ->)%Matches_star & H).
  apply Matches_group in H as (c6 & -> & Hv).
  assert (Hverb : (spells "processed" v ∨ spells "completed" v ∨ spells "handled" v)
                  ∧ c6 = [(1%nat, ds)]).
  { apply Matches_alt in Hv as [Hv|[Hv|Hv]%Matches_alt];
      apply Matches_str in Hv as [Hv ->]; apply spells_matches in Hv; auto. }
  destruct Hverb as [Hverb ->].
  exists ds. split; [|reflexivity].
  exists ws1, t, s, ws2, v. repeat split; auto.
  by apply spells_matches.
Qed.

Lemma phrase_tasksProcessedRe ds w :
  taskPhrase ds w → ∃ caps, Matches tasksProcessedRe w [] caps.
Proof.
  intros (ws1 & t & s & ws2 & v & -> & [Hne Hds] & Hws1 & Ht & Hs & Hws2 & Hv).
  eexists. unfold tasksProcessedRe.
  apply M_seq with (caps1 := [(1%nat, ds)]); [by apply M_group, M_plus|].
  eapply M_seq; [by apply M_star|].
  eapply M_seq; [by apply M_str, spells_matches|].
  eapply M_seq.
  { destruct Hs as [->|Hs]; [apply M_opt_skip|].
    apply M_opt_take. apply spells_matches in Hs.
    inversion Hs as [|? c ? r Hc Hr]; subst. inversion Hr; subst. by apply M_one. }
  eapply M_seq; [by apply M_star|].
  apply M_group.
  destruct Hv as [Hv|[Hv|Hv]]; apply spells_matches in Hv;
    [apply M_alt_l|apply M_alt_r, M_alt_l|apply M_alt_r, M_alt_r]; by apply M_str.
Qed.

(** The number of a phrase is the whole run of digits it begins with. *)
Lemma taskPhrase_number ds w post :
  taskPhrase ds w → takeWhile isDigit (w ++ post) = ds.
Proof.
  intros (ws1 & t & s & ws2 & v & -> & [Hne Hds] & Hws1 & Ht & _).
  rewrite <- app_assoc. apply takeWhile_all; [exact Hds|].
  intros c r Heq. destruct Hws1 as [|c1 ws1 Hc1 _]; simpl in Heq.
  - inversion Ht as [|? c2 ? t' Hc2 _]; subst. simpl in Heq. injection Heq as -> _.
    by apply t_not_digit.
  - injection Heq as -> _. by apply space_not_digit.
Qed.

Lemma countTasks_first (agentResponse : string) (ds : list ascii) :
  firstTaskPhrase (chars agentResponse) ds →
  countTasks agentResponse = toDouble (decimal ds).
Proof.
  intros (pre & w & post & Htext & Hphrase & Hfirst).
  destruct (phrase_tasksProcessedRe _ _ Hphrase) as (caps & Hmatch).
  destruct (matchAt_complete _ _ _ _ post Hmatch) as [m Hm].
  assert (Hexec : exec tasksProcessedRe (chars agentResponse) = Some m).
  { rewrite Htext. apply exec_first; [|exact Hm].
    intros pre1 s2 Heq Hlt.
    destruct (matchAt tasksProcessedRe s2) as [m2|] eqn:Hm2; [|reflexivity].
    exfalso. destruct (matchAt_sound _ _ _ Hm2) as [Hs2 Hlang].
    destruct (tasksProcessedRe_phrase _ _ Hlang) as (ds2 & Hphrase2 & _).
    assert (length pre ≤ length pre1)%nat; [|lia].
    apply (Hfirst pre1 ds2 (matched m2) (after m2)); [|exact Hphrase2].
    by rewrite Htext, Heq, Hs2. }
  unfold countTasks. rewrite Hexec.
  destruct (matchAt_sound _ _ _ Hm) as [Hs Hlang].
  destruct (tasksProcessedRe_phrase _ _ Hlang) as (ds2 & Hphrase2 & ->). simpl.
  assert (ds2 = ds) as ->.
  { rewrite <- (taskPhrase_number ds2 (matched m) (after m) Hphrase2), <- Hs.
    by apply taskPhrase_number. }
  apply parseInt_digits. by destruct Hphrase as (? & ? & ? & ? & ? & _ & ? & _).
Qed.

Lemma countTasks_none (agentResponse : string) :
  noTaskPhrase (chars agentResponse) → countTasks agentResponse = Int 0.
Proof.
  intros Hnone. unfold countTasks.
  destruct (exec tasksProcessedRe (chars agentResponse)) as [m|] eqn:Hexec; [|reflexivity].
  exfalso. destruct (exec_Some _ _ _ Hexec) as (pre & Htext & Hm & _).
  destruct (matchAt_sound _ _ _ Hm) as [_ Hlang].
  destruct (tasksProcessedRe_phrase _ _ Hlang) as (ds & Hphrase & _).
  exact (Hnone pre ds (matched m) (after m) Htext Hphrase).
Qed.

(** *** The pull requests mentioned *)

Lemma optional_hash w c0 c1 :
  Matches (Opt (One (Chr "#"))) w c0 c1 → (w = [] ∨ w = chars "#") ∧ c1 = c0.
Proof.
  intros [[-> ->]|(c & -> & Hc & ->)%Matches_one]%Matches_opt; [by split; [left|]|].
  split; [right|reflexivity]. revert Hc. each_char c; vm_compute; congruence.
Qed.

Lemma pullRequestRe_phrase w caps :
  Matches pullRequestRe w [] caps → pullRequestPhrase w.
Proof.
  unfold pullRequestRe.
  intros (p & w1 & c1 & -> & (Hp & ->)%Matches_str & H)%Matches_seq.
  apply Matches_seq in H as (s & w2 & c2 & -> & (Hs & ->)%optional_s & H).
  apply Matches_seq in H as (ws & w3 & c3 & -> & (Hws & ->)%Matches_star & H).
  apply Matches_seq in H as (h & ds & c4 & -> & (Hh & ->)%optional_hash & H).
  apply Matches_group in H as (c5 & -> & (Hne & Hds & ->)%Matches_plus).
  exists p, s, ws, h, ds. repeat split; auto. by apply spells_matches.
Qed.

Lemma phrase_pullRequestRe w :
  pullRequestPhrase w → ∃ caps, Matches pullRequestRe w [] caps.
Proof.
  intros (p & s & ws & h & ds & -> & Hp & Hs & Hws & Hh & [Hne Hds]).
  eexists. unfold pullRequestRe.
  eapply M_seq; [by apply M_str, spells_matches|].
  eapply M_seq.
  { destruct Hs as [->|Hs]; [apply M_opt_skip|].
    apply M_opt_take. apply spells_matches in Hs.
    inversion Hs as [|? c ? r Hc Hr]; subst. inversion Hr; subst. by apply M_one. }
  eapply M_seq; [by apply M_star|].
  eapply M_seq.
  { destruct Hh as [->| ->]; [apply M_opt_skip|]. by apply M_opt_take, M_one. }
  by apply M_group, M_plus.
Qed.

Lemma dropWhile_head (p : ascii → bool) s c r :
  dropWhile p s = c :: r → p c = false.
Proof.
  induction s as [|c' s IH]; simpl; [discriminate|].
  destruct (p c') eqn:Hc; [exact IH|]. by intros [= -> _].
Qed.

Lemma run_seq {R} r1 r2 s caps (K : list ascii → Captures → option R) x :
  run (Seq r1 r2) s caps K = Some x →
  ∃ s1 caps1, run r2 s1 caps1 K = Some x.
Proof.
  intros H. change (run r1 s caps (λ s1 caps1, run r2 s1 caps1 K) = Some x) in H.
  apply run_sound in H as (w & s1 & caps1 & _ & _ & H). eauto.
Qed.

(** The match takes the whole number: no digit follows it. *)
Lemma matchAt_pullRequest_whole s m :
  matchAt pullRequestRe s = Some m → ∀ c r, after m = c :: r → isDigit c = false.
Proof.
  unfold matchAt, pullRequestRe. intros H.
  apply run_seq in H as (s1 & c1 & H). apply run_seq in H as (s2 & c2 & H).
  apply run_seq in H as (s3 & c3 & H). apply run_seq in H as (s4 & c4 & H).
  simpl in H. destruct s4 as [|d s5]; [discriminate|].
  destruct (isDigit d); [|discriminate].
  rewrite star_greedy in H by (intros; by eexists).
  injection H as <-. simpl. intros c r. apply (dropWhile_head (atomMatches Digit)).
Qed.

Lemma spells_notP (l w : list ascii) :
  Forall (λ x, canonicalize x ≠ canonicalize "p") l →
  Forall2 sameLetter l w → Forall notP w.
Proof.
  intros Hl Hw. induction Hw as [|x c l w Hxc _ IH]; [constructor|].
  inversion Hl as [|? ? Hx Hl']; subst. constructor; [|by apply IH].
  unfold notP, sameLetter in *. congruence.
Qed.

Lemma space_notP c : isSpace c = true → notP c.
Proof. unfold notP, sameLetter. each_char c; vm_compute; congruence. Qed.

Lemma digit_notP c : isDigit c = true → notP c.
Proof. unfold notP, sameLetter. each_char c; vm_compute; congruence. Qed.

(** After its first character, a phrase holds no "p", in either case. *)
Lemma pullRequestPhrase_shape w :
  pullRequestPhrase w → ∃ c tl, w = c :: tl ∧ sameLetter "p" c ∧ Forall notP tl.
Proof.
  intros (p & s & ws & h & ds & -> & Hp & Hs & Hws & Hh & [_ Hds]).
  unfold spells, chars in Hp. simpl in Hp.
  inversion Hp as [|? c ? tl Hc Htl]; subst.
  exists c, (tl ++ s ++ ws ++ h ++ ds). split; [reflexivity|]. split; [exact Hc|].
  repeat apply Forall_app_2.
  - eapply spells_notP; [|exact Htl]. repeat constructor; vm_compute; discriminate.
  - destruct Hs as [->|Hs]; [constructor|].
    eapply spells_notP; [|exact Hs]. repeat constructor; vm_compute; discriminate.
  - eapply Forall_impl; [exact Hws|]. apply space_notP.
  - destruct Hh as [->| ->]; [constructor|].
    repeat constructor. unfold notP, sameLetter. vm_compute. discriminate.
  - eapply Forall_impl; [exact Hds|]. apply digit_notP.
Qed.

Lemma notP_noMention c s : notP c → noMentionAt (c :: s).
Proof.
  intros Hc w rest Heq Hphrase.
  destruct (pullRequestPhrase_shape _ Hphrase) as (c' & tl & -> & Hp & _).
  simpl in Heq. injection Heq as -> _. by apply Hc.
Qed.

Lemma unmatched_noMention s :
  matchAt pullRequestRe s = None → noMentionAt s.
Proof.
  intros Hnone w rest -> Hphrase.
  destruct (phrase_pullRequestRe _ Hphrase) as (caps & Hmatch).
  destruct (matchAt_complete _ _ _ _ rest Hmatch) as [m Hm]. congruence.
Qed.

Lemma mentions_inside tl rest l :
  Forall notP tl → mentions rest l → mentions (tl ++ rest) l.
Proof.
  intros Htl Hrest. induction Htl as [|c tl Hc _ IH]; simpl; [exact Hrest|].
  apply mentions_skip; [by apply notP_noMention|exact IH].
Qed.

Lemma mentions_before pre s1 l :
  (∀ pre1 s2, pre ++ s1 = pre1 ++ s2 → (length pre1 < length pre)%nat →
              matchAt pullRequestRe s2 = None) →
  mentions s1 l → mentions (pre ++ s1) l.
Proof.
  induction pre as [|c pre IH]; simpl; intros Hbefore Hs1; [exact Hs1|].
  apply mentions_skip.
  - apply unmatched_noMention, (Hbefore [] (c :: pre ++ s1)); simpl; [done|lia].
  - apply IH; [|exact Hs1]. intros pre1 s2 Heq Hlt.
    apply (Hbefore (c :: pre1) s2); simpl; [by f_equal|lia].
Qed.

Lemma mentions_none s :
  (∀ pre s1, s = pre ++ s1 → matchAt pullRequestRe s1 = None) → mentions s [].
Proof.
  intros Hnone. rewrite <- (app_nil_r s).
  apply mentions_before; [|constructor].
  intros pre1 s2 Heq _. apply (Hnone pre1 s2). by rewrite app_nil_r in Heq.
Qed.

(** The matches found in turn are the phrases of the text, one for each
    position at which a phrase begins. *)
Lemma matchesFrom_mentions fuel s :
  (length s < fuel)%nat → mentions s (matchesFrom fuel pullRequestRe s).
Proof.
  revert s. induction fuel as [|fuel IH]; intros s Hlt; [lia|]. simpl.
  destruct (exec pullRequestRe s) as [m|] eqn:Hexec.
  2:{ apply mentions_none. by apply exec_None. }
  destruct (exec_Some _ _ _ Hexec) as (pre & Hs & Hm & Hbefore).
  destruct (matchAt_sound _ _ _ Hm) as [_ Hlang].
  pose proof (pullRequestRe_phrase _ _ Hlang) as Hphrase.
  destruct (pullRequestPhrase_shape _ Hphrase) as (c & tl & Hw & _ & Htl).
  rewrite Hw in *. subst s. rewrite !length_app in Hlt. simpl in Hlt.
  apply mentions_before.
  { intros pre1 s2 Heq Hl. by apply (Hbefore pre1 s2). }
  simpl. apply mentions_hit.
  - split; [exact Hphrase|]. exists (after m). split; [reflexivity|].
    by apply (matchAt_pullRequest_whole _ _ Hm).
  - apply mentions_inside; [exact Htl|]. apply IH. lia.
Qed.

(** A run of characters of one class, ended by a character outside the
    class, is read in one way only. *)
Lemma run_unique (p : ascii → bool) (a a' x x' : list ascii) :
  Forall (λ c, p c = true) a → Forall (λ c, p c = true) a' →
  (∀ c r, x = c :: r → p c = false) →
  (∀ c r, x' = c :: r → p c = false) →
  a ++ x = a' ++ x' → a = a' ∧ x = x'.
Proof.
  intros Ha. revert a'. induction Ha as [|c a Hc _ IH]; intros a' Ha' Hx Hx' Heq.
  - destruct Ha' as [|c' a' Hc' _]; [done|]. simpl in Heq.
    rewrite (Hx c' (a' ++ x')) in Hc' by done. discriminate.
  - destruct Ha' as [|c' a' Hc' Ha']; simpl in Heq.
    + rewrite (Hx' c (a ++ x)) in Hc by done. discriminate.
    + injection Heq as -> Heq. destruct (IH a' Ha' Hx Hx' Heq) as [-> ->]. done.
Qed.

Lemma hash_not_space_digit c :
  c = "#"%char → isSpace c = false ∧ isDigit c = false ∧ ¬ sameLetter "s" c.
Proof. intros ->. unfold sameLetter. repeat split; vm_compute; congruence. Qed.

Lemma space_not_s c : isSpace c = true → ¬ sameLetter "s" c ∧ c ≠ "#"%char.
Proof. unfold sameLetter. each_char c; vm_compute; split; congruence. Qed.

Lemma digit_not_s c :
  isDigit c = true → ¬ sameLetter "s" c ∧ c ≠ "#"%char ∧ isSpace c = false.
Proof. unfold sameLetter. each_char c; vm_compute; repeat split; congruence. Qed.

Lemma phraseTail_unique w w' rest rest' :
  phraseTail w → phraseTail w' →
  (∀ c r, rest = c :: r → isDigit c = false) →
  (∀ c r, rest' = c :: r → isDigit c = false) →
  w ++ rest = w' ++ rest' → w = w'.
Proof.
  intros (s & ws & h & ds & -> & Hs & Hws & Hh & [Hne Hds])
         (s' & ws' & h' & ds' & -> & Hs' & Hws' & Hh' & [Hne' Hds']) Hrest Hrest' Heq.
  rewrite <- !app_assoc in Heq.
  (* the first character after the optional "s" is a space, "#" or a digit *)
  assert (Hnext : ∀ ws h ds rest c r,
            spaces ws → (h = [] ∨ h = chars "#") → digits ds →
            ws ++ h ++ ds ++ rest = c :: r → ¬ sameLetter "s" c).
  { intros ws0 h0 ds0 rest0 c r Hw0 Hh0 [Hn0 Hd0] H0.
    destruct Hw0 as [|c0 ws0 Hc0 _]; simpl in H0.
    - destruct Hh0 as [->| ->]; simpl in H0.
      + destruct Hd0 as [|d ds0 Hd _]; [done|]. simpl in H0. injection H0 as -> _.
        by apply digit_not_s.
      + injection H0 as <- _. by apply (hash_not_space_digit "#").
    - injection H0 as -> _. by apply space_not_s. }
  assert (Hone : ∀ s, spells "s" s → ∃ c, s = [c] ∧ sameLetter "s" c).
  { intros s0 H0. unfold spells, chars in H0. simpl in H0.
    inversion H0 as [|? c ? r Hc Hr]; subst. inversion Hr; subst. eauto. }
  assert (Heq1 : s = s' ∧ ws ++ h ++ ds ++ rest = ws' ++ h' ++ ds' ++ rest').
  { destruct Hs as [->|(c & -> & Hc)%Hone], Hs' as [->|(c' & -> & Hc')%Hone];
      simpl in Heq.
    - done.
    - exfalso. by apply (Hnext ws h ds rest c' (ws' ++ h' ++ ds' ++ rest')).
    - exfalso. symmetry in Heq.
      by apply (Hnext ws' h' ds' rest' c (ws ++ h ++ ds ++ rest)).
    - by injection Heq as -> ->. }
  destruct Heq1 as [-> Heq1].
  assert (Hafter : ∀ h ds rest c r,
            (h = [] ∨ h = chars "#") → digits ds →
            h ++ ds ++ rest = c :: r → isSpace c = false).
  { intros h0 ds0 rest0 c r Hh0 [Hn0 Hd0] H0.
    destruct Hh0 as [->| ->]; simpl in H0.
    - destruct Hd0 as [|d ds0 Hd _]; [done|]. simpl in H0. injection H0 as -> _.
      by apply digit_not_s.
    - injection H0 as <- _. by apply (hash_not_space_digit "#"). }
  destruct (run_unique isSpace ws ws' _ _ Hws Hws'
              (λ c r, Hafter h ds rest c r Hh (conj Hne Hds))
              (λ c r, Hafter h' ds' rest' c r Hh' (conj Hne' Hds')) Heq1)
    as [-> Heq2].
  assert (Heq3 : h = h' ∧ ds ++ rest = ds' ++ rest').
  { destruct Hds as [|d ds Hd _]; [done|]. destruct Hds' as [|d' ds' Hd' _]; [done|].
    destruct Hh as [->| ->], Hh' as [->| ->]; simpl in Heq2.
    - done.
    - exfalso. injection Heq2 as -> _. by destruct (digit_not_s _ Hd) as (_ & ? & _).
    - exfalso. injection Heq2 as <- _. by destruct (digit_not_s _ Hd') as (_ & ? & _).
    - split; [done|]. simpl in *. congruence. }
  destruct Heq3 as [-> Heq3].
  destruct (run_unique isDigit ds ds' _ _ Hds Hds' Hrest Hrest' Heq3) as [-> _].
  reflexivity.
Qed.

(** At a position, the phrase with its whole number is one only. *)
Lemma mentionAt_unique s w w' : mentionAt s w → mentionAt s w' → w = w'.
Proof.
  intros [(p & s1 & ws & h & ds & -> & Hp & Htail) (rest & -> & Hrest)]
         [(p' & s1' & ws' & h' & ds' & -> & Hp' & Htail') (rest' & Heq & Hrest')].
  rewrite <- !app_assoc in Heq.
  assert (Hlen : length p = length p').
  { apply Forall2_length in Hp, Hp'. congruence. }
  apply app_inj_1 in Heq as [-> Heq]; [|exact Hlen].
  f_equal.
  apply (phraseTail_unique _ _ rest rest'); try assumption.
  - by exists s1, ws, h, ds.
  - by exists s1', ws', h', ds'.
  - by rewrite <- !app_assoc.
Qed.

(** So the text determines the list of its mentions. *)
Lemma mentions_unique s l l' : mentions s l → mentions s l' → l = l'.
Proof.
  intros H. revert l'. induction H as [|c s l Hnone _ IH|c s w l Hat _ IH]; intros l' H'.
  - by inversion H'.
  - inversion H' as [|? ? ? _ Hrest|? ? w' ? Hat' _]; subst.
    + by apply IH.
    + exfalso. destruct Hat' as [Hphrase (rest & Heq & _)].
      exact (Hnone w' rest Heq Hphrase).
  - inversion H' as [|? ? ? Hnone' _|? ? w' l0 Hat' Hrest]; subst.
    + exfalso. destruct Hat as [Hphrase (rest & Heq & _)].
      exact (Hnone' w rest Heq Hphrase).
    + rewrite (mentionAt_unique _ _ _ Hat Hat'). f_equal. by apply IH.
Qed.

Lemma pullRequestMentions_mentions (agentResponse : string) :
  ∃ l, pullRequestMentions agentResponse = map string_of_list_ascii l
       ∧ mentions (chars agentResponse) l.
Proof.
  exists (matchesFrom (S (length (chars agentResponse))) pullRequestRe (chars agentResponse)).
  split; [|apply matchesFrom_mentions; lia].
  unfold pullRequestMentions, matchGlobal. by destruct (matchesFrom _ _ _).
Qed.

(** *** The error flag *)

Lemma includes_holds (text word : string) :
  includes (toLowerCase text) word = true ↔ holds text word.
Proof.
  rewrite includes_infix. unfold holds. split.
  - intros (pre' & post' & H).
    apply toLowerCase_split in H as (pre & rest & -> & _ & H).
    apply toLowerCase_split in H as (w & post & -> & Hw & _).
    by exists pre, w, post.
  - intros (pre & w & post & -> & Hw).
    exists (toLowerCase pre), (toLowerCase post).
    by rewrite !toLowerCase_app, Hw.
Qed.

Lemma errorFlag_holds (agentResponse : string) :
  errorFlag agentResponse ≠ [] ↔ holds agentResponse "error" ∨ holds agentResponse "failed".
Proof.
  rewrite <- !includes_holds, <- orb_true_iff. unfold errorFlag.
  destruct (_ || _); split; done.
Qed.

(** C9, as amended.  When the agent has answered, the step returns:
    as [tasksProcessed], the number of the first phrase made of digits,
    optional white space, "task" or "tasks", optional white space and
    "processed", "completed" or "handled", in any case of the letters,
    as [parseInt] reads it (the number itself below 2^53, the nearest
    double from there on, [Infinity] beyond the doubles), and 0 when the
    answer has no such phrase; as [completedTasks], one
    entry for each position at which a phrase "pull request" or "pull
    requests", optional white space, an optional "#" and a number
    begins, namely that phrase with its whole number, in order; and a
    non-empty [errors] exactly when the answer holds "error" or
    "failed" in any case of the letters. *)
Theorem taskDiscoveryStep_reads_answer (agentResponse : string) :
  ∃ result,
    taskDiscoveryStep (Some (Returned agentResponse)) = Returned result
    ∧ (∀ ds, firstTaskPhrase (chars agentResponse) ds →
             tasksProcessed result = toDouble (decimal ds)
             ∧ (decimal ds < 2 ^ 53 → tasksProcessed result = Int (decimal ds)))
    ∧ (noTaskPhrase (chars agentResponse) → tasksProcessed result = Int 0)
    ∧ (∃ l, completedTasks result = map string_of_list_ascii l
            ∧ mentions (chars agentResponse) l)
    ∧ (errors result ≠ [] ↔
       holds agentResponse "error" ∨ holds agentResponse "failed").
Proof.
  exists (parseResponse agentResponse). split; [reflexivity|].
  cbn [parseResponse tasksProcessed completedTasks errors].
  split.
  { intros ds Hfirst. rewrite (countTasks_first _ _ Hfirst).
    split; [reflexivity|]. apply toDouble_exact. }
  split; [apply countTasks_none|].
  split; [apply pullRequestMentions_mentions|apply errorFlag_holds].
Qed.

(** An answer that opens with its count: the step reads 12. *)
Lemma taskDiscoveryStep_reads_answer_witness :
  firstTaskPhrase (chars "12 Tasks completed; opened Pull Request #45") (chars "12")
  ∧ ∃ result,
      taskDiscoveryStep
        (Some (Returned "12 Tasks completed; opened Pull Request #45"%string))
      = Returned result
      ∧ tasksProcessed result = Int 12.
Proof.
  assert (Hfirst : firstTaskPhrase (chars "12 Tasks completed; opened Pull Request #45")
                     (chars "12")).
  { exists [], (chars "12 Tasks completed"), (chars "; opened Pull Request #45").
    split; [reflexivity|]. split; [|intros; simpl; lia].
    exists (chars " "), (chars "Task"), (chars "s"), (chars " "), (chars "completed").
    unfold digits, spaces, spells.
    split; [reflexivity|].
    split; [split; [discriminate|repeat constructor]|].
    split; [repeat constructor|].
    split; [repeat constructor|].
    split; [right; repeat constructor|].
    split; [repeat constructor|].
    right. left. repeat constructor. }
  split; [exact Hfirst|].
  destruct (taskDiscoveryStep_reads_answer "12 Tasks completed; opened Pull Request #45")
    as (result & Hrun & Hcount & _).
  exists result. split; [exact Hrun|].
  apply (proj2 (Hcount _ Hfirst)). reflexivity.
Defined.

Lemma hash_only c : sameLetter "#" c → c = "#"%char.
Proof. unfold sameLetter. each_char c; vm_compute; congruence. Qed.

Lemma hashPhrase_hash w : hashPhrase w → In "#"%char w.
Proof.
  intros (p & ds & -> & Hp & _). apply in_or_app. left.
  unfold spells, chars in Hp. simpl in Hp.
  repeat match goal with
         | H : Forall2 _ (_ :: _) _ |- _ => inversion H; subst; clear H
         end.
  match goal with H : sameLetter "#" _ |- _ => apply hash_only in H; subst end.
  simpl. tauto.
Qed.

(** C9 as stated fails: the answer below nowhere holds "pull request
    #<N>", having no "#", yet [completedTasks] has an entry. *)
Lemma pull_request_without_hash_counterexample :
  noHashPhrase (chars "Opened pull request 7 for review")
  ∧ ∃ result,
      taskDiscoveryStep (Some (Returned "Opened pull request 7 for review"%string))
      = Returned result
      ∧ completedTasks result = ["pull request 7"%string].
Proof.
  split.
  - intros pre w post Htext Hw. apply hashPhrase_hash in Hw.
    assert (Hin : In "#"%char (chars "Opened pull request 7 for review")).
    { rewrite Htext. apply in_or_app. right. apply in_or_app. by left. }
    assert (Hall : forallb (λ c, negb (Ascii.eqb c "#"))
                     (chars "Opened pull request 7 for review") = true)
      by reflexivity.
    rewrite forallb_forall in Hall. specialize (Hall _ Hin).
    by rewrite Ascii.eqb_refl in Hall.
  - eexists. split; reflexivity.
Qed.

End AnswerProofs.

(* ===================================================================== *)
(** * Further properties of the tools *)
(* ===================================================================== *)

(** ** The edges of the credential provider *)

Module CredentialsEdges.
Import Credentials CredentialsSpec GitHubSpec CredentialsCases.

Lemma no_identity (env : ProcessEnv) :
  truthy (REPL_IDENTITY env) = false →
  truthy (WEB_REPL_RENEWAL env) = false →
  xReplitToken env = None.
Proof. intros H1 H2. unfold xReplitToken. by rewrite H1, H2. Qed.

(** X1. In a process where neither [REPL_IDENTITY] nor
    [WEB_REPL_RENEWAL] is set to a non-empty value, [getAccessToken]
    never calls the connector and leaves the cache as it was; from an
    empty cache it throws "X_REPLIT_TOKEN not found for repl/depl"
    without any call. *)
Theorem getAccessToken_without_identity
    (env : ProcessEnv) (k : Connector) (w : World) (st : State) :
  truthy (REPL_IDENTITY env) = false →
  truthy (WEB_REPL_RENEWAL env) = false →
  connectionSettings (getAccessToken env k w st).2 = connectionSettings st
  ∧ Forall (λ c, isFetch c = false) (issuedSince st (getAccessToken env k w st).2)
  ∧ (connectionSettings st = None →
     getAccessToken env k w st = (Thrown notFound, st)).
Proof.
  intros H1 H2. pose proof (no_identity env H1 H2) as Hx.
  unfold getAccessToken, cacheIsFresh. unfold_monad. rewrite Hx. simpl.
  destruct (connectionSettings st) as [[[ | |s]]|] eqn:Hc; simpl.
  - split; [done|]. split; [|done]. unfold issuedSince. rewrite drop_all. constructor.
  - split; [done|]. split; [|done]. unfold issuedSince. rewrite drop_all. constructor.
  - destruct (expires_at s); simpl.
    + split; [done|]. split; [|done].
      unfold issuedSince. rewrite drop_all. constructor.
    + destruct (w (trace st) Now); simpl; (split; [done|]); (split; [|done]);
        rewrite GitHubProofs.issuedSince_app; by repeat constructor.
    + destruct (w (trace st) Now) as [now|]; simpl;
        [destruct (bool_decide (t > now)); simpl|];
        (split; [done|]); (split; [|done]);
        rewrite GitHubProofs.issuedSince_app; by repeat constructor.
  - split; [done|]. split; [|by destruct st].
    unfold issuedSince. rewrite drop_all. constructor.
Qed.

(** An empty [WEB_REPL_RENEWAL] counts as absent. *)
Lemma getAccessToken_without_identity_witness :
  getAccessToken anonymous github emptyConnector start = (Thrown notFound, start).
Proof.
  apply (getAccessToken_without_identity anonymous github emptyConnector start);
    reflexivity.
Defined.

(** X2. What the connector returned is cached whatever the call made of
    it.  When the connection fetched carries an expiry and no
    [settings.access_token], the call returns the OAuth token if there is
    one and throws "not connected" otherwise; either way the connection
    is cached, and a later call before the expiry returns the absent
    [settings.access_token] without throwing and without asking the
    connector again. *)
Theorem getAccessToken_caches_tokenless_connection
    (env : ProcessEnv) (k : Connector) (w : World) (st : State)
    (identity : string) (cs : ConnectionSettings) (s : Settings) (expiry : Z) :
  connectionSettings st = None →
  xReplitToken env = Some identity →
  w (trace st) (FetchConnection (connectionUrl env k) identity) = Returned (Some cs) →
  settings cs = Present s →
  expires_at s = ExpiresAtMs expiry →
  truthy (access_token s) = false →
  (getAccessToken env k w st).1
  = (if truthy (oauth_access_token s) then Returned (oauth_access_token s)
     else Thrown (ErrorObj (not_connected k)))
  ∧ (getAccessToken env k w st).2
    = {| connectionSettings := Some cs;
         trace := trace st ++ [FetchConnection (connectionUrl env k) identity] |}
  ∧ ∀ st' now,
      connectionSettings st' = Some cs →
      w (trace st') Now = Returned now →
      now < expiry →
      getAccessToken env k w st'
      = (Returned (access_token s),
         {| connectionSettings := Some cs; trace := trace st' ++ [Now] |}).
Proof.
  intros Hc Hx Hfetch Hs He Ht. split; [|split].
  - unfold getAccessToken, cacheIsFresh, fetchedToken. unfold_monad.
    rewrite Hc, Hx. simpl. rewrite Hfetch. simpl. rewrite Hs. simpl.
    unfold or_else. rewrite Ht. by destruct (truthy (oauth_access_token s)).
  - unfold getAccessToken, cacheIsFresh, fetchedToken. unfold_monad.
    rewrite Hc, Hx. simpl. rewrite Hfetch. simpl. rewrite Hs. simpl.
    unfold or_else. rewrite Ht. by destruct (truthy (oauth_access_token s)).
  - intros st' now Hc' Hnow Hlt.
    unfold getAccessToken, cacheIsFresh, cachedToken. unfold_monad.
    rewrite Hc'. simpl. rewrite Hs. simpl. rewrite He. simpl. rewrite Hnow. simpl.
    rewrite bool_decide_true by lia. simpl. by rewrite Hc'.
Qed.

(** The first call hands out the OAuth token; the second, 3 seconds
    before the expiry, hands out nothing. *)
Lemma getAccessToken_caches_tokenless_connection_witness :
  (getAccessToken exampleEnv github oauthWorld start).1
  = Returned (Some "oauth-token"%string)
  ∧ (getAccessToken exampleEnv github oauthWorld
       (getAccessToken exampleEnv github oauthWorld start).2).1
    = Returned None.
Proof.
  destruct (getAccessToken_caches_tokenless_connection exampleEnv github oauthWorld start
              "repl identity" {| settings := Present oauthSettings |} oauthSettings 5000
              eq_refl eq_refl eq_refl eq_refl eq_refl eq_refl)
    as (Hfirst & Hstate & Hlater).
  split; [exact Hfirst|].
  rewrite Hstate.
  rewrite (Hlater _ 1000); reflexivity.
Defined.

(** X3. When the connector lists no connection, the call ends in the
    TypeError of reading [settings] of [undefined], not in the "not
    connected" error, and the cache is emptied; "not connected" is what
    a connection without settings (the key missing, or [null]) gives. *)
Theorem getAccessToken_without_connection
    (env : ProcessEnv) (k : Connector) (w : World) (st : State) (identity : string) :
  connectionSettings st = None →
  xReplitToken env = Some identity →
  (w (trace st) (FetchConnection (connectionUrl env k) identity) = Returned None →
   getAccessToken env k w st
   = (Thrown typeErrorSettings,
      {| connectionSettings := None;
         trace := trace st ++ [FetchConnection (connectionUrl env k) identity] |}))
  ∧ (∀ cs,
       w (trace st) (FetchConnection (connectionUrl env k) identity) = Returned (Some cs) →
       settings cs = Missing ∨ settings cs = Null →
       getAccessToken env k w st
       = (Thrown (ErrorObj (not_connected k)),
          {| connectionSettings := Some cs;
             trace := trace st ++ [FetchConnection (connectionUrl env k) identity] |})).
Proof.
  intros Hc Hx. split.
  - intros Hfetch. unfold getAccessToken, cacheIsFresh, fetchedToken. unfold_monad.
    rewrite Hc, Hx. simpl. by rewrite Hfetch.
  - intros cs Hfetch Hs. unfold getAccessToken, cacheIsFresh, fetchedToken. unfold_monad.
    rewrite Hc, Hx. simpl. rewrite Hfetch. simpl. by destruct Hs as [-> | ->].
Qed.

Lemma getAccessToken_without_connection_witness :
  getAccessToken exampleEnv notion emptyConnector start
  = (Thrown typeErrorSettings,
     {| connectionSettings := None;
        trace := [FetchConnection (connectionUrl exampleEnv notion) "repl identity"] |}).
Proof.
  destruct (getAccessToken_without_connection exampleEnv notion emptyConnector start
              "repl identity" eq_refl eq_refl) as [Hnone _].
  exact (Hnone eq_refl).
Defined.

(** X4. Once the connector has listed a connection without
    [settings] (the key missing, or [null]), the call that fetched it
    throws "not connected" and caches it; from then on every call throws
    the TypeError of reading [expires_at], of [undefined] when the key
    was missing and of [null] when it held [null], whatever the services
    would answer, without any call and without touching the cache: the
    provider does not recover. *)
Theorem getAccessToken_stuck_without_settings
    (env : ProcessEnv) (k : Connector) (w : World) (st : State)
    (identity : string) (cs : ConnectionSettings) :
  connectionSettings st = None →
  xReplitToken env = Some identity →
  w (trace st) (FetchConnection (connectionUrl env k) identity) = Returned (Some cs) →
  settings cs = Missing ∨ settings cs = Null →
  (getAccessToken env k w st).1 = Thrown (ErrorObj (not_connected k))
  ∧ ∀ w' st',
      connectionSettings st' = connectionSettings (getAccessToken env k w st).2 →
      getAccessToken env k w' st'
      = (Thrown match settings cs with
                | Null => typeErrorExpiresAtNull
                | _ => typeErrorExpiresAt
                end,
         st').
Proof.
  intros Hc Hx Hfetch Hs.
  assert (Hfirst : getAccessToken env k w st
                   = (Thrown (ErrorObj (not_connected k)),
                      {| connectionSettings := Some cs;
                         trace := trace st
                                  ++ [FetchConnection (connectionUrl env k) identity] |})).
  { unfold getAccessToken, cacheIsFresh, fetchedToken. unfold_monad.
    rewrite Hc, Hx. simpl. rewrite Hfetch. simpl. by destruct Hs as [-> | ->]. }
  rewrite Hfirst. simpl. split; [done|].
  intros w' st' Hc'. unfold getAccessToken, cacheIsFresh. unfold_monad.
  rewrite Hc'. simpl. by destruct Hs as [-> | ->].
Qed.

(** After one answer whose settings are [null], a connector that would
    now hand out a token is not asked. *)
Lemma getAccessToken_stuck_without_settings_witness :
  getAccessToken exampleEnv github (clockWorld 1000)
    (getAccessToken exampleEnv github nullConnector start).2
  = (Thrown typeErrorExpiresAtNull,
     (getAccessToken exampleEnv github nullConnector start).2).
Proof.
  destruct (getAccessToken_stuck_without_settings exampleEnv github nullConnector start
              "repl identity" {| settings := Null |} eq_refl eq_refl eq_refl
              (or_intror eq_refl))
    as [_ Hstuck].
  by apply Hstuck.
Defined.

(** X5. A cached connection that declares no expiry is never served
    from the cache: with an identity, the call asks the connector again,
    without reading the clock, and replaces the cache by the answer. *)
Theorem getAccessToken_without_expiry_refetches
    (env : ProcessEnv) (k : Connector) (w : World) (st : State)
    (identity : string) (cs : ConnectionSettings) (s : Settings)
    (fetched : option ConnectionSettings) :
  connectionSettings st = Some cs →
  settings cs = Present s →
  expires_at s = NoExpiry →
  xReplitToken env = Some identity →
  w (trace st) (FetchConnection (connectionUrl env k) identity) = Returned fetched →
  (getAccessToken env k w st).2
  = {| connectionSettings := fetched;
       trace := trace st ++ [FetchConnection (connectionUrl env k) identity] |}.
Proof.
  intros Hc Hs He Hx Hfetch.
  unfold getAccessToken, cacheIsFresh, fetchedToken. unfold_monad.
  rewrite Hc. simpl. rewrite Hs. simpl. rewrite He. simpl. rewrite Hx. simpl.
  rewrite Hfetch. simpl.
  destruct fetched as [[[ | |s']]|]; simpl; [done|done| |done].
  by destruct (truthy _).
Qed.

(** The second call fetches the connection again. *)
Lemma getAccessToken_without_expiry_refetches_witness :
  trace (getAccessToken exampleEnv github lastingConnector
           (getAccessToken exampleEnv github lastingConnector start).2).2
  = [ FetchConnection (connectionUrl exampleEnv github) "repl identity";
      FetchConnection (connectionUrl exampleEnv github) "repl identity" ].
Proof.
  rewrite (getAccessToken_without_expiry_refetches exampleEnv github lastingConnector
             (getAccessToken exampleEnv github lastingConnector start).2
             "repl identity" {| settings := Present lastingSettings |} lastingSettings
             (Some {| settings := Present lastingSettings |})
             eq_refl eq_refl eq_refl eq_refl eq_refl).
  reflexivity.
Defined.

(** X26. In a process whose environment stays as it is, when the cache
    holds a connection whose settings declare an expiry, [getAccessToken]
    reads the clock, does not fetch and returns [settings.access_token]
    as the cached connection holds it (also when that is absent) exactly
    when the current time is strictly before the expiry; a call made at
    or after the expiry instant fetches the connection afresh. *)
Theorem getAccessToken_cached_until_expiry
    (w : World) (env : ProcessEnv) (k : Connector) (st : State)
    (cs : ConnectionSettings) (s : Settings) (expiry now : Z) :
  reachable w env k st →
  connectionSettings st = Some cs →
  settings cs = Present s →
  expires_at s = ExpiresAtMs expiry →
  w (trace st) Now = Returned now →
  (now < expiry ↔
     getAccessToken env k w st
     = (Returned (access_token s),
        {| connectionSettings := Some cs; trace := trace st ++ [Now] |}))
  ∧ (expiry ≤ now →
       ∃ identity,
         xReplitToken env = Some identity
         ∧ trace (getAccessToken env k w st).2
           = trace st ++ [Now; FetchConnection (connectionUrl env k) identity]).
Proof.
  intros Hreach Hcache Hs Hexp Hnow.
  assert (Hfetch : expiry ≤ now →
            ∃ identity,
              xReplitToken env = Some identity
              ∧ trace (getAccessToken env k w st).2
                = trace st ++ [Now; FetchConnection (connectionUrl env k) identity]).
  { intros Hcmp. destruct (xReplitToken env) as [identity|] eqn:Hx.
    2:{ exfalso. eapply CredentialsProofs.reachable_identity; eauto. rewrite Hcache. discriminate. }
    exists identity. split; [reflexivity|].
    unfold getAccessToken, cacheIsFresh. unfold_monad. simpl.
    rewrite Hcache. simpl. destruct cs as [o]. simpl in Hs. subst o. simpl.
    rewrite Hexp. simpl. rewrite Hnow. simpl.
    rewrite bool_decide_eq_false_2 by lia. rewrite Hx. simpl.
    destruct (w _ (FetchConnection _ _)) as [[[[ | |s']]|]|]; simpl;
      rewrite <- ?app_assoc; simpl; try reflexivity.
    destruct (truthy _); reflexivity. }
  split; [split|exact Hfetch].
  - intros Hcmp.
    unfold getAccessToken, cacheIsFresh, cachedToken. unfold_monad. simpl.
    rewrite Hcache. simpl. destruct cs as [o]. simpl in Hs. subst o. simpl.
    rewrite Hexp. simpl. rewrite Hnow. simpl.
    rewrite bool_decide_eq_true_2 by lia. rewrite Hcache. reflexivity.
  - intros Hrun. destruct (Z.lt_ge_cases now expiry) as [Hlt|Hge]; [exact Hlt|].
    exfalso. destruct (Hfetch Hge) as (identity & _ & Htrace).
    rewrite Hrun in Htrace. simpl in Htrace.
    apply app_inv_head in Htrace. discriminate.
Qed.

(** Once a first call has filled the cache with a token that expires at
    5000, a call at 4999 returns it with no fetch, and a call at 5000,
    the expiry instant, fetches. *)
Lemma getAccessToken_cached_until_expiry_witness :
  getAccessToken exampleEnv github (clockWorld 4999) warm
  = (Returned (Some "token-1"%string),
     {| connectionSettings := Some {| settings := Present exampleSettings |};
        trace := trace warm ++ [Now] |})
  ∧ ∃ identity,
      xReplitToken exampleEnv = Some identity
      ∧ trace (getAccessToken exampleEnv github (clockWorld 5000) warm).2
        = trace warm ++ [Now; FetchConnection (connectionUrl exampleEnv github) identity].
Proof.
  split.
  - apply (getAccessToken_cached_until_expiry (clockWorld 4999) exampleEnv github warm
             {| settings := Present exampleSettings |} exampleSettings 5000 4999);
      try reflexivity.
    change warm with (getAccessToken exampleEnv github (clockWorld 4999) start).2.
    apply reach_token, reach_start.
  - apply (getAccessToken_cached_until_expiry (clockWorld 5000) exampleEnv github warm
             {| settings := Present exampleSettings |} exampleSettings 5000 5000);
      try reflexivity; try lia.
    change warm with (getAccessToken exampleEnv github (clockWorld 5000) start).2.
    apply reach_token, reach_start.
Defined.

End CredentialsEdges.

(** ** Runs of the GitHub tools *)

Module GitHubRuns.
Import Credentials CredentialsSpec GitHub GitHubSpec CredentialsCases GitHubCases.
Import GitHubProofs.

(** When the provider returns, each of its calls was answered. *)
Lemma getAccessToken_answered
    (env : ProcessEnv) (k : Connector) (w : World) (st st1 : State)
    (token : option string) :
  getAccessToken env k w st = (Returned token, st1) →
  ∃ auth,
    trace st1 = trace st ++ auth
    ∧ Forall (λ c, isAuthCall c = true) auth
    ∧ answered w (trace st) auth = true.
Proof.
  assert (Hfetch : ∀ st' auth,
    trace st' = trace st ++ auth →
    Forall (λ c, isAuthCall c = true) auth →
    answered w (trace st) auth = true →
    match xReplitToken env with
    | None => throw (ErrorObj "X_REPLIT_TOKEN not found for repl/depl")
    | Some tok =>
        fetched ← call (FetchConnection (connectionUrl env k) tok);
        setCache fetched;;
        accessToken ← fetchedToken fetched;
        if truthy accessToken then mret accessToken
        else throw (ErrorObj (not_connected k))
    end w st' = (Returned token, st1) →
    ∃ auth,
      trace st1 = trace st ++ auth
      ∧ Forall (λ c, isAuthCall c = true) auth
      ∧ answered w (trace st) auth = true).
  { intros st' auth Htr Hauth Hans. destruct (xReplitToken env) as [tok|].
    - unfold fetchedToken. unfold_monad. simpl.
      destruct (w (trace st') _) as [fetched|] eqn:Hw; simpl; [|discriminate].
      intros Hrun.
      exists (auth ++ [FetchConnection (connectionUrl env k) tok]).
      split; [|split].
      + destruct fetched as [[[ | |s]]|]; simpl in Hrun;
          try (destruct (truthy _); simpl in Hrun); simplify_eq/=;
          by rewrite Htr, <- app_assoc.
      + apply Forall_app. split; [done|]. by constructor.
      + rewrite answered_app, Hans. simpl. rewrite <- Htr, Hw. done.
    - discriminate. }
  unfold getAccessToken, cacheIsFresh. unfold_monad. simpl.
  destruct (connectionSettings st) as [[[ | |s]]|] eqn:Hc; simpl.
  - discriminate.
  - discriminate.
  - destruct (expires_at s); simpl.
    + apply Hfetch with (auth := []); [by rewrite app_nil_r|done|done].
    + destruct (w (trace st) Now) eqn:Hnow; simpl; [|discriminate].
      apply Hfetch with (auth := [Now]); [done|by constructor|].
      simpl. by rewrite Hnow.
    + destruct (w (trace st) Now) as [now|] eqn:Hnow; simpl; [|discriminate].
      destruct (bool_decide (t > now)); simpl.
      * intros Hrun. simplify_eq/=. exists [Now].
        split; [done|]. split; [by constructor|]. simpl. by rewrite Hnow.
      * apply Hfetch with (auth := [Now]); [done|by constructor|].
        simpl. by rewrite Hnow.
  - apply Hfetch with (auth := []); [by rewrite app_nil_r|done|done].
Qed.

Lemma auth_not_update (auth : list Call) :
  Forall (λ c, isAuthCall c = true) auth → Forall (λ c, isUpdateRef c = false) auth.
Proof. intros H. eapply Forall_impl; [exact H|]. by intros []. Qed.

(** X6. When no client can be obtained, each GitHub tool returns its
    failure result with the provider's error in the message, and issues
    no call of its own: the state is the one the provider left. *)
Theorem github_tools_without_client
    (env : ProcessEnv) (decodeBase64 : string → string)
    (w : World) (st st1 : State) (e : JsError) :
  getUncachableGitHubClient env w st = (Thrown e, st1) →
  (∀ i, createBranch env i w st = (Returned (branchFailure i e), st1))
  ∧ (∀ i, commitCode env i w st = (Returned (commitFailure e), st1))
  ∧ (∀ i, createPullRequest env i w st = (Returned (pullRequestFailure e), st1))
  ∧ (∀ i, getRepositoryContent env decodeBase64 i w st = (Returned (contentFailure e), st1))
  ∧ (∀ owner repo,
       listRepositoryBranches env owner repo w st = (Returned (branchesFailure e), st1)).
Proof.
  intros Hauth. repeat split; intros;
    unfold createBranch, createBranchTry, createBranchCatch,
      commitCode, commitCodeTry, commitCodeCatch,
      createPullRequest, createPullRequestTry, createPullRequestCatch,
      getRepositoryContent, getRepositoryContentTry, getRepositoryContentCatch,
      listRepositoryBranches, listRepositoryBranchesTry, listRepositoryBranchesCatch;
    unfold_monad; by rewrite Hauth.
Qed.

(** Without an identity the commit tool reports the provider's error and
    calls nothing. *)
Lemma github_tools_without_client_witness :
  commitCode anonymous twoFiles reliableWorld start
  = (Returned (commitFailure notFound), start).
Proof.
  destruct (github_tools_without_client anonymous (λ s, s) reliableWorld start start
              notFound eq_refl) as (_ & Hcommit & _).
  exact (Hcommit twoFiles).
Defined.

(** The ways a run of [createBranch] goes. *)
Lemma createBranch_run
    (env : ProcessEnv) (w : World) (i : CreateBranchInput) (st : State) :
  ∃ auth result,
    Forall (λ c, isAuthCall c = true) auth
    ∧ (createBranch env i w st).1 = Returned result
    ∧ cb_name result = cb_branchName i
    ∧ ((issuedSince st (createBranch env i w st).2 = auth
        ∧ cb_success result = false ∧ cb_sha result = EmptyString)
       ∨ (∃ e, w (trace st ++ auth) (baseRefCall i) = Thrown e
               ∧ issuedSince st (createBranch env i w st).2 = auth ++ [baseRefCall i]
               ∧ result = branchFailure i e)
       ∨ (∃ baseRef,
            w (trace st ++ auth) (baseRefCall i) = Returned baseRef
            ∧ issuedSince st (createBranch env i w st).2
              = auth ++ [baseRefCall i; createRefCall i (object_sha baseRef)]
            ∧ match w (trace st ++ auth ++ [baseRefCall i])
                      (createRefCall i (object_sha baseRef)) with
              | Returned newBranch =>
                  cb_success result = true ∧ cb_sha result = object_sha newBranch
              | Thrown e => result = branchFailure i e
              end)).
Proof.
  destruct (getAccessToken_calls env github w st) as (auth & Htr & Hauth).
  exists auth.
  unfold createBranch, createBranchTry, createBranchCatch, getUncachableGitHubClient.
  unfold_monad.
  destruct (getAccessToken env github w st) as [[token|e] st1]; simpl in *.
  - fold (baseRefCall i).
    destruct (w (trace st1) (baseRefCall i)) as [baseRef|e] eqn:Hbase; simpl.
    + fold (createRefCall i (object_sha baseRef)).
      destruct (w (trace st1 ++ [baseRefCall i]) (createRefCall i (object_sha baseRef)))
        as [newBranch|e] eqn:Hnew; simpl;
        eexists; (split; [exact Hauth|]); (split; [reflexivity|]);
        (split; [reflexivity|]); right; right; exists baseRef;
        rewrite <- Htr, Hbase; (split; [reflexivity|]);
        rewrite Htr, <- !app_assoc, issuedSince_app; (split; [reflexivity|]);
        simpl; rewrite app_assoc, <- Htr, Hnew; done.
    + eexists. split; [exact Hauth|]. split; [reflexivity|]. split; [reflexivity|].
      right; left. exists e. rewrite <- Htr, Hbase. split; [reflexivity|].
      rewrite Htr, <- !app_assoc, issuedSince_app. done.
  - eexists. split; [exact Hauth|]. split; [reflexivity|]. split; [reflexivity|]. left.
    by rewrite (issuedSince_trace _ _ _ Htr).
Qed.

(** X7. [createBranch] creates a ref only as its last call, right after
    a read of the base branch that was answered, as [refs/heads/] plus
    the new name, and at the sha that read returned.  The result echoes
    the branch name; it has [success = true] exactly when the ref was
    created, with the sha the creation returned, and an empty sha
    otherwise. *)
Theorem createBranch_creates_at_base_head
    (env : ProcessEnv) (w : World) (i : CreateBranchInput) (st : State) :
  (∀ pre c post,
     issuedSince st (createBranch env i w st).2 = pre ++ c :: post →
     isCreateRef c = true →
     ∃ pre0 baseRef,
       pre = pre0 ++ [baseRefCall i]
       ∧ w (trace st ++ pre0) (baseRefCall i) = Returned baseRef
       ∧ c = createRefCall i (object_sha baseRef)
       ∧ post = [])
  ∧ ∃ result,
      (createBranch env i w st).1 = Returned result
      ∧ cb_name result = cb_branchName i
      ∧ (cb_success result = false → cb_sha result = EmptyString)
      ∧ (cb_success result = true ↔
         ∃ pre sha newBranch,
           issuedSince st (createBranch env i w st).2 = pre ++ [createRefCall i sha]
           ∧ w (trace st ++ pre) (createRefCall i sha) = Returned newBranch
           ∧ cb_sha result = object_sha newBranch).
Proof.
  destruct (createBranch_run env w i st)
    as (auth & result & Hauth & Hres & Hname & Hcases).
  assert (Hnot : Forall (λ c, isCreateRef c = false) auth).
  { eapply Forall_impl; [exact Hauth|]. by intros []. }
  split.
  - intros pre c post Hissued Hc.
    assert (Hc' : isAuthCall c = false) by (destruct c; simpl in *; congruence).
    destruct Hcases as [(Hi & _)|[(e & _ & Hi & _)|(baseRef & Hbase & Hi & _)]];
      rewrite Hi in Hissued.
    + rewrite <- (app_nil_r auth) in Hissued.
      destruct (after_auth_calls _ _ _ _ _ Hauth Hc' Hissued) as (pre' & _ & Hnil).
      by destruct pre'.
    + destruct (after_auth_calls _ _ _ _ _ Hauth Hc' Hissued) as (pre' & _ & Hl).
      destruct pre' as [|? [|? [|? ?]]]; simplify_eq/=.
    + destruct (after_auth_calls _ _ _ _ _ Hauth Hc' Hissued) as (pre' & -> & Hl).
      destruct pre' as [|? [|? [|? ?]]]; simplify_eq/=.
      exists auth, baseRef. done.
  - exists result. split; [exact Hres|]. split; [exact Hname|].
    assert (Hlast : ∀ l pre sha,
              auth ++ l = pre ++ [createRefCall i sha] →
              ∃ pre', pre = auth ++ pre' ∧ l = pre' ++ [createRefCall i sha]).
    { intros l pre sha Heq.
      by apply (after_auth_calls auth l pre [] (createRefCall i sha)). }
    destruct Hcases as [(Hi & Hf & Hsha)|[(e & _ & Hi & ->)|(baseRef & Hbase & Hi & Hnew)]].
    + split; [done|]. rewrite Hf. split; [done|].
      intros (pre & sha & newBranch & Hissued & _). rewrite Hi in Hissued.
      rewrite <- (app_nil_r auth) in Hissued.
      destruct (Hlast _ _ _ Hissued) as (pre' & _ & Hnil). by destruct pre'.
    + split; [done|]. simpl. split; [done|].
      intros (pre & sha & newBranch & Hissued & _). rewrite Hi in Hissued.
      destruct (Hlast _ _ _ Hissued) as (pre' & _ & Hl).
      destruct pre' as [|? [|? ?]]; simplify_eq/=.
    + destruct (w (trace st ++ auth ++ [baseRefCall i])
                  (createRefCall i (object_sha baseRef))) as [newBranch|e] eqn:Hw.
      * destruct Hnew as [Hs Hsha]. rewrite Hs. split; [done|]. split; [|done].
        intros _. exists (auth ++ [baseRefCall i]), (object_sha baseRef), newBranch.
        rewrite Hi, <- !app_assoc. simpl. done.
      * subst result. simpl. split; [done|]. split; [done|].
        intros (pre & sha & newBranch & Hissued & Hw' & _). rewrite Hi in Hissued.
        destruct (Hlast _ _ _ Hissued) as (pre' & -> & Hl).
        destruct pre' as [|? [|? [|? ?]]]; simplify_eq/=.
        simpl in Hw'. congruence.
Qed.

Lemma blobs_not_update (i : CommitCodeInput) (files : list CommitFile) :
  Forall (λ c, isUpdateRef c = false) (map (createBlobCall i) files).
Proof. apply Forall_map. by apply Forall_true. Qed.

(** When [Promise.all] settles to a value, every blob call was answered. *)
Lemma blobPromises_settled (w : World) (i : CommitCodeInput)
      (files : list CommitFile) (tr : list Call) (entries : list TreeEntry) :
  allSettled (blobPromises w i tr files) = Returned entries →
  answered w tr (map (createBlobCall i) files) = true.
Proof.
  revert tr entries. induction files as [|f files IH]; intros tr entries; simpl.
  - done.
  - destruct (w tr (createBlobCall i f)) as [sha|e]; simpl; [|discriminate].
    destruct (allSettled _) as [l|e] eqn:Hall; [|discriminate].
    intros _. by apply (IH _ l).
Qed.

(** The two ways a run of [commitCode] goes: it fails before any ref
    update, or it reaches the ref update after a commit was created. *)
Lemma commitCode_run
    (env : ProcessEnv) (w : World) (i : CommitCodeInput) (st : State) :
  ∃ result,
    (commitCode env i w st).1 = Returned result
    ∧ ((Forall (λ c, isUpdateRef c = false) (issuedSince st (commitCode env i w st).2)
        ∧ ∃ e, result = commitFailure e)
       ∨ (∃ l0 ref tree sha,
            issuedSince st (commitCode env i w st).2
            = l0 ++ [newCommitCall i ref tree; updateCall i sha]
            ∧ Forall (λ c, isUpdateRef c = false) l0
            ∧ answered w (trace st) l0 = true
            ∧ w (trace st ++ l0) (newCommitCall i ref tree) = Returned sha
            ∧ match w (trace st ++ l0 ++ [newCommitCall i ref tree]) (updateCall i sha) with
              | Returned _ => cc_success result = true ∧ cc_commitSha result = Some sha
              | Thrown e => result = commitFailure e
              end)).
Proof.
  unfold commitCode, commitCodeTry, commitCodeCatch, getUncachableGitHubClient.
  unfold_monad.
  destruct (getAccessToken env github w st) as [[token|e] st1] eqn:Hprov; simpl.
  2:{ destruct (getAccessToken_calls env github w st) as (auth & Htr & Hauth).
      rewrite Hprov in Htr. simpl in Htr.
      eexists. split; [reflexivity|]. left. split; [|by eexists].
      rewrite (issuedSince_trace _ _ _ Htr). by apply auth_not_update. }
  destruct (getAccessToken_answered env github w st st1 token Hprov)
    as (auth & Htr & Hauth & Hans).
  pose proof (auth_not_update auth Hauth) as Hnot.
  set (getRef := GitGetRef _ _ _).
  destruct (w (trace st1) getRef) as [ref|e] eqn:Href; simpl.
  2:{ eexists. split; [reflexivity|]. left. split; [|by eexists].
      rewrite Htr, <- app_assoc, issuedSince_app.
      apply Forall_app. split; [done|]. by repeat constructor. }
  set (getCommit := GitGetCommit _ _ _).
  destruct (w (trace st1 ++ [getRef]) getCommit) as [commit|e] eqn:Hcommit; simpl.
  2:{ eexists. split; [reflexivity|]. left. split; [|by eexists].
      rewrite Htr, <- !app_assoc, issuedSince_app.
      apply Forall_app. split; [done|]. by repeat constructor. }
  rewrite mapM_blobPromise. simpl. rewrite all_settled. simpl.
  rewrite <- !app_assoc. simpl.
  set (blobs := map (createBlobCall i) (cc_files i)).
  assert (Hblobs : Forall (λ c, isUpdateRef c = false) blobs) by apply blobs_not_update.
  destruct (allSettled _) as [entries|e] eqn:Hall; simpl.
  2:{ eexists. split; [reflexivity|]. left. split; [|by eexists].
      rewrite Htr, <- !app_assoc, issuedSince_app.
      apply Forall_app. split; [done|]. by repeat constructor. }
  set (createTree := GitCreateTree _ _ _ _).
  destruct (w _ createTree) as [tree|e] eqn:Htree; simpl.
  2:{ eexists. split; [reflexivity|]. left. split; [|by eexists].
      rewrite Htr, <- !app_assoc, issuedSince_app. simpl.
      apply Forall_app. split; [done|]. repeat constructor.
      apply Forall_app. split; [done|]. by repeat constructor. }
  fold (newCommitCall i ref tree).
  destruct (w _ (newCommitCall i ref tree)) as [newCommit|e] eqn:Hnew; simpl.
  2:{ eexists. split; [reflexivity|]. left. split; [|by eexists].
      rewrite Htr, <- !app_assoc, issuedSince_app. simpl.
      apply Forall_app. split; [done|]. repeat constructor.
      apply Forall_app. split; [done|]. by repeat constructor. }
  fold (updateCall i newCommit).
  set (l0 := auth ++ [getRef; getCommit] ++ blobs ++ [createTree]).
  assert (Hl0 : Forall (λ c, isUpdateRef c = false) l0).
  { apply Forall_app. split; [done|]. repeat constructor.
    apply Forall_app. split; [done|]. by repeat constructor. }
  assert (Hans0 : answered w (trace st) l0 = true).
  { unfold l0. rewrite answered_app, Hans, <- Htr. simpl.
    rewrite Href, Hcommit. simpl. rewrite answered_app, <- !app_assoc. simpl.
    unfold blobs at 1. rewrite (blobPromises_settled _ _ _ _ _ Hall). simpl.
    by rewrite Htree. }
  assert (Hnew' : w (trace st ++ l0) (newCommitCall i ref tree) = Returned newCommit).
  { unfold l0. rewrite app_assoc, <- Htr. simpl.
    rewrite <- !app_assoc in Hnew. exact Hnew. }
  assert (Hpre : ((trace st1 ++ getRef :: getCommit :: blobs) ++ [createTree])
                   ++ [newCommitCall i ref tree]
                 = trace st ++ l0 ++ [newCommitCall i ref tree]).
  { unfold l0. rewrite Htr, <- !app_assoc. reflexivity. }
  rewrite Hpre.
  destruct (w (trace st ++ l0 ++ [newCommitCall i ref tree]) (updateCall i newCommit))
    as [[]|e] eqn:Hup; simpl;
    (eexists; split; [reflexivity|]; right; exists l0, ref, tree, newCommit;
     split; [apply issuedSince_trace; simpl; by rewrite <- !app_assoc|];
     split; [exact Hl0|]; split; [exact Hans0|]; split; [exact Hnew'|]);
    rewrite Hup; done.
Qed.

Lemma sole_update (l pre post : list Call) (x c : Call) :
  Forall (λ c, isUpdateRef c = false) l →
  isUpdateRef c = true →
  l ++ [x] = pre ++ c :: post →
  pre = l ∧ c = x ∧ post = [].
Proof.
  intros Hl Hc. revert pre. induction Hl as [|a l Ha _ IH]; intros pre Heq.
  - destruct pre as [|b [|? ?]]; simplify_eq/=. done.
  - destruct pre as [|b pre]; simpl in Heq; injection Heq as -> Heq.
    + congruence.
    + by destruct (IH _ Heq) as (-> & -> & ->).
Qed.

Lemma no_update (l pre post : list Call) (c : Call) :
  Forall (λ c, isUpdateRef c = false) l →
  isUpdateRef c = true →
  l ≠ pre ++ c :: post.
Proof.
  intros Hl Hc ->. apply Forall_app in Hl as [_ Hl].
  apply Forall_cons in Hl as [Hl _]. congruence.
Qed.

(** X8. [commitCode] moves the branch at most once, as its last call,
    and only after every call before it was answered: the head and its
    commit were read, every blob, the tree and the commit were created.
    The ref update follows the commit creation and carries the sha that
    creation returned. *)
Theorem commitCode_moves_branch_last
    (env : ProcessEnv) (w : World) (i : CommitCodeInput) (st : State)
    (pre post : list Call) (c : Call) :
  issuedSince st (commitCode env i w st).2 = pre ++ c :: post →
  isUpdateRef c = true →
  post = []
  ∧ Forall (λ c, isUpdateRef c = false) pre
  ∧ answered w (trace st) pre = true
  ∧ ∃ pre0 ref tree sha,
      pre = pre0 ++ [newCommitCall i ref tree]
      ∧ w (trace st ++ pre0) (newCommitCall i ref tree) = Returned sha
      ∧ c = updateCall i sha.
Proof.
  intros Hissued Hc.
  destruct (commitCode_run env w i st) as (result & _ & [[Hnone _]|Hsome]).
  - by destruct (no_update _ pre post c Hnone Hc).
  - destruct Hsome as (l0 & ref & tree & sha & Hi & Hl0 & Hans & Hnew & _).
    rewrite Hi in Hissued.
    assert (Hl : Forall (λ c, isUpdateRef c = false) (l0 ++ [newCommitCall i ref tree])).
    { apply Forall_app. split; [done|]. by repeat constructor. }
    replace (l0 ++ [newCommitCall i ref tree; updateCall i sha])
      with ((l0 ++ [newCommitCall i ref tree]) ++ [updateCall i sha]) in Hissued
      by (by rewrite <- app_assoc).
    destruct (sole_update _ _ _ _ _ Hl Hc Hissued) as (-> & -> & ->).
    split; [done|]. split; [done|]. split.
    + rewrite answered_app, Hans. simpl. by rewrite Hnew.
    + by exists l0, ref, tree, sha.
Qed.

(** On two files against a repository that answers every call, the ref
    update is the seventh call after the provider's. *)
Lemma commitCode_moves_branch_last_witness :
  answered reliableWorld []
    [ FetchConnection (connectionUrl exampleEnv github) "repl identity";
      GitGetRef "zenquill" "app" "heads/feature";
      GitGetCommit "zenquill" "app" "head-sha";
      createBlobCall twoFiles {| file_path := "a.ts"; file_content := "A";
                                 file_encoding := Utf8 |};
      createBlobCall twoFiles {| file_path := "b.ts"; file_content := "B";
                                 file_encoding := Base64 |};
      GitCreateTree "zenquill" "app" "base-tree-sha"
        [ treeEntry {| file_path := "a.ts"; file_content := "A"; file_encoding := Utf8 |}
            "blob-of-A";
          treeEntry {| file_path := "b.ts"; file_content := "B"; file_encoding := Base64 |}
            "blob-of-B" ];
      GitCreateCommit "zenquill" "app" "Add dark mode" "tree-sha" ["head-sha"%string] ]
  = true.
Proof.
  apply (commitCode_moves_branch_last exampleEnv reliableWorld twoFiles start _ []
           (GitUpdateRef "zenquill" "app" "heads/feature" "commit-sha"));
    reflexivity.
Defined.

(** X9. [commitCode] reports [success = true] exactly when its last
    call is a ref update that was answered; [commitSha] is then the sha
    the branch was moved to, and it is absent from every failure result,
    also when the commit was created and only the ref update failed. *)
Theorem commitCode_success_iff_ref_updated
    (env : ProcessEnv) (w : World) (i : CommitCodeInput) (st : State) :
  ∃ result,
    (commitCode env i w st).1 = Returned result
    ∧ (cc_success result = true ↔
       ∃ pre sha,
         issuedSince st (commitCode env i w st).2 = pre ++ [updateCall i sha]
         ∧ w (trace st ++ pre) (updateCall i sha) = Returned tt)
    ∧ (∀ sha,
         cc_commitSha result = Some sha ↔
         cc_success result = true
         ∧ ∃ pre, issuedSince st (commitCode env i w st).2 = pre ++ [updateCall i sha])
    ∧ (cc_success result = false → ∃ e, result = commitFailure e).
Proof.
  destruct (commitCode_run env w i st) as (result & Hres & [[Hnone [e ->]]|Hsome]).
  - exists (commitFailure e). split; [exact Hres|]. simpl. split; [|split].
    + split; [done|]. intros (pre & sha & Hi & _).
      by destruct (no_update _ pre [] (updateCall i sha) Hnone eq_refl).
    + intros sha. split; [done|]. by intros [? _].
    + intros _. by exists e.
  - destruct Hsome as (l0 & ref & tree & sha & Hi & Hl0 & Hans & Hnew & Hup).
    exists result. split; [exact Hres|].
    assert (Hi' : issuedSince st (commitCode env i w st).2
                  = (l0 ++ [newCommitCall i ref tree]) ++ [updateCall i sha])
      by (by rewrite Hi, <- app_assoc).
    destruct (w (trace st ++ l0 ++ [newCommitCall i ref tree]) (updateCall i sha))
      as [[]|e] eqn:Hw.
    + destruct Hup as [Hs Hsha]. rewrite Hs, Hsha. split; [|split].
      * split; [|done]. intros _. by exists (l0 ++ [newCommitCall i ref tree]), sha.
      * intros sha'. split.
        -- intros [= <-]. split; [done|]. by eexists.
        -- intros [_ [pre Hpre]]. rewrite Hi' in Hpre.
           apply app_inj_tail in Hpre as [_ Heq]. by injection Heq as <-.
      * done.
    + subst result. simpl. split; [|split].
      * split; [done|]. intros (pre & sha' & Hpre & Hw'). rewrite Hi' in Hpre.
        apply app_inj_tail in Hpre as [<- Heq]. injection Heq as <-.
        congruence.
      * intros sha'. split; [done|]. by intros [? _].
      * intros _. by exists e.
Qed.

(** X10. Without reviewers (none given, or an empty list)
    [createPullRequest] never issues a reviewer request; once the client
    is obtained, a creation that is answered is its only call, and the
    result carries the url and the number of the pull request created. *)
Theorem createPullRequest_without_reviewers
    (env : ProcessEnv) (w : World) (i : PullRequestInput) (st : State) :
  hasReviewers i = false →
  Forall (λ c, isReviewersCall c = false)
    (issuedSince st (createPullRequest env i w st).2)
  ∧ ∀ st1 token pr,
      getUncachableGitHubClient env w st = (Returned token, st1) →
      w (trace st1) (createCall i) = Returned pr →
      createPullRequest env i w st
      = (Returned (pullRequestCreated pr),
         {| connectionSettings := connectionSettings st1;
            trace := trace st1 ++ [createCall i] |}).
Proof.
  intros Hrev. split.
  - destruct (getAccessToken_calls env github w st) as (auth & Htr & Hauth).
    assert (Hnot : Forall (λ c, isReviewersCall c = false) auth).
    { eapply Forall_impl; [exact Hauth|]. by intros []. }
    unfold createPullRequest, createPullRequestTry, createPullRequestCatch,
      getUncachableGitHubClient.
    unfold_monad.
    destruct (getAccessToken env github w st) as [[token|e] st1]; simpl in *.
    + rewrite Hrev.
      destruct (w (trace st1) (createCall i)) as [pr|e]; simpl;
        rewrite Htr, <- !app_assoc, issuedSince_app;
        (apply Forall_app; split; [done|]; by repeat constructor).
    + by rewrite (issuedSince_trace _ _ _ Htr).
  - intros st1 token pr Hauth Hcreate.
    unfold createPullRequest, createPullRequestTry, createPullRequestCatch.
    unfold_monad. rewrite Hauth. simpl. rewrite Hcreate. simpl. by rewrite Hrev.
Qed.

(** With an empty list of reviewers, the creation is the only call. *)
Lemma createPullRequest_without_reviewers_witness :
  createPullRequest exampleEnv withoutReviewers reliableWorld start
  = (Returned (pullRequestCreated
                 {| pr_number := 7; pr_html_url := "https://github.example/pull/7" |}),
     {| connectionSettings := connectionSettings authenticated;
        trace := trace authenticated ++ [createCall withoutReviewers] |}).
Proof.
  destruct (createPullRequest_without_reviewers exampleEnv reliableWorld withoutReviewers
              start eq_refl) as [_ Hrun].
  apply (Hrun authenticated (Some "token-1"%string)); reflexivity.
Defined.


Lemma smallFile_size (e : ContentEntry) :
  smallFile e = true →
  ce_type e = TFile ∧ ∃ size, ce_size e = Some size ∧ size ≠ 0 ∧ size < 100000.
Proof.
  unfold smallFile. destruct (ce_type e); try discriminate.
  destruct (ce_size e) as [size|]; [|discriminate].
  intros H. apply andb_prop in H as [H0 H1]. split; [done|]. exists size.
  split; [done|]. split; [|lia]. intros ->. discriminate.
Qed.

Section Origin.
Variables (decodeBase64 : string → string) (w : World) (i : ContentInput).

Lemma processItem_origin (e : ContentEntry) (st st' : State)
      (item : Item) (content : string) :
  processItem decodeBase64 i e w st = (Returned item, st') →
  item_content item = Some content →
  smallFile e = true
  ∧ item_path item = ce_path e ∧ item_type item = ce_type e
  ∧ item_size item = ce_size e
  ∧ fetchedFrom decodeBase64 w i (trace st) item content.
Proof.
  unfold processItem. destruct (smallFile e); unfold_monad; simpl.
  2:{ intros [= <- <-]. discriminate. }
  destruct (w (trace st) (contentCall i (ce_path e))) as [[l|entry]|err] eqn:Hw; simpl.
  - intros [= <- <-]. discriminate.
  - destruct (truthy (ce_content entry)) eqn:Ht; simpl.
    + destruct (ce_content entry) as [raw|] eqn:Hraw; [|discriminate].
      intros [= <- <-] [= <-]. simpl. repeat split.
      exists entry, raw. simpl. rewrite Hw. repeat split; [done|].
      intros ->. discriminate.
    + intros [= <- <-]. discriminate.
  - intros [= <- <-]. discriminate.
Qed.

Lemma mapM_origin (entries : list ContentEntry) (st st' : State)
      (items : list Item) (item : Item) (content : string) :
  mapM (processItem decodeBase64 i) entries w st = (Returned items, st') →
  item ∈ items →
  item_content item = Some content →
  item_type item = TFile
  ∧ (∃ size, item_size item = Some size ∧ size ≠ 0 ∧ size < 100000)
  ∧ ∃ pre post,
      trace st' = trace st ++ pre ++ contentCall i (item_path item) :: post
      ∧ fetchedFrom decodeBase64 w i (trace st ++ pre) item content.
Proof.
  revert st items. induction entries as [|e entries IH]; intros st items; simpl.
  - unfold_monad. intros [= <- <-] Hin. by apply elem_of_nil in Hin.
  - unfold_monad.
    destruct (processItem_run decodeBase64 w i e st) as (item0 & Hrun0 & _).
    rewrite Hrun0.
    set (st0 := {| connectionSettings := connectionSettings st;
                   trace := trace st ++ contentFetches i [e] |}) in *.
    destruct (mapM_processItem decodeBase64 w i entries st0) as (items0 & Hrun1 & _).
    rewrite Hrun1. simpl.
    intros [= <- <-] Hin Hcontent.
    apply elem_of_cons in Hin as [->|Hin].
    + destruct (processItem_origin e st st0 item0 content Hrun0 Hcontent)
        as (Hsmall & Hpath & Htype & Hsize & Hfetched).
      destruct (smallFile_size e Hsmall) as (Hfile & size & Hs & Hbounds).
      split; [congruence|]. split; [exists size; by rewrite Hsize|].
      exists [], (contentFetches i entries). rewrite app_nil_r. split; [|done].
      rewrite <- app_assoc. f_equal. unfold contentFetches. simpl.
      rewrite Hsmall. simpl. by rewrite Hpath.
    + destruct (IH st0 items0 Hrun1 Hin Hcontent)
        as (Htype & Hsize & pre & post & Htr & Hfetched).
      split; [done|]. split; [done|].
      exists (contentFetches i [e] ++ pre), post. split.
      * simpl in Htr. rewrite Htr. simpl. by rewrite <- !app_assoc.
      * by rewrite app_assoc.
Qed.
End Origin.

(** X11. An item of the listing carries content only if it is a file
    whose size is not 0 and below 100000, and the content is then the
    base64-decoded, non-empty text with which a fetch of that item's own
    path, issued in the same run, was answered. *)
Theorem getRepositoryContent_content_origin
    (env : ProcessEnv) (decodeBase64 : string → string)
    (w : World) (i : ContentInput) (st : State)
    (result : ContentResult) (item : Item) (content : string) :
  (getRepositoryContent env decodeBase64 i w st).1 = Returned result →
  item ∈ gc_items result →
  item_content item = Some content →
  item_type item = TFile
  ∧ (∃ size, item_size item = Some size ∧ size ≠ 0 ∧ size < 100000)
  ∧ ∃ pre post,
      trace (getRepositoryContent env decodeBase64 i w st).2
      = pre ++ contentCall i (item_path item) :: post
      ∧ fetchedFrom decodeBase64 w i pre item content.
Proof.
  unfold getRepositoryContent, getRepositoryContentTry, getRepositoryContentCatch,
    getUncachableGitHubClient.
  unfold_monad.
  destruct (getAccessToken env github w st) as [[token|e] st1]; simpl.
  2:{ intros [= <-] Hin. by apply elem_of_nil in Hin. }
  destruct (w (trace st1) (contentCall i (gc_path i))) as [response|e]; simpl.
  2:{ intros [= <-] Hin. by apply elem_of_nil in Hin. }
  set (st2 := {| connectionSettings := connectionSettings st1;
                 trace := trace st1 ++ [contentCall i (gc_path i)] |}).
  destruct (mapM_processItem decodeBase64 w i (entriesOf response) st2)
    as (items & Hrun & _).
  rewrite Hrun. simpl. intros [= <-] Hin Hcontent. simpl in Hin.
  destruct (mapM_origin decodeBase64 w i _ _ _ _ item content Hrun Hin Hcontent)
    as (Htype & Hsize & pre & post & Htr & Hfetched).
  split; [done|]. split; [done|].
  exists ((trace st1 ++ [contentCall i (gc_path i)]) ++ pre), post.
  split; [|done]. simpl in Htr. rewrite Htr. simpl. by rewrite <- !app_assoc.
Qed.

(** In the root listing, the content of [ok.ts] is what the fetch of
    [ok.ts] was answered with. *)
Lemma getRepositoryContent_content_origin_witness :
  ∃ pre post,
    trace (getRepositoryContent exampleEnv (λ s, s) rootListing contentWorld start).2
    = pre ++ contentCall rootListing "ok.ts" :: post
    ∧ fetchedFrom (λ s, s) contentWorld rootListing pre okItem "YWJj".
Proof.
  refine (proj2 (proj2 (getRepositoryContent_content_origin exampleEnv (λ s, s)
                          contentWorld rootListing start _ okItem "YWJj" eq_refl _ eq_refl))).
  do 2 apply list_elem_of_further. apply list_elem_of_here.
Defined.

(** X12. Asked for a path that is one file that passes the size test,
    [getRepositoryContent] issues the same call twice: the content it
    returns is decoded from the second answer, and is absent when the
    second call fails or carries none; the content of the first answer
    plays no part. *)
Theorem getRepositoryContent_single_file_twice
    (env : ProcessEnv) (decodeBase64 : string → string)
    (w : World) (i : ContentInput) (st st1 : State)
    (token : option string) (e : ContentEntry) :
  getUncachableGitHubClient env w st = (Returned token, st1) →
  w (trace st1) (contentCall i (gc_path i)) = Returned (ContentSingle e) →
  smallFile e = true →
  ce_path e = gc_path i →
  ∃ result item,
    getRepositoryContent env decodeBase64 i w st
    = (Returned result,
       {| connectionSettings := connectionSettings st1;
          trace := trace st1 ++ [contentCall i (gc_path i); contentCall i (gc_path i)] |})
    ∧ gc_success result = true
    ∧ gc_items result = [item]
    ∧ item_content item
      = match w (trace st1 ++ [contentCall i (gc_path i)]) (contentCall i (gc_path i)) with
        | Returned second => decodeBase64 <$> responseContent second
        | Thrown _ => None
        end.
Proof.
  intros Hauth Hfirst Hsmall Hpath.
  unfold getRepositoryContent, getRepositoryContentTry, getRepositoryContentCatch.
  unfold_monad. rewrite Hauth. simpl. rewrite Hfirst. simpl.
  unfold processItem. rewrite Hsmall, Hpath. unfold_monad. simpl.
  destruct (w (trace st1 ++ [contentCall i (gc_path i)]) (contentCall i (gc_path i)))
    as [second|err]; simpl.
  - destruct (responseContent second) as [content|]; simpl;
      eexists _, _; rewrite <- !app_assoc; simpl; done.
  - eexists _, _. rewrite <- !app_assoc. simpl. done.
Qed.

(** The file [ok.ts] is fetched twice. *)
Lemma getRepositoryContent_single_file_twice_witness :
  ∃ result item,
    getRepositoryContent exampleEnv (λ s, s) okListing contentWorld start
    = (Returned result,
       {| connectionSettings := connectionSettings authenticated;
          trace := trace authenticated
                   ++ [contentCall okListing "ok.ts"; contentCall okListing "ok.ts"] |})
    ∧ gc_success result = true
    ∧ gc_items result = [item]
    ∧ item_content item
      = match contentWorld (trace authenticated ++ [contentCall okListing "ok.ts"])
                (contentCall okListing "ok.ts") with
        | Returned second => (λ s, s) <$> responseContent second
        | Thrown _ => None
        end.
Proof.
  apply (getRepositoryContent_single_file_twice exampleEnv (λ s, s) contentWorld okListing
           start authenticated (Some "token-1"%string) okEntry); reflexivity.
Defined.

End GitHubRuns.

(** ** Runs of the Notion tools *)

Module NotionRuns.
Import Credentials CredentialsSpec GitHubSpec Notion NotionSpec NotionCases.
Import GitHubProofs.

(** X13. The first alias that is present decides, whatever its shape:
    a [Title] without text gives "Untitled" and a [Status] without a
    selection gives "Unknown" even when the page also has a usable
    [Name] or [status]; likewise [Description], [Assignee] and
    [Priority] give the empty string. *)
Theorem pageToTask_first_alias_shadows (page : Page) :
  (∀ p, page_properties page !! "Title" = Some p → untitled p →
        task_title (pageToTask page) = "Untitled"%string)
  ∧ (∀ p, page_properties page !! "Status" = Some p → unselected p →
          task_status (pageToTask page) = "Unknown"%string)
  ∧ (∀ p, page_properties page !! "Description" = Some p → wordless p →
          task_description (pageToTask page) = EmptyString)
  ∧ (∀ p, page_properties page !! "Assignee" = Some p → unassigned p →
          task_assignee (pageToTask page) = EmptyString)
  ∧ (∀ p, page_properties page !! "Priority" = Some p → unselected p →
          task_priority (pageToTask page) = EmptyString).
Proof.
  unfold pageToTask, extractTitle, extractStatus, extractDescription, extractAssignee,
    extractPriority. simpl.
  repeat split; intros p Hp Hshape; rewrite Hp.
  - destruct p as [[|t rest]|?|?|?|]; try done. by destruct (Hshape t rest).
  - destruct p as [?|[o|]|?|?|]; try done. by destruct (Hshape o).
  - destruct p as [?|?|[|t rest]|?|]; try done. by destruct (Hshape t rest).
  - destruct p as [?|?|?|[|x rest]|]; try done. by destruct (Hshape x rest).
  - destruct p as [?|[o|]|?|?|]; try done. by destruct (Hshape o).
Qed.

(** The page has a titled [Name] and a selected [status], and is read
    as untitled and of unknown status. *)
Lemma pageToTask_first_alias_shadows_witness :
  titleUnder (page_properties shadowedPage) "Name" "Release notes"
  ∧ task_title (pageToTask shadowedPage) = "Untitled"%string
  ∧ task_status (pageToTask shadowedPage) = "Unknown"%string.
Proof.
  split; [by eexists _, _|].
  destruct (pageToTask_first_alias_shadows shadowedPage) as (Htitle & Hstatus & _).
  split.
  - apply (Htitle (PTitle [])); [reflexivity|]. intros t rest. discriminate.
  - apply (Hstatus (PSelect None)); [reflexivity|]. intros o. discriminate.
Defined.

(** X14. Each of the two mutators issues one call at most beside the
    provider's, for the page it was given — a page update that sets the
    status, or a comment creation — and reports [success] exactly when
    that call was issued and answered. *)
Theorem notion_mutators_single_call
    (env : ProcessEnv) (w : World) (st : State) (pageId : string) :
  (∀ newStatus,
     ∃ auth result,
       Forall (λ c, isAuthCall c = true) auth
       ∧ (updateTaskStatus env pageId newStatus w st).1 = Returned result
       ∧ ((issuedSince st (updateTaskStatus env pageId newStatus w st).2 = auth
           ∧ mu_success result = false)
          ∨ (issuedSince st (updateTaskStatus env pageId newStatus w st).2
             = auth ++ [NotionPagesUpdate pageId newStatus]
             ∧ mu_success result
               = isReturned (w (trace st ++ auth) (NotionPagesUpdate pageId newStatus)))))
  ∧ (∀ comment,
       ∃ auth result,
         Forall (λ c, isAuthCall c = true) auth
         ∧ (addTaskComment env pageId comment w st).1 = Returned result
         ∧ ((issuedSince st (addTaskComment env pageId comment w st).2 = auth
             ∧ mu_success result = false)
            ∨ (issuedSince st (addTaskComment env pageId comment w st).2
               = auth ++ [NotionCommentsCreate pageId comment]
               ∧ mu_success result
                 = isReturned (w (trace st ++ auth) (NotionCommentsCreate pageId comment))))).
Proof.
  destruct (getAccessToken_calls env notion w st) as (auth & Htr & Hauth).
  split; intros x; exists auth;
    unfold updateTaskStatus, updateTaskStatusTry, updateTaskStatusCatch,
      addTaskComment, addTaskCommentTry, addTaskCommentCatch, getUncachableNotionClient;
    unfold_monad;
    (destruct (getAccessToken env notion w st) as [[token|e] st1]; simpl in *;
     [ rewrite <- Htr;
       destruct (w (trace st1) _) as [[]|e]; simpl;
       eexists; (split; [exact Hauth|]); (split; [reflexivity|]); right;
       rewrite Htr, <- !app_assoc, issuedSince_app; done
     | eexists; split; [exact Hauth|]; split; [reflexivity|]; left;
       by rewrite (issuedSince_trace _ _ _ Htr) ]).
Qed.

Local Arguments String.append : simpl nomatch.

Lemma append_nil_r (s : string) : (s ++ EmptyString)%string = s.
Proof. induction s as [|c s IH]; simpl; [done|]. f_equal. exact IH. Qed.

Lemma append_assoc (a b c : string) : ((a ++ b) ++ c)%string = (a ++ b ++ c)%string.
Proof. induction a as [|x a IH]; simpl; [done|]. f_equal. exact IH. Qed.

(** The loop appends to what it has. *)
Lemma blocksContent_from (acc : string) (blocks : list Block) :
  fold_left (λ content block, (content ++ blockLine block)%string) blocks acc
  = (acc ++ blocksContent blocks)%string.
Proof.
  unfold blocksContent. revert acc. induction blocks as [|b blocks IH]; intros acc; simpl.
  - by rewrite append_nil_r.
  - rewrite (IH (acc ++ blockLine b)%string), (IH (blockLine b)).
    by rewrite append_assoc.
Qed.

Lemma blocksContent_app (before after : list Block) :
  blocksContent (before ++ after)
  = (blocksContent before ++ blocksContent after)%string.
Proof.
  unfold blocksContent at 1. rewrite fold_left_app.
  fold (blocksContent before). by rewrite blocksContent_from.
Qed.

(** X15. The content of a page is built block by block, in order: a
    block of one of the six rendered types that has rich text adds its
    prefix, the plain text of its pieces and a line feed; any other
    block (another type, or no rich text) adds nothing, as if it were
    not there. *)
Theorem blocksContent_block_by_block (before after : list Block) (b : Block) :
  (rendered b = false →
   blocksContent (before ++ b :: after) = blocksContent (before ++ after))
  ∧ (∀ prefix rich,
       blockPrefix (block_type b) = Some prefix →
       block_rich_text b = Some rich →
       blocksContent (before ++ b :: after)
       = (blocksContent before ++ (prefix ++ plainText rich ++ lineFeed)
            ++ blocksContent after)%string).
Proof.
  assert (Hcons : blocksContent (b :: after)
                  = (blockLine b ++ blocksContent after)%string).
  { unfold blocksContent at 1. simpl. by rewrite blocksContent_from. }
  split.
  - intros Hb. rewrite !blocksContent_app, Hcons. f_equal.
    unfold rendered in Hb. unfold blockLine.
    destruct (blockPrefix (block_type b)); [|done].
    by destruct (block_rich_text b).
  - intros prefix rich Hprefix Hrich. rewrite blocksContent_app, Hcons.
    unfold blockLine. by rewrite Hprefix, Hrich.
Qed.

(** The to-do item of the body leaves no trace in the content. *)
Lemma blocksContent_block_by_block_witness :
  blocksContent body
  = blocksContent
      [ {| block_type := "heading_1"; block_rich_text := text "Goal" |};
        {| block_type := "paragraph"; block_rich_text := text "Add a dark theme." |};
        {| block_type := "paragraph"; block_rich_text := Some [] |} ].
Proof.
  apply (blocksContent_block_by_block
           [ {| block_type := "heading_1"; block_rich_text := text "Goal" |};
             {| block_type := "paragraph"; block_rich_text := text "Add a dark theme." |} ]
           [ {| block_type := "paragraph"; block_rich_text := Some [] |} ]
           {| block_type := "to_do"; block_rich_text := text "Pick the colours" |}).
  reflexivity.
Defined.

(** *** [trim] *)

Lemma dropSpaces_split (s : string) :
  ∃ lead, s = (lead ++ dropSpaces s)%string ∧ blank lead = true.
Proof.
  induction s as [|c s (lead & IH & Hlead)]; simpl.
  - by exists EmptyString.
  - destruct (isSpace c) eqn:Hc.
    + exists (String c lead). simpl. by rewrite Hc, Hlead, <- IH.
    + by exists EmptyString.
Qed.

Lemma dropSpaces_head (s r : string) (c : ascii) :
  dropSpaces s = String c r → isSpace c = false.
Proof.
  induction s as [|d s IH]; simpl; [discriminate|].
  destruct (isSpace d) eqn:Hd; [exact IH|]. by intros [= <- _].
Qed.

Lemma dropTrailingSpaces_split (s : string) :
  ∃ tail, s = (dropTrailingSpaces s ++ tail)%string ∧ blank tail = true.
Proof.
  induction s as [|c s (tail & IH & Htail)]; simpl.
  - by exists EmptyString.
  - destruct (dropTrailingSpaces s) as [|d r] eqn:Hs; simpl in *.
    + destruct (isSpace c) eqn:Hc.
      * exists (String c s). simpl. by rewrite Hc, IH, Htail.
      * exists tail. by rewrite IH at 1.
    + exists tail. by rewrite IH at 1.
Qed.

Lemma dropTrailingSpaces_last (s r : string) (c : ascii) :
  dropTrailingSpaces s = (r ++ String c EmptyString)%string → isSpace c = false.
Proof.
  revert r. induction s as [|d s IH]; intros r; simpl.
  - by destruct r.
  - destruct (dropTrailingSpaces s) as [|d' r'] eqn:Hs.
    + destruct (isSpace d) eqn:Hd.
      * by destruct r.
      * destruct r as [|? [|? ?]]; simpl; intros [= ]; by subst.
    + destruct r as [|x r]; simpl.
      * intros [= ]. 
      * intros [= <- Hr]. by apply (IH r).
Qed.

Lemma dropTrailingSpaces_head (s r : string) (c : ascii) :
  dropTrailingSpaces s = String c r → ∃ r', s = String c r'.
Proof.
  destruct s as [|d s]; simpl; [discriminate|].
  destruct (dropTrailingSpaces s); [destruct (isSpace d)|];
    intros [= ]; subst; by eexists.
Qed.

(** [trim] removes white space from both ends, and nothing else. *)
Lemma trim_edges (s : string) :
  ∃ lead tail,
    s = (lead ++ trim s ++ tail)%string
    ∧ blank lead = true ∧ blank tail = true ∧ edgeFree (trim s).
Proof.
  destruct (dropSpaces_split s) as (lead & Hs & Hlead).
  destruct (dropTrailingSpaces_split (dropSpaces s)) as (tail & Ht & Htail).
  exists lead, tail. unfold trim. split; [by rewrite <- Ht|].
  split; [done|]. split; [done|]. split.
  - intros c r Hc. apply dropTrailingSpaces_head in Hc as [r' Hc].
    by apply dropSpaces_head in Hc.
  - intros r c Hc. by apply dropTrailingSpaces_last in Hc.
Qed.

(** X16. When [queryTaskDetails] returns, it has retrieved the page and
    then listed the blocks of the same page id, the task is read off that
    page, and the content is the text built from those blocks with the
    white space at both ends removed and nothing else: it neither starts
    nor ends with white space. *)
Theorem queryTaskDetails_content_trimmed
    (env : ProcessEnv) (w : World) (pageId : string) (st : State)
    (details : TaskDetails) :
  (queryTaskDetails env pageId w st).1 = Returned details →
  ∃ pre page blocks lead tail,
    trace (queryTaskDetails env pageId w st).2
    = pre ++ [NotionPagesRetrieve pageId; NotionBlocksChildrenList pageId]
    ∧ w pre (NotionPagesRetrieve pageId) = Returned page
    ∧ w (pre ++ [NotionPagesRetrieve pageId]) (NotionBlocksChildrenList pageId)
      = Returned blocks
    ∧ td_task details = pageToTask page
    ∧ blocksContent blocks = (lead ++ td_content details ++ tail)%string
    ∧ blank lead = true ∧ blank tail = true
    ∧ edgeFree (td_content details).
Proof.
  unfold queryTaskDetails, queryTaskDetailsTry, queryTaskDetailsCatch,
    getUncachableNotionClient.
  unfold_monad.
  destruct (getAccessToken env notion w st) as [[token|e] st1]; simpl; [|discriminate].
  destruct (w (trace st1) (NotionPagesRetrieve pageId)) as [page|e] eqn:Hpage; simpl;
    [|discriminate].
  destruct (w (trace st1 ++ [NotionPagesRetrieve pageId]) (NotionBlocksChildrenList pageId))
    as [blocks|e] eqn:Hblocks; simpl; [|discriminate].
  intros [= <-]. simpl.
  destruct (trim_edges (blocksContent blocks)) as (lead & tail & Hsplit & Hlead & Htail & Hfree).
  exists (trace st1), page, blocks, lead, tail.
  rewrite <- app_assoc. done.
Qed.

(** The heading and the paragraph of the body, without the line feeds
    that end the text. *)
Lemma queryTaskDetails_content_trimmed_witness :
  ∃ pre page blocks lead tail,
    trace (queryTaskDetails exampleEnv "page-1" notebook start).2
    = pre ++ [NotionPagesRetrieve "page-1"; NotionBlocksChildrenList "page-1"]
    ∧ notebook pre (NotionPagesRetrieve "page-1") = Returned page
    ∧ notebook (pre ++ [NotionPagesRetrieve "page-1"]) (NotionBlocksChildrenList "page-1")
      = Returned blocks
    ∧ td_task darkModeDetails = pageToTask page
    ∧ blocksContent blocks = (lead ++ td_content darkModeDetails ++ tail)%string
    ∧ blank lead = true ∧ blank tail = true
    ∧ edgeFree (td_content darkModeDetails).
Proof.
  apply (queryTaskDetails_content_trimmed exampleEnv notebook "page-1" start darkModeDetails).
  reflexivity.
Defined.

(** X17. [readKanbanBoard] does the same whatever database id and
    status filter it is given.  Beside the provider's calls it issues
    one search for the pages of the whole workspace, with a page size of
    100, and when it returns, its tasks are the pages that search found,
    one task per page and in the same order. *)
Theorem readKanbanBoard_searches_workspace
    (env : ProcessEnv) (w : World) (st : State)
    (databaseId : string) (statusFilter : option string) :
  (∀ databaseId' statusFilter',
     readKanbanBoard env databaseId' statusFilter' w st
     = readKanbanBoard env databaseId statusFilter w st)
  ∧ Forall (λ c, isAuthCall c = true ∨ c = NotionSearch "page" "object" 100)
      (issuedSince st (readKanbanBoard env databaseId statusFilter w st).2)
  ∧ (∀ tasks,
       (readKanbanBoard env databaseId statusFilter w st).1 = Returned tasks →
       ∃ pre pages,
         trace (readKanbanBoard env databaseId statusFilter w st).2
         = pre ++ [NotionSearch "page" "object" 100]
         ∧ w pre (NotionSearch "page" "object" 100) = Returned pages
         ∧ tasks = map pageToTask pages).
Proof.
  split; [done|].
  destruct (getAccessToken_calls env notion w st) as (auth & Htr & Hauth).
  assert (Hauth' : Forall (λ c, isAuthCall c = true ∨ c = NotionSearch "page" "object" 100)
                     auth).
  { eapply Forall_impl; [exact Hauth|]. auto. }
  unfold readKanbanBoard, readKanbanBoardTry, readKanbanBoardCatch,
    getUncachableNotionClient.
  unfold_monad.
  destruct (getAccessToken env notion w st) as [[token|e] st1]; simpl in *.
  - destruct (w (trace st1) (NotionSearch "page" "object" 100)) as [pages|e] eqn:Hsearch;
      simpl.
    + split.
      * rewrite Htr, <- !app_assoc, issuedSince_app.
        apply Forall_app. split; [done|]. by repeat constructor.
      * intros tasks [= <-]. by exists (trace st1), pages.
    + split; [|discriminate].
      rewrite Htr, <- !app_assoc, issuedSince_app.
      apply Forall_app. split; [done|]. by repeat constructor.
  - split; [|discriminate]. by rewrite (issuedSince_trace _ _ _ Htr).
Qed.

End NotionRuns.

(** ** The planning, test and quality tools *)

Module DevelopmentRuns.
Import Development WorkflowSpec DevelopmentCases.
Import AnswerProofs DevelopmentProofs.

Lemma hasDestructiveIntent_destructive (i : ImplementInput) :
  hasDestructiveIntent i = true
  ↔ destructive (taskDescription i) ∨ destructive (requirements i).
Proof.
  unfold hasDestructiveIntent, destructive. rewrite existsb_exists. split.
  - intros (keyword & Hin & H). apply orb_prop in H as [H|H];
      apply includes_holds in H; [left|right]; exists keyword;
      by rewrite list_elem_of_In.
  - intros [(keyword & Hin & H)|(keyword & Hin & H)];
      exists keyword; rewrite <- list_elem_of_In; (split; [done|]);
      apply includes_holds in H; rewrite H; [done|apply orb_true_r].
Qed.

(** X18. The planner throws its safety block exactly when the task
    description or the requirements hold one of the destructive
    keywords, in any case of the letters and anywhere in the text, also
    inside a longer word; it throws nothing else, and returns a plan for
    every other task. *)
Theorem implementCodeChanges_blocks_destructive (i : ImplementInput) :
  (implementCodeChanges i = Thrown safetyBlock
   ↔ destructive (taskDescription i) ∨ destructive (requirements i))
  ∧ (∀ e, implementCodeChanges i = Thrown e → e = safetyBlock)
  ∧ (¬ (destructive (taskDescription i) ∨ destructive (requirements i))
     → ∃ plan, implementCodeChanges i = Returned plan).
Proof.
  rewrite <- hasDestructiveIntent_destructive.
  unfold implementCodeChanges, implementCodeChangesTry, implementCodeChangesCatch.
  destruct (hasDestructiveIntent i); simpl.
  - split; [done|]. split; [by intros e [= <-]|]. intros H. by destruct H.
  - split; [split; discriminate|]. split; [discriminate|]. intros _. by eexists.
Qed.

(** "Truncated" holds the keyword "truncate": the task is blocked. *)
Lemma implementCodeChanges_blocks_destructive_witness :
  implementCodeChanges ellipsis = Thrown safetyBlock.
Proof.
  apply (implementCodeChanges_blocks_destructive ellipsis).
  right. exists "truncate"%string. split.
  - do 4 apply list_elem_of_further. apply list_elem_of_here.
  - by exists "Titles are "%string, "Truncate"%string, "d with an ellipsis"%string.
Defined.

Lemma seen_elem (x : string) (seen : list string) :
  existsb (String.eqb x) seen = true ↔ x ∈ seen.
Proof.
  rewrite existsb_exists. split.
  - intros (y & Hin & Heq). apply String.eqb_eq in Heq as ->.
    by apply list_elem_of_In.
  - intros Hin. exists x. split; [by apply list_elem_of_In|apply String.eqb_refl].
Qed.

Lemma uniqueFrom_elem (x : string) (seen xs : list string) :
  x ∈ uniqueFrom seen xs ↔ x ∈ xs ∧ x ∉ seen.
Proof.
  revert seen. induction xs as [|y xs IH]; intros seen; simpl.
  - rewrite elem_of_nil. tauto.
  - destruct (existsb (String.eqb y) seen) eqn:Hy.
    + apply seen_elem in Hy. rewrite IH, elem_of_cons. split.
      * intros [? ?]. tauto.
      * intros [[->|?] ?]; tauto.
    + assert (Hy' : y ∉ seen) by (rewrite <- seen_elem; congruence).
      rewrite !elem_of_cons, IH, elem_of_cons. split.
      * intros [->|[? ?]]; [tauto|]. split; [tauto|]. tauto.
      * intros [[->|?] ?]; [tauto|].
        destruct (decide (x = y)) as [->|Hne]; [tauto|]. right.
        split; [done|]. intros [?|?]; tauto.
Qed.

Lemma uniqueFrom_NoDup (seen xs : list string) : NoDup (uniqueFrom seen xs).
Proof.
  revert seen. induction xs as [|y xs IH]; intros seen; simpl.
  - constructor.
  - destruct (existsb (String.eqb y) seen); [apply IH|].
    constructor; [|apply IH]. rewrite uniqueFrom_elem, elem_of_cons. tauto.
Qed.

Lemma scope_nonempty (i : ImplementInput) : scope i ≠ [].
Proof.
  unfold scope.
  destruct (targetFiles i) as [[|f r]|];
    match goal with |- context [match ?l with [] => _ | _ :: _ => _ end] =>
      destruct l eqn:Hl end; done.
Qed.

(** X19. The scope of a returned plan is never empty and lists no area
    twice: it holds exactly the areas found from the target files (or,
    without target files, from the description), each once, and the two
    default areas when nothing was found. *)
Theorem implementCodeChanges_scope (i : ImplementInput) (plan : Plan) :
  implementCodeChanges i = Returned plan →
  plan_scope plan ≠ []
  ∧ NoDup (plan_scope plan)
  ∧ (∀ area, area ∈ plan_scope plan ↔ area ∈ scope i)
  ∧ (match targetFiles i with
     | Some (f :: r) => concat (map fileScope (f :: r)) = []
     | _ => inferredScope i = []
     end →
     plan_scope plan = ["Application Logic"; "Core Functionality"]%string).
Proof.
  unfold implementCodeChanges, implementCodeChangesTry, implementCodeChangesCatch.
  destruct (hasDestructiveIntent i); simpl; [discriminate|].
  intros [= <-]. simpl.
  assert (Helem : ∀ area, area ∈ uniqueFrom [] (scope i) ↔ area ∈ scope i).
  { intros area. rewrite uniqueFrom_elem, elem_of_nil. tauto. }
  split; [|split; [apply uniqueFrom_NoDup|split; [exact Helem|]]].
  - pose proof (scope_nonempty i) as Hne.
    destruct (scope i) as [|x l] eqn:Hs; [done|]. intros Hnil.
    assert (Hx : x ∈ uniqueFrom [] (x :: l)) by (rewrite Helem; left).
    rewrite Hnil in Hx. by apply elem_of_nil in Hx.
  - unfold scope. destruct (targetFiles i) as [[|f r]|]; simpl; by intros ->.
Qed.

(** Two components and a test: three files, two areas. *)
Lemma implementCodeChanges_scope_witness :
  plan_scope twoComponentsPlan ≠ []
  ∧ NoDup (plan_scope twoComponentsPlan)
  ∧ (∀ area, area ∈ plan_scope twoComponentsPlan ↔ area ∈ scope twoComponents).
Proof.
  destruct (implementCodeChanges_scope twoComponents twoComponentsPlan eq_refl)
    as (Hne & Hnodup & Helem & _).
  done.
Defined.

(** X20. A task counts as a security task only when its description
    holds "security" or "vulnerability" and none of "fix", "bug",
    "refactor" and "improve": the earlier categories win.  The risk
    "Security changes require expert review" is listed exactly for
    security tasks, so a task described as fixing a vulnerability is a
    bugfix planned without it. *)
Theorem taskType_security_precedence (i : ImplementInput) :
  (taskType i = "security"%string
   ↔ (holds (taskDescription i) "security" ∨ holds (taskDescription i) "vulnerability")
     ∧ ¬ holds (taskDescription i) "fix" ∧ ¬ holds (taskDescription i) "bug"
     ∧ ¬ holds (taskDescription i) "refactor" ∧ ¬ holds (taskDescription i) "improve")
  ∧ ("Security changes require expert review"%string ∈ risks i
     ↔ taskType i = "security"%string)
  ∧ (holds (taskDescription i) "fix" ∨ holds (taskDescription i) "bug" →
     taskType i = "bugfix"%string
     ∧ approach i = "Root cause analysis followed by targeted fix"%string).
Proof.
  rewrite <- !includes_holds. split; [|split].
  - unfold taskType, Development.mentions.
    set (d := toLowerCase (taskDescription i)).
    destruct (includes d "fix"); simpl.
    { split; [discriminate|]. intros (_ & H & _). by destruct H. }
    destruct (includes d "bug"); simpl.
    { split; [discriminate|]. intros (_ & _ & H & _). by destruct H. }
    destruct (includes d "refactor"); simpl.
    { split; [discriminate|]. intros (_ & _ & _ & H & _). by destruct H. }
    destruct (includes d "improve"); simpl.
    { split; [discriminate|]. intros (_ & _ & _ & _ & H). by destruct H. }
    destruct (includes d "security"); simpl.
    { split; [|done]. intros _. split; [by left|]. repeat split; discriminate. }
    destruct (includes d "vulnerability"); simpl.
    { split; [|done]. intros _. split; [by right|]. repeat split; discriminate. }
    split; [|by intros [[?|?] _]].
    destruct (includes d "performance"), (includes d "optimize"), (includes d "ui"),
      (includes d "frontend"), (includes d "api"), (includes d "backend");
      discriminate.
  - unfold risks.
    destruct (String.eqb (taskType i) "security") eqn:He.
    + apply String.eqb_eq in He. split; [done|]. intros _.
      rewrite !elem_of_app. do 3 right. apply list_elem_of_here.
    + apply String.eqb_neq in He. split; [|done]. intros H. exfalso.
      destruct (complexity i), (priority i), (targetFiles i) as [files|];
        try destruct (5 <? length files)%nat;
        repeat (apply elem_of_app in H as [H|H]
                || apply elem_of_cons in H as [H|H]
                || apply elem_of_nil in H);
        try discriminate H; try done.
  - intros H.
    assert (Ht : taskType i = "bugfix"%string).
    { unfold taskType, Development.mentions. destruct H as [-> | ->]; [done|].
      by rewrite orb_true_r. }
    split; [done|]. unfold approach. by rewrite Ht.
Qed.

(** "Fix the security vulnerability": a bugfix, without the review risk. *)
Lemma taskType_security_precedence_witness :
  taskType tokenLeak = "bugfix"%string
  ∧ approach tokenLeak = "Root cause analysis followed by targeted fix"%string.
Proof.
  apply (taskType_security_precedence tokenLeak).
  left. by exists EmptyString, "Fix"%string,
               " the security vulnerability in token storage"%string.
Defined.

(** X21. The test runner reports 8 of 8 tests passed, none failed and
    the status "success" for every input, with coverage 92 exactly when
    coverage was asked for.  The details are those of the three fixed
    test files whose name includes one of the target files, so with an
    empty list of target files no detail stands behind the 8 tests. *)
Theorem runCodeTests_reports_success (targetFiles : option (list string))
        (coverage : bool) :
  ∃ report,
    runCodeTests targetFiles coverage = Returned report
    ∧ tests_passed report = 8 ∧ tests_failed report = 0 ∧ tests_total report = 8
    ∧ report_status report = "success"%string
    ∧ tests_coverage report = (if coverage then Some 92 else None)
    ∧ (∀ detail,
         detail ∈ tests_details report
         ↔ detail ∈ mockDetails
           ∧ ∀ files, targetFiles = Some files →
                      ∃ file, file ∈ files ∧ includes (detail_file detail) file = true)
    ∧ (targetFiles = Some [] → tests_details report = []).
Proof.
  eexists. split; [reflexivity|].
  cbn [tests_passed tests_failed tests_total report_status tests_coverage tests_details].
  do 5 (split; [done|]). split; [|by intros ->].
  intros detail. split.
  - intros Hin. destruct targetFiles as [files|]; [|by split].
    rewrite list_elem_of_In in Hin. apply filter_In in Hin as [Hmock Hsome].
    split; [by apply list_elem_of_In|]. intros files' [= <-].
    apply existsb_exists in Hsome as (file & Hfile & Hinc).
    exists file. by rewrite list_elem_of_In.
  - intros [Hin Hfiles]. destruct targetFiles as [files|]; [|done].
    destruct (Hfiles files eq_refl) as (file & Hfile & Hinc).
    rewrite list_elem_of_In. apply filter_In. split; [by apply list_elem_of_In|].
    apply existsb_exists. exists file. by rewrite <- list_elem_of_In.
Qed.

(** X22. The quality validator never reports an error: for every list
    of paths the summary has 0 errors, 1 warning and [passed = true],
    and the recommendations are the five standing ones.  The issues are
    informational notes on the given files, followed by one style warning
    that is filed against the first path, or against "example.ts" when
    the list is empty or its first path is the empty string. *)
Theorem validateCodeQuality_never_errors (filePaths : list string) :
  ∃ report notes,
    validateCodeQuality filePaths = Returned report
    ∧ summary report
      = {| summary_errors := 0; summary_warnings := 1; summary_passed := true |}
    ∧ quality_recommendations report = standingRecommendations
    ∧ issues report = notes ++ [styleWarning filePaths]
    ∧ Forall (λ note, issue_type note = IssueInfo ∧ issue_file note ∈ filePaths) notes
    ∧ (issue_file (styleWarning filePaths) ∈ filePaths
       ∨ issue_file (styleWarning filePaths) = "example.ts"%string).
Proof.
  assert (Herr : countIssues isError
                   (concat (map fileIssues filePaths) ++ [styleWarning filePaths]) = 0).
  { rewrite countIssues_app, countIssues_concat; [done|].
    intros path. by apply fileIssues_info. }
  assert (Hwarn : countIssues isWarning
                    (concat (map fileIssues filePaths) ++ [styleWarning filePaths]) = 1).
  { rewrite countIssues_app, countIssues_concat; [done|].
    intros path. by apply fileIssues_info. }
  exists {| qualityScore := 93;
            issues := concat (map fileIssues filePaths) ++ [styleWarning filePaths];
            summary := {| summary_errors := 0; summary_warnings := 1;
                          summary_passed := true |};
            quality_recommendations := standingRecommendations |},
    (concat (map fileIssues filePaths)).
  split.
  { unfold validateCodeQuality, validateCodeQualityTry. simpl.
    rewrite Herr, Hwarn. reflexivity. }
  simpl. repeat split.
  - apply Forall_concat, Forall_map, Forall_forall. intros path Hpath.
    unfold fileIssues.
    destruct (endsWith path ".tsx" || endsWith path ".ts"),
      (includes path "component"); simpl; by repeat constructor.
  - unfold firstPathOr. destruct filePaths as [|p r]; [by right|].
    destruct (String.eqb p EmptyString); [by right|]. left. apply list_elem_of_here.
Qed.

End DevelopmentRuns.

(** ** The earlier planner *)

Module EarlierRuns.
Import Earlier WorkflowSpec EarlierCases.
Import StringProofs AnswerProofs.

Local Arguments String.append : simpl nomatch.

(** What [sanitize] changes is not a letter, before and after. *)
Lemma sanitized_char (c : ascii) :
  lowerChar (if isAlphanumeric c then c else "_"%char) = lowerChar c
  ∨ (isLowerLetter (lowerChar (if isAlphanumeric c then c else "_"%char)) = false
     ∧ isLowerLetter (lowerChar c) = false).
Proof. each_char c; vm_compute; auto. Qed.

Lemma sanitized_no_space (c : ascii) :
  Ascii.eqb " " (lowerChar (if isAlphanumeric c then c else "_"%char)) = false.
Proof. each_char c; vm_compute; reflexivity. Qed.

Lemma letter_eqb (a x y : ascii) :
  isLowerLetter a = true →
  x = y ∨ (isLowerLetter x = false ∧ isLowerLetter y = false) →
  Ascii.eqb a x = Ascii.eqb a y.
Proof.
  intros Ha [->|[Hx Hy]]; [done|].
  destruct (Ascii.eqb_spec a x) as [->|_]; [congruence|].
  destruct (Ascii.eqb_spec a y) as [->|_]; [congruence|]. done.
Qed.

Lemma startsWith_sanitize (word s : string) :
  lowerWord word = true →
  startsWith (toLowerCase (sanitize s)) word = startsWith (toLowerCase s) word.
Proof.
  revert s. induction word as [|a word IH]; intros s Hword.
  - by destruct s.
  - simpl in Hword. apply andb_prop in Hword as [Ha Hword].
    destruct s as [|c s]; simpl; [done|].
    by rewrite (letter_eqb a _ _ Ha (sanitized_char c)), IH.
Qed.

Lemma includes_sanitize (word s : string) :
  lowerWord word = true →
  includes (toLowerCase (sanitize s)) word = includes (toLowerCase s) word.
Proof.
  intros Hword. induction s as [|c s IH].
  - reflexivity.
  - change (toLowerCase (sanitize (String c s)))
      with (String (lowerChar (if isAlphanumeric c then c else "_"%char))
              (toLowerCase (sanitize s))).
    change (toLowerCase (String c s)) with (String (lowerChar c) (toLowerCase s)).
    rewrite !includes_cons, IH. f_equal.
    apply (startsWith_sanitize word (String c s) Hword).
Qed.

Lemma sanitize_no_space (s : string) :
  includes (toLowerCase (sanitize s)) " " = false.
Proof.
  induction s as [|c s IH]; [reflexivity|].
  change (toLowerCase (sanitize (String c s)))
    with (String (lowerChar (if isAlphanumeric c then c else "_"%char))
            (toLowerCase (sanitize s))).
  rewrite includes_cons, IH, orb_false_r. cbn [startsWith].
  by rewrite sanitized_no_space.
Qed.

Lemma includes_trans (s n m : string) :
  includes s n = true → includes n m = true → includes s m = true.
Proof.
  rewrite !includes_infix. intros (pre & post & ->) (pre' & post' & ->).
  exists (pre ++ pre')%string, (post' ++ post)%string.
  rewrite !NotionRuns.append_assoc. reflexivity.
Qed.

(** The guidance written for a target file looks like a placeholder
    exactly when the file's name does. *)
Lemma looksLikePlaceholder_targeted (file : string) :
  looksLikePlaceholder (targetedChange file)
  = includes (toLowerCase file) "todo" || includes (toLowerCase file) "placeholder".
Proof.
  unfold looksLikePlaceholder, targetedChange. cbn [change_content].
  rewrite toLowerCase_app.
  change (toLowerCase "IMPLEMENTATION_PLAN_FOR_") with "implementation_plan_for_"%string.
  set (x := toLowerCase (sanitize file)).
  assert (Hgo : includes ("implementation_plan_for_" ++ x) "implementation would go here"
                = false).
  { destruct (includes _ "implementation would go here") eqn:H; [|done].
    assert (Hspace : includes ("implementation_plan_for_" ++ x) " " = true)
      by (by apply (includes_trans _ _ _ H)).
    assert (Hx : includes ("implementation_plan_for_" ++ x) " " = includes x " ")
      by reflexivity.
    rewrite Hx in Hspace. unfold x in Hspace.
    rewrite sanitize_no_space in Hspace. discriminate. }
  rewrite Hgo.
  assert (Htodo : includes ("implementation_plan_for_" ++ x) "todo" = includes x "todo")
    by reflexivity.
  assert (Hph : includes ("implementation_plan_for_" ++ x) "placeholder"
                = includes x "placeholder") by reflexivity.
  rewrite Htodo, Hph. unfold x. by rewrite !includes_sanitize.
Qed.

Lemma hasPlaceholders_targeted (files : list string) :
  hasPlaceholders (map targetedChange files) = true
  ↔ ∃ file, file ∈ files ∧ namedLikePlaceholder file.
Proof.
  unfold hasPlaceholders, namedLikePlaceholder. rewrite existsb_exists. split.
  - intros (change & Hin & H). apply in_map_iff in Hin as (file & <- & Hin).
    rewrite looksLikePlaceholder_targeted in H. exists file.
    split; [by apply list_elem_of_In|].
    apply orb_prop in H as [H|H]; apply includes_holds in H; auto.
  - intros (file & Hin & H). exists (targetedChange file). split.
    + apply in_map. by apply list_elem_of_In.
    + rewrite looksLikePlaceholder_targeted.
      destruct H as [H|H]; apply includes_holds in H; rewrite H;
        [done|apply orb_true_r].
Qed.

(** X23. The earlier planner refuses its own output: it throws
    "Implementation tool blocked: ..." exactly when one of the target
    files has "todo" or "placeholder" in its name, in any case of the
    letters, whatever the task.  It throws nothing else; otherwise it
    returns the status "planned" with one change per target file, in
    order, or the single generic change when no target file is given. *)
Theorem earlier_implementCodeChanges_blocked (i : ImplementInput) :
  (implementCodeChanges i = Thrown blocked
   ↔ ∃ files file,
       targetFiles i = Some files ∧ file ∈ files ∧ namedLikePlaceholder file)
  ∧ (∀ e, implementCodeChanges i = Thrown e → e = blocked)
  ∧ (∀ result,
       implementCodeChanges i = Returned result →
       implementation_status result = "planned"%string
       ∧ match targetFiles i with
         | Some (f :: r) => map change_filePath (codeChanges result) = f :: r
         | _ => codeChanges result = [genericChange]
         end).
Proof.
  assert (Hblocked : hasPlaceholders (changesFor i) = true
                     ↔ ∃ files file,
                         targetFiles i = Some files ∧ file ∈ files
                         ∧ namedLikePlaceholder file).
  { unfold changesFor. destruct (targetFiles i) as [[|f r]|].
    - split; [discriminate|]. intros (files & file & [= <-] & Hin & _).
      by apply elem_of_nil in Hin.
    - rewrite hasPlaceholders_targeted. split.
      + intros (file & Hin & H). by exists (f :: r), file.
      + intros (files & file & [= <-] & Hin & H). by exists file.
    - split; [discriminate|]. by intros (files & file & [=] & _). }
  rewrite <- Hblocked.
  unfold implementCodeChanges, implementCodeChangesTry, implementCodeChangesCatch.
  destruct (hasPlaceholders (changesFor i)); simpl.
  - split; [done|]. split; [by intros e [= <-]|]. discriminate.
  - split; [split; discriminate|]. split; [discriminate|].
    intros result [= <-]. cbn [implementation_status codeChanges]. split; [done|].
    unfold changesFor. destruct (targetFiles i) as [[|f r]|]; try done.
    rewrite map_map. cbn [targetedChange change_filePath]. apply map_id.
Qed.

(** A task that names [TodoList.tsx] among its target files is refused. *)
Lemma earlier_implementCodeChanges_blocked_witness :
  implementCodeChanges dueDates = Thrown blocked.
Proof.
  apply (earlier_implementCodeChanges_blocked dueDates).
  exists [ "src/components/Header.tsx"; "src/components/TodoList.tsx" ]%string,
    "src/components/TodoList.tsx"%string.
  split; [reflexivity|]. split.
  - apply list_elem_of_further, list_elem_of_here.
  - left. by exists "src/components/"%string, "Todo"%string, "List.tsx"%string.
Defined.

End EarlierRuns.

(** ** Results of the task-discovery step *)

Module StepRuns.
Import Regex RegexSpec Workflow WorkflowSpec WorkflowCases.
Import RegexProofs AnswerProofs.

Local Arguments String.append : simpl nomatch.

Lemma digitValue_range (c : ascii) : isDigit c = true → 0 ≤ digitValue c ≤ 9.
Proof.
  unfold isDigit, digitValue. intros H. apply andb_prop in H as [H1 H2].
  apply N.leb_le in H1, H2. lia.
Qed.

Lemma decimal_from (ds : list ascii) (acc : Z) :
  Forall (λ c, isDigit c = true) ds → 0 ≤ acc →
  0 ≤ fold_left (λ acc c, acc * 10 + digitValue c) ds acc.
Proof.
  intros Hds. revert acc. induction Hds as [|c ds Hc _ IH]; intros acc Hacc; simpl.
  - done.
  - apply IH. pose proof (digitValue_range c Hc). lia.
Qed.

(** The double of a natural number is a natural number, or [Infinity]. *)
Lemma toDouble_natural (n : Z) :
  0 ≤ n → toDouble n = Infinity ∨ ∃ v, toDouble n = Int v ∧ 0 ≤ v.
Proof.
  intros Hn. unfold toDouble.
  destruct (n <? 2 ^ 53); [right; by exists n|].
  cbv zeta.
  set (e := Z.log2 n - 52).
  set (q := Z.shiftr n e).
  set (q' := if n - Z.shiftl q e <? Z.shiftl 1 (e - 1) then q
             else if Z.shiftl 1 (e - 1) <? n - Z.shiftl q e then q + 1
             else if Z.even q then q else q + 1).
  destruct (2 ^ 1024 <=? Z.shiftl q' e); [by left|]. right.
  exists (Z.shiftl q' e). split; [reflexivity|].
  apply Z.shiftl_nonneg.
  assert (Hq : 0 ≤ q) by (by apply Z.shiftr_nonneg).
  unfold q'. repeat case_match; lia.
Qed.

(** Only a number of at least 2^1023 is read as [Infinity]. *)
Lemma toDouble_infinity (n : Z) : 0 ≤ n → toDouble n = Infinity → 2 ^ 1023 ≤ n.
Proof.
  intros Hn. unfold toDouble.
  destruct (Z.ltb_spec n (2 ^ 53)) as [|Hbig]; [discriminate|].
  cbv zeta.
  set (e := Z.log2 n - 52).
  set (q := Z.shiftr n e).
  set (q' := if n - Z.shiftl q e <? Z.shiftl 1 (e - 1) then q
             else if Z.shiftl 1 (e - 1) <? n - Z.shiftl q e then q + 1
             else if Z.even q then q else q + 1).
  destruct (Z.leb_spec (2 ^ 1024) (Z.shiftl q' e)) as [Hinf|]; [|discriminate].
  intros _.
  assert (Hpos : 0 < n).
  { eapply Z.lt_le_trans; [|exact Hbig]. reflexivity. }
  destruct (Z.le_gt_cases (2 ^ 1023) n) as [|Hsmall]; [done|]. exfalso.
  assert (Hlog : 53 ≤ Z.log2 n) by (by apply Z.log2_le_pow2).
  assert (Hlog' : Z.log2 n < 1023) by (by apply Z.log2_lt_pow2).
  assert (He : 0 ≤ e) by (unfold e; lia).
  destruct (Z.log2_spec n Hpos) as [_ Hup].
  replace (Z.succ (Z.log2 n)) with (e + 53) in Hup by (unfold e; lia).
  rewrite Z.pow_add_r in Hup by lia.
  assert (Hp : 0 < 2 ^ e) by (by apply Z.pow_pos_nonneg).
  assert (Hq : q < 2 ^ 53).
  { unfold q. rewrite Z.shiftr_div_pow2 by done.
    apply Z.div_lt_upper_bound; [exact Hp|exact Hup]. }
  assert (Hq' : q' ≤ 2 ^ 53) by (unfold q'; repeat case_match; lia).
  rewrite Z.shiftl_mul_pow2 in Hinf by done.
  assert (Hle : q' * 2 ^ e ≤ 2 ^ 53 * 2 ^ e) by (apply Z.mul_le_mono_nonneg_r; lia).
  rewrite <- Z.pow_add_r in Hle by lia.
  assert (Hexp : 2 ^ (53 + e) ≤ 2 ^ 1023)
    by (apply Z.pow_le_mono_r; unfold e; lia).
  assert (Hlt : 2 ^ 1023 < 2 ^ 1024) by reflexivity.
  lia.
Qed.

Lemma decimal_below (ds : list ascii) (acc : Z) :
  Forall (λ c, isDigit c = true) ds → 0 ≤ acc →
  fold_left (λ acc c, acc * 10 + digitValue c) ds acc
  < (acc + 1) * 10 ^ Z.of_nat (length ds).
Proof.
  intros Hds. revert acc. induction Hds as [|c ds Hc _ IH]; intros acc Hacc.
  - simpl. lia.
  - cbn [fold_left length]. pose proof (digitValue_range c Hc) as Hd.
    eapply Z.lt_le_trans; [apply IH; lia|].
    rewrite Nat2Z.inj_succ, Z.pow_succ_r by lia.
    assert (0 < 10 ^ Z.of_nat (length ds)) by (apply Z.pow_pos_nonneg; lia).
    nia.
Qed.

Lemma length_chars (s : string) : length (chars s) = String.length s.
Proof. induction s as [|c s IH]; simpl; [done|]. by rewrite IH. Qed.

(** Whatever the answer, the count read from it is [Infinity] or a
    natural number, and a natural number when the answer has fewer than
    308 characters. *)
Lemma countTasks_natural (agentResponse : string) :
  (countTasks agentResponse = Infinity
   ∨ ∃ n, countTasks agentResponse = Int n ∧ 0 ≤ n)
  ∧ ((String.length agentResponse < 308)%nat → countTasks agentResponse ≠ Infinity).
Proof.
  unfold countTasks.
  destruct (exec tasksProcessedRe (chars agentResponse)) as [m|] eqn:Hexec.
  2:{ split; [right; by exists 0|discriminate]. }
  apply exec_Some in Hexec as (pre & Htext & Hat & _).
  apply matchAt_sound in Hat as [_ Hm].
  apply tasksProcessedRe_phrase in Hm as (ds & Hphrase & ->). simpl.
  destruct Hphrase as (ws1 & t & s & ws2 & v & Hw & Hds & _).
  rewrite (parseInt_digits ds Hds). destruct Hds as [_ Hds].
  assert (Hpos : 0 ≤ decimal ds) by (by apply decimal_from).
  split; [by apply toDouble_natural|].
  intros Hshort Hinf. apply toDouble_infinity in Hinf; [|done].
  assert (Hlen : (length ds < 308)%nat).
  { apply (f_equal length) in Htext. rewrite length_chars, Hw in Htext.
    rewrite !length_app in Htext. lia. }
  pose proof (decimal_below ds 0 Hds (Z.le_refl 0)) as Hbelow.
  fold (decimal ds) in Hbelow.
  assert (Hpow : 10 ^ Z.of_nat (length ds) ≤ 10 ^ 307)
    by (apply Z.pow_le_mono_r; lia).
  assert (Hcmp : 10 ^ 307 < 2 ^ 1023) by reflexivity.
  lia.
Qed.

(** X24. The task-discovery step never throws.  The [tasksProcessed] it
    returns is never NaN and never negative: it is a natural number or
    [Infinity], and a natural number whenever the agent's answer has
    fewer than 308 characters.  When no agent is registered it returns 0
    tasks, no completed task, and the error "Workflow execution failed:
    CTO Agent not found - ensure it is registered in the Mastra
    instance". *)
Theorem taskDiscoveryStep_always_returns (ctoAgent : option (Outcome string)) :
  ∃ result,
    taskDiscoveryStep ctoAgent = Returned result
    ∧ (tasksProcessed result = Infinity
       ∨ ∃ n, tasksProcessed result = Int n ∧ 0 ≤ n)
    ∧ (∀ agentResponse,
         ctoAgent = Some (Returned agentResponse) →
         (String.length agentResponse < 308)%nat →
         ∃ n, tasksProcessed result = Int n ∧ 0 ≤ n)
    ∧ (ctoAgent = None → result = missingAgent).
Proof.
  destruct ctoAgent as [[agentResponse|e]|].
  - destruct (countTasks_natural agentResponse) as [Hnat Hfinite].
    exists (parseResponse agentResponse). split; [reflexivity|].
    cbn [parseResponse tasksProcessed]. split; [exact Hnat|]. split; [|discriminate].
    intros ? [= <-] Hshort. destruct Hnat as [Hinf|Hn]; [|exact Hn].
    by destruct (Hfinite Hshort).
  - eexists. split; [reflexivity|]. split; [right; by exists 0|].
    split; discriminate.
  - eexists. split; [reflexivity|]. split; [right; by exists 0|].
    split; [discriminate|done].
Qed.

Lemma substring_prefix (n : nat) (s : string) :
  ((String.length s ≤ n)%nat ∧ String.substring 0 n s = s)
  ∨ ((n < String.length s)%nat
     ∧ ∃ rest, s = (String.substring 0 n s ++ rest)%string
               ∧ String.length (String.substring 0 n s) = n).
Proof.
  revert s. induction n as [|n IH]; intros s.
  - destruct s as [|c s]; simpl.
    + left. done.
    + right. split; [lia|]. by exists (String c s).
  - destruct s as [|c s]; simpl.
    + left. split; [lia|done].
    + destruct (IH s) as [[Hlen Hsub]|(Hlen & rest & Hsub & Hn)].
      * left. split; [lia|]. by rewrite Hsub.
      * right. split; [lia|]. exists rest. split; [by rewrite <- Hsub|by rewrite Hn].
Qed.

(** From 2^53 on, the double of a number is at least 2^53. *)
Lemma toDouble_big (v : Z) :
  2 ^ 53 ≤ v → toDouble v = Infinity ∨ ∃ y, toDouble v = Int y ∧ 2 ^ 53 ≤ y.
Proof.
  intros Hbig. unfold toDouble.
  destruct (Z.ltb_spec v (2 ^ 53)) as [Hlt|_].
  { exfalso. apply (Z.lt_irrefl v). eapply Z.lt_le_trans; [exact Hlt|exact Hbig]. }
  cbv zeta.
  set (e := Z.log2 v - 52).
  set (q := Z.shiftr v e).
  set (q' := if v - Z.shiftl q e <? Z.shiftl 1 (e - 1) then q
             else if Z.shiftl 1 (e - 1) <? v - Z.shiftl q e then q + 1
             else if Z.even q then q else q + 1).
  destruct (2 ^ 1024 <=? Z.shiftl q' e); [by left|]. right.
  exists (Z.shiftl q' e). split; [reflexivity|].
  assert (Hpos : 0 < v).
  { eapply Z.lt_le_trans; [|exact Hbig]. reflexivity. }
  assert (Hlog : 53 ≤ Z.log2 v) by (by apply Z.log2_le_pow2).
  assert (He : 0 ≤ e) by (unfold e; lia).
  destruct (Z.log2_spec v Hpos) as [Hlow _].
  replace (Z.log2 v) with (e + 52) in Hlow at 1 by (unfold e; lia).
  rewrite Z.pow_add_r in Hlow by lia.
  assert (Hp : 0 < 2 ^ e) by (by apply Z.pow_pos_nonneg).
  assert (Hq : 2 ^ 52 ≤ q).
  { unfold q. rewrite Z.shiftr_div_pow2 by done.
    apply Z.div_le_lower_bound; [exact Hp|exact Hlow]. }
  assert (Hq' : 2 ^ 52 ≤ q') by (unfold q'; repeat case_match; lia).
  rewrite Z.shiftl_mul_pow2 by done.
  assert (Hone : 2 ^ 53 ≤ 2 ^ 52 * 2 ^ e).
  { rewrite <- Z.pow_add_r by lia. apply Z.pow_le_mono_r; lia. }
  assert (Hle : 2 ^ 52 * 2 ^ e ≤ q' * 2 ^ e) by (apply Z.mul_le_mono_nonneg_r; lia).
  lia.
Qed.

(** Below 2^53, the only decimal read back as a number is that number. *)
Lemma roundTrips_exact (x v : Z) : x < 2 ^ 53 → roundTrips x v = true → v = x.
Proof.
  intros Hx. unfold roundTrips.
  destruct (Z.lt_ge_cases v (2 ^ 53)) as [Hv|Hv].
  - rewrite (toDouble_exact v Hv). apply Z.eqb_eq.
  - destruct (toDouble_big v Hv) as [-> |(y & -> & Hy)]; [discriminate|].
    intros Heq. apply Z.eqb_eq in Heq. lia.
Qed.

Lemma closest_exact (x : Z) (k : nat) :
  x < 2 ^ 53 → closest x k = None ∨ closest x k = Some x.
Proof.
  intros Hx. unfold closest. cbv zeta.
  assert (Hall : ∀ v, In v (List.filter (roundTrips x) (candidates x k)) → v = x).
  { intros v Hin. apply filter_In in Hin as [_ Hv]. by apply roundTrips_exact. }
  destruct (List.filter (roundTrips x) (candidates x k)) as [|a [|b l]].
  - by left.
  - right. f_equal. apply Hall. by left.
  - right. assert (a = x) as -> by (apply Hall; by left).
    assert (b = x) as -> by (apply Hall; right; by left).
    by repeat case_match.
Qed.

Lemma shortestFrom_exact (x : Z) (fuel k : nat) :
  x < 2 ^ 53 → shortestFrom fuel k x = x.
Proof.
  intros Hx. revert k. induction fuel as [|fuel IH]; intros k; simpl; [done|].
  destruct (closest_exact x k Hx) as [-> | ->]; [apply IH|done].
Qed.

(** Below 2^53 a number is printed in full. *)
Lemma showDouble_exact (x : Z) : x < 2 ^ 53 → showDouble x = showZ x.
Proof.
  intros Hx. unfold showDouble, shortest. cbv zeta.
  rewrite (shortestFrom_exact x _ _ Hx).
  destruct (Z.ltb_spec x (10 ^ 21)) as [|Hbig]; [done|].
  exfalso. assert (Hcmp : 2 ^ 53 < 10 ^ 21) by reflexivity. lia.
Qed.

(** X25. The summary of an answered run names the count and the number
    of pull-request mentions, then quotes the answer: whole when it has
    at most 500 characters, and otherwise its first 500 characters
    followed by "...".  The count is printed as JavaScript prints the
    number, in full when it is below 2^53. *)
Theorem summary_quotes_answer (agentResponse : string) :
  ∃ result excerpt,
    taskDiscoveryStep (Some (Returned agentResponse)) = Returned result
    ∧ summary result = (summaryHead result ++ excerpt)%string
    ∧ (∀ n, tasksProcessed result = Int n → n < 2 ^ 53 →
            showNumber (tasksProcessed result) = showZ n)
    ∧ (((String.length agentResponse ≤ 500)%nat ∧ excerpt = agentResponse)
       ∨ ((500 < String.length agentResponse)%nat
          ∧ ∃ first rest,
              agentResponse = (first ++ rest)%string
              ∧ String.length first = 500%nat
              ∧ excerpt = (first ++ "...")%string)).
Proof.
  exists (parseResponse agentResponse).
  exists (String.substring 0 500 agentResponse
            ++ (if (500 <? String.length agentResponse)%nat then "..." else EmptyString))%string.
  split; [reflexivity|]. split; [|split].
  - unfold parseResponse, summaryHead. cbn [summary tasksProcessed completedTasks].
    by rewrite !NotionRuns.append_assoc.
  - intros n -> Hn. by apply showDouble_exact.
  - destruct (substring_prefix 500 agentResponse)
      as [[Hlen Hsub]|(Hlen & rest & Hsub & Hn)].
    + left. split; [done|].
      destruct (Nat.ltb_spec 500 (String.length agentResponse)); [lia|].
      by rewrite Hsub, NotionRuns.append_nil_r.
    + right. split; [done|].
      destruct (Nat.ltb_spec 500 (String.length agentResponse)); [|lia].
      by exists (String.substring 0 500 agentResponse), rest.
Qed.

End StepRuns.
